(** * The indirect linear-system solver of SCS: [linsys/indirect/private.c]

    A shallow embedding of the sparse-indirect solver (transpose builder,
    Jacobi preconditioner, implicit operator [RHO_X * I + A'A],
    preconditioned conjugate gradient, tolerance schedule, running
    statistics, workspace allocation) and the properties its specification
    states about it.

    Conventions.
    - [idxint] is a signed C integer.  Signed overflow is undefined in C, so
      there is no wrap-around to write out: [idxint] values are [Z], and the
      statements keep every index inside the arrays.
    - [pfloat] is a typedef of the absent header; the code is written once
      over an interface [PFloat] of the operations it uses and run at two
      instances: [binary64] (IEEE-754 double, the arithmetic of the compiled
      program) and [exactR] (real numbers, the arithmetic the specification
      reasons in).
    - A C array is a [list]; [get] and [set] read and write one cell.  An
      access outside the array is undefined in C: [get] returns a default
      and [set] leaves the array alone.
    - The instance [binary64] rounds after every operation, to nearest even:
      no fused multiply-add, no wider intermediate format.
    - [scs_malloc] may return [NULL]: the pointer fields of [Priv] are
      [ptr]s, and the allocating code runs in the monad [Mem], whose
      outcome [Fault] is a store through a null pointer.
    - linAlg.c, cs.c and the header that defines [MAX] and [POWF] are not
      part of the file: their functions are written after the
      specification's description of them, and [POWF] is a parameter. *)

From Stdlib Require Import ZArith List Bool Lia Permutation Sorted.
From Stdlib Require Import Floats.
From Stdlib Require Import Reals Lra.
Import ListNotations.
Local Open Scope Z_scope.

Set Implicit Arguments.
Set Warnings "-inexact-float".

(* ================================================================= *)
(** ** Scalars *)

Abbreviation idxint := Z (only parsing).

(** The operations of [pfloat] that the file uses. *)
Class PFloat (F : Type) := {
  f0 : F;                       (* 0, also the value memset(.,0,.) leaves *)
  f1 : F;                       (* 1 *)
  fadd : F -> F -> F;
  fmul : F -> F -> F;
  fdiv : F -> F -> F;
  fopp : F -> F;
  fsqrt : F -> F;               (* SQRTF *)
  fltb : F -> F -> bool;        (* a < b *)
  of_idxint : idxint -> F;      (* the conversion (pfloat) i *)
  CG_BEST_TOL : F               (* #define CG_BEST_TOL 1e-7 *)
}.

Declare Scope pf_scope.
Delimit Scope pf_scope with pf.
Infix "+:" := fadd (at level 50, left associativity) : pf_scope.
Infix "*:" := fmul (at level 40, left associativity) : pf_scope.
Infix "/:" := fdiv (at level 40, left associativity) : pf_scope.
Infix "<:?" := fltb (at level 70, no associativity) : pf_scope.
Notation "-: a" := (fopp a) (at level 35, right associativity) : pf_scope.

(** IEEE-754 binary64: [pfloat] as [double]. *)
Definition float_of_idxint (i : idxint) : float :=
  if i <? 0 then PrimFloat.opp (PrimFloat.of_uint63 (Uint63.of_Z (- i)))
  else PrimFloat.of_uint63 (Uint63.of_Z i).

#[export] Instance binary64 : PFloat float := {|
  f0 := 0%float;
  f1 := 1%float;
  fadd := PrimFloat.add;
  fmul := PrimFloat.mul;
  fdiv := PrimFloat.div;
  fopp := PrimFloat.opp;
  fsqrt := PrimFloat.sqrt;
  fltb := PrimFloat.ltb;
  of_idxint := float_of_idxint;
  CG_BEST_TOL := 1e-7%float
|}.

(** Exact arithmetic on the reals. *)
Definition Rltb (a b : R) : bool := if Rlt_dec a b then true else false.

#[export] Instance exactR : PFloat R := {|
  f0 := 0%R;
  f1 := 1%R;
  fadd := Rplus;
  fmul := Rmult;
  fdiv := Rdiv;
  fopp := Ropp;
  fsqrt := R_sqrt.sqrt;
  fltb := Rltb;
  of_idxint := IZR;
  CG_BEST_TOL := (1 / 10 ^ 7)%R
|}.

(* ================================================================= *)
(** ** Arrays and loops *)

Fixpoint upd {T} (a : list T) (k : nat) (v : T) : list T :=
  match a, k with
  | [], _ => []
  | _ :: t, O => v :: t
  | h :: t, S k' => h :: upd t k' v
  end.

(** [a[i]] *)
Definition get {T} (dflt : T) (a : list T) (i : idxint) : T :=
  if i <? 0 then dflt else nth (Z.to_nat i) a dflt.

(** [a[i] = v] *)
Definition set {T} (a : list T) (i : idxint) (v : T) : list T :=
  if i <? 0 then a else upd a (Z.to_nat i) v.

(** [&a[k]] *)
Definition offset {T} (a : list T) (k : idxint) : list T := skipn (Z.to_nat k) a.

(** Run [f] on the part of [b] that starts at [&b[k]], in place. *)
Definition at_offset {T} (b : list T) (k : idxint) (f : list T -> list T) : list T :=
  firstn (Z.to_nat k) b ++ f (offset b k).

(** [memcpy(dst, src, n * sizeof *dst)] *)
Definition memcpy {T} (dst src : list T) (n : idxint) : list T :=
  firstn (Z.to_nat n) src ++ skipn (Z.to_nat n) dst.

(** [memset(dst, 0, n * sizeof *dst)]; [zero] is the value whose bytes are all 0 *)
Definition memset0 {T} (zero : T) (dst : list T) (n : idxint) : list T :=
  repeat zero (Z.to_nat n) ++ skipn (Z.to_nat n) dst.

(** [for (i = lo; i < hi; ++i) body] *)
Fixpoint for_up {S} (k : nat) (i : idxint) (body : idxint -> S -> S) (s : S) : S :=
  match k with
  | O => s
  | Datatypes.S k' => for_up k' (i + 1) body (body i s)
  end.

Definition for_loop {S} (lo hi : idxint) (body : idxint -> S -> S) (s : S) : S :=
  for_up (Z.to_nat (hi - lo)) lo body s.

(* ================================================================= *)
(** ** The problem data and the workspace *)

(** A pointer handed out by [scs_malloc]: [NULL], or the address of a live
    block and the array stored in it. *)
Inductive ptr (T : Type) : Type :=
| NULL : ptr T
| Ptr (addr : nat) (cells : list T) : ptr T.
Arguments NULL {T}.

Definition is_null {T} (q : ptr T) : bool :=
  match q with NULL => true | Ptr _ _ => false end.

Definition deref {T} (q : ptr T) : list T :=
  match q with NULL => [] | Ptr _ c => c end.

Definition store {T} (q : ptr T) (c : list T) : ptr T :=
  match q with NULL => NULL | Ptr a _ => Ptr a c end.

Module AMatrix.
(** [A->x], [A->i], [A->p]: column-compressed values, row indices, column pointers *)
Record t (F : Type) := mk { x : list F; i : list idxint; p : list idxint }.
End AMatrix.

Module Data.
Record t (F : Type) := mk {
  m : idxint; n : idxint; A : AMatrix.t F; RHO_X : F; CG_RATE : F }.
End Data.

Module Priv.
Record t (F : Type) := mk {
  p : ptr F; r : ptr F; Ap : ptr F; tmp : ptr F;
  z : ptr F; M : ptr F;
  Ati : ptr idxint; Atp : ptr idxint; Atx : ptr F }.
End Priv.

(* ================================================================= *)
(** ** The code *)

Section Code.
Context {F : Type} {PF : PFloat F}.
Local Open Scope pf_scope.

Notation "a .[ i ]" := (get f0 a i) (at level 1, left associativity, format "a .[ i ]").
Notation "a .<[ i ]>" := (get 0 a i) (at level 1, left associativity, format "a .<[ i ]>").

(** *** linAlg.h *)

(** Modelled from the spec: [scaleArray] of linAlg.c, "scale": a[i] *= b for i < len. *)
Definition scaleArray (a : list F) (b : F) (len : idxint) : list F :=
  for_loop 0 len (fun i a => set a i (a.[i] *: b)) a.

(** Modelled from the spec: [addScaledArray] of linAlg.c, "x += alpha p":
    a[i] += sc * b[i] for i < n. *)
Definition addScaledArray (a b : list F) (n : idxint) (sc : F) : list F :=
  for_loop 0 n (fun i a => set a i (a.[i] +: sc *: b.[i])) a.

(** Modelled from the spec: [innerProd] of linAlg.c, the inner product <x, y>
    accumulated from 0 in index order. *)
Definition innerProd (x y : list F) (len : idxint) : F :=
  for_loop 0 len (fun i ip => ip +: x.[i] *: y.[i]) f0.

(** Modelled from the spec: [calcNormSq] of linAlg.c, "the sum of squares",
    accumulated from 0 in index order. *)
Definition calcNormSq (v : list F) (len : idxint) : F :=
  for_loop 0 len (fun i nmsq => nmsq +: v.[i] *: v.[i]) f0.

(** Modelled from the spec: [calcNorm] of linAlg.c, "the Euclidean norm". *)
Definition calcNorm (v : list F) (len : idxint) : F := fsqrt (calcNormSq v len).

(** Modelled from the spec: the macro [MAX] of the absent header,
    [((a) > (b)) ? (a) : (b)] ("clamp_min"). *)
Definition MAX (a b : F) : F := if b <:? a then a else b.

(** *** _accumByAtrans, accumByAtrans, accumByA *)

Definition _accumByAtrans (n : idxint) (Ax : list F) (Ai Ap : list idxint)
    (x y : list F) : list F :=
  for_loop 0 n (fun j y =>
    let yj := y.[j] in
    let c1 := Ap.<[j]> in
    let c2 := Ap.<[j + 1]> in
    let yj := for_loop c1 c2 (fun p yj => yj +: Ax.[p] *: x.[Ai.<[p]>]) yj in
    set y j yj) y.

Definition accumByAtrans (d : Data.t F) (p : Priv.t F) (x y : list F) : list F :=
  let A := Data.A d in
  _accumByAtrans (Data.n d) (AMatrix.x A) (AMatrix.i A) (AMatrix.p A) x y.

Definition accumByA (d : Data.t F) (p : Priv.t F) (x y : list F) : list F :=
  _accumByAtrans (Data.m d) (deref (Priv.Atx p)) (deref (Priv.Ati p))
    (deref (Priv.Atp p)) x y.

(** *** matVec: y = (RHO_X * I + A'A) x.  Returns the new [p->tmp] and [y]. *)
Definition matVec (d : Data.t F) (p : Priv.t F) (tmp x y : list F) : list F * list F :=
  let tmp := memset0 f0 tmp (Data.m d) in
  let tmp := accumByA d p x tmp in
  let y := memset0 f0 y (Data.n d) in
  let y := accumByAtrans d p tmp y in
  let y := addScaledArray y x (Data.n d) (Data.RHO_X d) in
  (tmp, y).

(** *** applyPreConditioner: returns the new [z] and [*ipzr]. *)
Definition applyPreConditioner (M z r : list F) (n : idxint) : list F * F :=
  for_loop 0 n (fun i '(z, ipzr) =>
    let z := set z i (r.[i] *: M.[i]) in
    (z, ipzr +: z.[i] *: r.[i])) (z, f0).

(** *** pcg: solves (RHO_X * I + A'A) x = b, warm start [s] ([None] is [NULL]).

    The locals of the loop: the solution buffer [b], the workspace vectors
    and the scalar [ipzr]. *)
Record cg_state := mk_cg {
  cg_b : list F; cg_r : list F; cg_p : list F; cg_Ap : list F;
  cg_z : list F; cg_tmp : list F; cg_ipzr : F }.

(** One pass through the body of the loop; [true] when the body returns. *)
Definition pcg_body (d : Data.t F) (pr : Priv.t F) (tol : F) (st : cg_state)
    : bool * cg_state :=
  let n := Data.n d in
  let M := deref (Priv.M pr) in
  let '(tmp, Ap) := matVec d pr (cg_tmp st) (cg_p st) (cg_Ap st) in
  let alpha := cg_ipzr st /: innerProd (cg_p st) Ap n in
  let b := addScaledArray (cg_b st) (cg_p st) n alpha in
  let r := addScaledArray (cg_r st) Ap n (-: alpha) in
  if calcNorm r n <:? tol then
    (true, mk_cg b r (cg_p st) Ap (cg_z st) tmp (cg_ipzr st))
  else
    let ipzrOld := cg_ipzr st in
    let '(z, ipzr) := applyPreConditioner M (cg_z st) r n in
    let p := scaleArray (cg_p st) (ipzr /: ipzrOld) n in
    let p := addScaledArray p z n f1 in
    (false, mk_cg b r p Ap z tmp ipzr).

(** [for (i = 0; i < max_its; ++i) { ...; return i + 1; ... } return i;]
    with [k] passes left. *)
Fixpoint pcg_loop (d : Data.t F) (pr : Priv.t F) (tol : F) (k : nat) (i : idxint)
    (st : cg_state) : idxint * cg_state :=
  match k with
  | O => (i, st)
  | S k' =>
      let '(stop, st') := pcg_body d pr tol st in
      if stop then (i + 1, st') else pcg_loop d pr tol k' (i + 1) st'
  end.

Definition pcg_init (d : Data.t F) (pr : Priv.t F) (s : option (list F)) (b : list F)
    : cg_state :=
  let n := Data.n d in
  let p := deref (Priv.p pr) in
  let Ap := deref (Priv.Ap pr) in
  let r := deref (Priv.r pr) in
  let z := deref (Priv.z pr) in
  let M := deref (Priv.M pr) in
  let tmp := deref (Priv.tmp pr) in
  let '(tmp, r, b) :=
    match s with
    | None =>
        let r := memcpy r b n in
        let b := memset0 f0 b n in
        (tmp, r, b)
    | Some s =>
        let '(tmp, r) := matVec d pr tmp s r in
        let r := addScaledArray r b n (-: f1) in
        let r := scaleArray r (-: f1) n in
        let b := memcpy b s n in
        (tmp, r, b)
    end in
  let '(z, ipzr) := applyPreConditioner M z r n in
  let p := memcpy p z n in
  mk_cg b r p Ap z tmp ipzr.

(** The workspace after the call: the vectors written through [pr]. *)
Definition cg_writeback (pr : Priv.t F) (st : cg_state) : Priv.t F :=
  Priv.mk (store (Priv.p pr) (cg_p st)) (store (Priv.r pr) (cg_r st))
    (store (Priv.Ap pr) (cg_Ap st)) (store (Priv.tmp pr) (cg_tmp st))
    (store (Priv.z pr) (cg_z st)) (Priv.M pr)
    (Priv.Ati pr) (Priv.Atp pr) (Priv.Atx pr).

(** The run of [pcg]: the value returned and the final locals. *)
Definition pcg_run (d : Data.t F) (pr : Priv.t F) (s : option (list F)) (b : list F)
    (max_its : idxint) (tol : F) : idxint * cg_state :=
  pcg_loop d pr tol (Z.to_nat max_its) 0 (pcg_init d pr s b).

(** [pcg]: the iteration count, the workspace and the buffer [b], which now
    holds the solution. *)
Definition pcg (d : Data.t F) (pr : Priv.t F) (s : option (list F)) (b : list F)
    (max_its : idxint) (tol : F) : idxint * Priv.t F * list F :=
  let '(its, st) := pcg_run d pr s b max_its tol in
  (its, cg_writeback pr st, cg_b st).

(** *** getPreconditioner: M = inv (diag (RHO_X * I + A'A)).  The loop, on the
    array [M]. *)
Definition getPreconditioner_arrays (d : Data.t F) (M : list F) : list F :=
  let A := Data.A d in
  for_loop 0 (Data.n d) (fun i M =>
    set M i (f1 /: (Data.RHO_X d +:
      calcNormSq (offset (AMatrix.x A) (AMatrix.p A).<[i]>)
                 ((AMatrix.p A).<[i + 1]> - (AMatrix.p A).<[i]>)))) M.

(** *** transpose *)

(** Modelled from the spec: [cs_cumsum] of the absent cs.c: "convert counts
    to an exclusive prefix sum to get the output's column-pointer array",
    leaving in [c] "a mutable copy of the prefix-sum array" (the write
    cursors).  Returns the new [p] and [c]. *)
Definition cs_cumsum (p c : list idxint) (n : idxint) : list idxint * list idxint :=
  let '(p, c, nz) :=
    for_loop 0 n (fun i '(p, c, nz) =>
      let p := set p i nz in
      let nz := nz + c.<[i]> in
      let c := set c i p.<[i]> in
      (p, c, nz)) (p, c, 0) in
  (set p n nz, c).

(** The loops of [transpose] on the arrays [Ci], [Cp], [Cx] and the counters
    [z], which [scs_calloc] handed out zeroed. *)
Definition transpose_arrays (m n : idxint) (Ap Ai : list idxint) (Ax : list F)
    (Ci Cp : list idxint) (Cx : list F) (z : list idxint)
    : list idxint * list idxint * list F :=
  let z := for_loop 0 Ap.<[n]> (fun i z => set z Ai.<[i]> (z.<[Ai.<[i]>]> + 1)) z in
  let '(Cp, z) := cs_cumsum Cp z m in
  let '(Ci, Cx, z) :=
    for_loop 0 n (fun j st =>
      let c1 := Ap.<[j]> in
      let c2 := Ap.<[j + 1]> in
      for_loop c1 c2 (fun i '(Ci, Cx, z) =>
        let q := z.<[Ai.<[i]>]> in
        let z := set z Ai.<[i]> (q + 1) in
        let Ci := set Ci q j in
        let Cx := set Cx q Ax.[i] in
        (Ci, Cx, z)) st) (Ci, Cx, z) in
  (Ci, Cp, Cx).

End Code.

Notation "a .[ i ]" := (get f0 a i) (at level 1, left associativity, format "a .[ i ]").
Notation "a .<[ i ]>" := (get 0 a i) (at level 1, left associativity, format "a .<[ i ]>").

(* ================================================================= *)
(** ** Memory and the file-scope variables *)

Section Memory.
Context {F : Type} {PF : PFloat F}.
Local Open Scope pf_scope.

(** The state outside the handles: the allocator and the statics of the
    file, [totCgIts] and [totalSolveTime] ([linsysTimer] is read through
    the elapsed time that [tocq] reports, an input of [solveLinSys]). *)
Record World := mk_world {
  oracle : list bool;          (* the coming allocations: [false] is a refusal *)
  next : nat;                  (* the next fresh address *)
  live : list nat;             (* the blocks allocated and not yet freed *)
  indet : F;                   (* what a fresh scs_malloc block happens to hold *)
  totCgIts : idxint;
  totalSolveTime : F }.

Inductive outcome (A : Type) : Type :=
| Fault : outcome A                      (* a store through NULL *)
| Ok (a : A) (w : World) : outcome A.
Arguments Fault {A}.

Definition Mem (A : Type) : Type := World -> outcome A.

Definition ret {A} (a : A) : Mem A := fun w => Ok a w.
Definition fault {A} : Mem A := fun _ => Fault.
Definition bind {A B} (c : Mem A) (k : A -> Mem B) : Mem B :=
  fun w => match c w with Fault => Fault | Ok a w' => k a w' end.

Notation "x <- c ;; k" := (bind c (fun x => k))
  (at level 61, c at next level, right associativity).
Notation "c ;;; k" := (bind c (fun _ => k))
  (at level 61, right associativity).

(** [scs_malloc(len * sizeof(T))]: a block of [len] cells, or NULL. *)
Definition alloc {T} (fill : T) (len : idxint) : Mem (ptr T) := fun w =>
  match oracle w with
  | false :: o =>
      Ok NULL (mk_world o (next w) (live w) (indet w) (totCgIts w) (totalSolveTime w))
  | o =>
      Ok (Ptr (next w) (repeat fill (Z.to_nat len)))
         (mk_world (tl o) (S (next w)) (next w :: live w) (indet w)
            (totCgIts w) (totalSolveTime w))
  end.

Definition scs_malloc (len : idxint) : Mem (ptr F) :=
  fun w => alloc (indet w) len w.
Definition scs_malloc_idx (len : idxint) : Mem (ptr idxint) := alloc 0 len.
Definition scs_calloc {T} (zero : T) (len : idxint) : Mem (ptr T) := alloc zero len.

Definition scs_free {T} (q : ptr T) : Mem unit := fun w =>
  match q with
  | NULL => Ok tt w
  | Ptr a _ =>
      Ok tt (mk_world (oracle w) (next w) (List.remove Nat.eq_dec a (live w)) (indet w)
               (totCgIts w) (totalSolveTime w))
  end.

Definition set_totCgIts (v : idxint) : Mem unit := fun w =>
  Ok tt (mk_world (oracle w) (next w) (live w) (indet w) v (totalSolveTime w)).
Definition set_totalSolveTime (v : F) : Mem unit := fun w =>
  Ok tt (mk_world (oracle w) (next w) (live w) (indet w) (totCgIts w) v).
Definition get_totCgIts : Mem idxint := fun w => Ok (totCgIts w) w.
Definition get_totalSolveTime : Mem F := fun w => Ok (totalSolveTime w) w.

(** A store through [q] faults when [q] is NULL. *)
Definition guard (touched : bool) {T} (q : ptr T) : Mem unit :=
  if touched && is_null q then fault else ret tt.

(** *** transpose, with its pointers *)

(** The number of passes through the inner loop of the scatter. *)
Definition scatter_steps (n : idxint) (Ap : list idxint) : idxint :=
  for_loop 0 n (fun j c => c + Z.max 0 (Ap.<[j + 1]> - Ap.<[j]>)) 0.

(** [cs_cumsum] is taken to write through both of its arguments. *)
Definition transpose (d : Data.t F) (p : Priv.t F) : Mem (Priv.t F) :=
  let m := Data.m d in
  let n := Data.n d in
  let Ap := AMatrix.p (Data.A d) in
  let Ai := AMatrix.i (Data.A d) in
  let Ax := AMatrix.x (Data.A d) in
  z <- scs_calloc 0 m ;;
  guard (0 <? Ap.<[n]>) z ;;;                    (* z[Ai[i]]++ *)
  guard true (Priv.Atp p) ;;;                    (* cs_cumsum: p[n] = nz *)
  guard (0 <? m) z ;;;                           (* cs_cumsum: c[i] *)
  guard (0 <? scatter_steps n Ap) z ;;;
  guard (0 <? scatter_steps n Ap) (Priv.Ati p) ;;;
  guard (0 <? scatter_steps n Ap) (Priv.Atx p) ;;;
  let '(Ci, Cp, Cx) :=
    transpose_arrays m n Ap Ai Ax (deref (Priv.Ati p)) (deref (Priv.Atp p))
      (deref (Priv.Atx p)) (deref z) in
  scs_free z ;;;
  ret (Priv.mk (Priv.p p) (Priv.r p) (Priv.Ap p) (Priv.tmp p) (Priv.z p) (Priv.M p)
         (store (Priv.Ati p) Ci) (store (Priv.Atp p) Cp) (store (Priv.Atx p) Cx)).

(** *** getPreconditioner, with its pointer *)
Definition getPreconditioner (d : Data.t F) (p : Priv.t F) : Mem (Priv.t F) :=
  guard (0 <? Data.n d) (Priv.M p) ;;;
  ret (Priv.mk (Priv.p p) (Priv.r p) (Priv.Ap p) (Priv.tmp p) (Priv.z p)
         (store (Priv.M p) (getPreconditioner_arrays d (deref (Priv.M p))))
         (Priv.Ati p) (Priv.Atp p) (Priv.Atx p)).

(** *** freePriv *)
Definition freePriv (p : ptr (Priv.t F)) : Mem unit :=
  match p with
  | NULL => ret tt
  | Ptr _ cells =>
      match cells with
      | [] => ret tt
      | s :: _ =>
          scs_free (Priv.p s) ;;;
          scs_free (Priv.r s) ;;;
          scs_free (Priv.Ap s) ;;;
          scs_free (Priv.tmp s) ;;;
          scs_free (Priv.Ati s) ;;;
          scs_free (Priv.Atx s) ;;;
          scs_free (Priv.Atp s) ;;;
          scs_free (Priv.z s) ;;;
          scs_free (Priv.M s) ;;;
          scs_free p
      end
  end.

(** *** initPriv *)

(** [calloc(1, sizeof(Priv))]: every field NULL. *)
Definition Priv_zero : Priv.t F := Priv.mk NULL NULL NULL NULL NULL NULL NULL NULL NULL.

Definition initPriv (d : Data.t F) : Mem (ptr (Priv.t F)) :=
  let A := Data.A d in
  let m := Data.m d in
  let n := Data.n d in
  p <- scs_calloc Priv_zero 1 ;;
  guard true p ;;;                               (* p->p = ... *)
  p_p <- scs_malloc n ;;
  p_r <- scs_malloc n ;;
  p_Ap <- scs_malloc n ;;
  p_tmp <- scs_malloc m ;;
  p_z <- scs_malloc n ;;
  p_M <- scs_malloc n ;;
  p_Ati <- scs_malloc_idx (AMatrix.p A).<[n]> ;;
  p_Atp <- scs_malloc_idx (m + 1) ;;
  p_Atx <- scs_malloc (AMatrix.p A).<[n]> ;;
  s <- transpose d (Priv.mk p_p p_r p_Ap p_tmp p_z p_M p_Ati p_Atp p_Atx) ;;
  s <- getPreconditioner d s ;;
  set_totalSolveTime f0 ;;;
  set_totCgIts 0 ;;;
  if is_null (Priv.p s) || is_null (Priv.r s) || is_null (Priv.Ap s)
     || is_null (Priv.tmp s) || is_null (Priv.Ati s) || is_null (Priv.Atp s)
     || is_null (Priv.Atx s)
  then freePriv (store p [s]) ;;; ret NULL
  else ret (store p [s]).

(** *** solveLinSys *)

Section Solve.
(** The macro [POWF] of the absent header: the [pow] of the C library. *)
Variable POWF : F -> F -> F.

(** The value of the local [cgTol] at the call of [pcg]. *)
Definition cgTol (d : Data.t F) (b : list F) (iter : idxint) : F :=
  let cgTol := calcNorm b (Data.n d) *:
    (if iter <? 0 then CG_BEST_TOL
     else f1 /: POWF (of_idxint (iter + 1)) (Data.CG_RATE d)) in
  MAX cgTol CG_BEST_TOL.

(** The value of the local [cgIts]: what the call of [pcg] returns. *)
Definition cgIts (d : Data.t F) (p : Priv.t F) (b : list F) (s : option (list F))
    (iter : idxint) : idxint :=
  let n := Data.n d in
  let b1 := accumByAtrans d p (offset b n) b in
  fst (fst (pcg d p s b1 n (cgTol d b iter))).

(** [elapsed] is what [tocq(&linsysTimer)] returns.  The result is the
    workspace and the buffer [b] after the call. *)
Definition solveLinSys (d : Data.t F) (p : Priv.t F) (b : list F)
    (s : option (list F)) (iter : idxint) (elapsed : F)
    : Mem (Priv.t F * list F) :=
  let n := Data.n d in
  let m := Data.m d in
  let tol := cgTol d b iter in
  let b := accumByAtrans d p (offset b n) b in
  let '(its, p, b) := pcg d p s b n tol in
  let b := at_offset b n (fun y => scaleArray y (-: f1) m) in
  let b := at_offset b n (fun y => accumByA d p b y) in
  (if 0 <=? iter then
     t <- get_totCgIts ;; set_totCgIts (t + its)
   else ret tt) ;;;
  t <- get_totalSolveTime ;;
  set_totalSolveTime (t +: elapsed) ;;;
  ret (p, b).

End Solve.

(** *** getLinSysSummary *)

(** [str] holds the two numbers that [sprintf] formats: the average number
    of CG iterations and the average solve time. *)
Definition getLinSysSummary (p : Priv.t F) (info_iter : idxint) : Mem (ptr F) :=
  str <- scs_malloc 128 ;;
  guard true str ;;;                             (* sprintf(str, ...) *)
  its <- get_totCgIts ;;
  t <- get_totalSolveTime ;;
  let str := store str
    [ of_idxint its /: of_idxint (info_iter + 1);
      t /: of_idxint (info_iter + 1) /: of_idxint 1000 ] in
  set_totCgIts 0 ;;;
  set_totalSolveTime f0 ;;;
  ret str.

End Memory.

Arguments World F : clear implicits.
Arguments outcome F A : clear implicits.
Arguments Fault {F A}.
Arguments Ok {F A} a w.
Arguments Mem F A : clear implicits.


(* ================================================================= *)
(** ** Vocabulary of the specification *)

(** The indices [lo, lo + 1, ..., hi - 1]. *)
Definition zrange (lo hi : idxint) : list idxint :=
  map (fun k => lo + Z.of_nat k) (seq 0 (Z.to_nat (hi - lo))).

Section Vocabulary.
Context {F : Type} {PF : PFloat F}.
Local Open Scope pf_scope.

(** A stored nonzero: row, column, value. *)
Definition entry : Type := idxint * idxint * F.

Definition e_row (e : entry) : idxint := fst (fst e).
Definition e_col (e : entry) : idxint := snd (fst e).
Definition e_val (e : entry) : F := snd e.
Definition swap_entry (e : entry) : entry := (e_col e, e_row e, e_val e).

(** The nonzeros that a column-compressed matrix stores in column [j], and
    in its [ncols] columns, in storage order. *)
Definition col_entries (Ap Ai : list idxint) (Ax : list F) (j : idxint) : list entry :=
  map (fun k => (Ai.<[k]>, j, Ax.[k])) (zrange Ap.<[j]> Ap.<[j + 1]>).

Definition entries (ncols : idxint) (Ap Ai : list idxint) (Ax : list F) : list entry :=
  flat_map (col_entries Ap Ai Ax) (zrange 0 ncols).

Definition entries_of (ncols : idxint) (A : AMatrix.t F) : list entry :=
  entries ncols (AMatrix.p A) (AMatrix.i A) (AMatrix.x A).

(** "SparseMatrix": [m] rows, [n] columns, [colPtr] of [n + 1] non-decreasing
    offsets from 0, [colPtr[n]] nonzeros, every row index in [0, m). *)
Record valid_csc (m n : idxint) (A : AMatrix.t F) : Prop := {
  csc_m : 0 <= m;
  csc_n : 0 <= n;
  csc_len_p : Z.of_nat (length (AMatrix.p A)) = n + 1;
  csc_p0 : (AMatrix.p A).<[0]> = 0;
  csc_mono : forall j, 0 <= j < n -> (AMatrix.p A).<[j]> <= (AMatrix.p A).<[j + 1]>;
  csc_len_i : Z.of_nat (length (AMatrix.i A)) = (AMatrix.p A).<[n]>;
  csc_len_x : Z.of_nat (length (AMatrix.x A)) = (AMatrix.p A).<[n]>;
  csc_rows : forall k, 0 <= k < (AMatrix.p A).<[n]> -> 0 <= (AMatrix.i A).<[k]> < m
}.

(** The transpose cache of a workspace, as a matrix of [m] columns. *)
Definition At_of (p : Priv.t F) : AMatrix.t F :=
  AMatrix.mk (deref (Priv.Atx p)) (deref (Priv.Ati p)) (deref (Priv.Atp p)).

(** The nonzeros of row [i] and of column [j], in storage order. *)
Definition in_row (i : idxint) (es : list entry) : list entry :=
  filter (fun e => e_row e =? i) es.
Definition in_col (j : idxint) (es : list entry) : list entry :=
  filter (fun e => e_col e =? j) es.

(** The cache holds the transpose: its column [i] lists the nonzeros of
    row [i] of [A], in their storage order. *)
Definition is_transpose_cache (d : Data.t F) (p : Priv.t F) : Prop :=
  valid_csc (Data.n d) (Data.m d) (At_of p) /\
  forall i, 0 <= i < Data.m d ->
    col_entries (AMatrix.p (At_of p)) (AMatrix.i (At_of p)) (AMatrix.x (At_of p)) i =
    map swap_entry (in_row i (entries_of (Data.n d) (Data.A d))).

(** *** The operator, as the specification writes it: y = rho x + A'(A x).

    Sums run over the stored nonzeros, from 0, in storage order. *)

(** (A x)[i] *)
Definition row_dot (es : list entry) (x : list F) (i : idxint) : F :=
  fold_left (fun acc e => acc +: e_val e *: x.[e_col e]) (in_row i es) f0.

(** (A' t)[j] *)
Definition col_dot (es : list entry) (t : list F) (j : idxint) : F :=
  fold_left (fun acc e => acc +: e_val e *: t.[e_row e]) (in_col j es) f0.

Definition A_times (d : Data.t F) (x : list F) : list F :=
  map (row_dot (entries_of (Data.n d) (Data.A d)) x) (zrange 0 (Data.m d)).

Definition At_times (d : Data.t F) (t : list F) : list F :=
  map (col_dot (entries_of (Data.n d) (Data.A d)) t) (zrange 0 (Data.n d)).

Definition operator (d : Data.t F) (x : list F) : list F :=
  map (fun j => (At_times d (A_times d x)).[j] +: Data.RHO_X d *: x.[j])
      (zrange 0 (Data.n d)).

(** A scalar that vanishes against zero: 0 + a * 0 = 0.  Every real does,
    and every finite double (an infinity or a NaN does not). *)
Definition absorbed (a : F) : Prop := f0 +: a *: f0 = f0.

(** The sum of the squares of the nonzeros of column [j], from 0, in
    storage order. *)
Definition col_sumsq (es : list entry) (j : idxint) : F :=
  fold_left (fun acc e => acc +: e_val e *: e_val e) (in_col j es) f0.

End Vocabulary.

(* ================================================================= *)
(** ** Auxiliary functions of the proofs *)

(** f 0 + ... + f (i - 1) *)
Definition psum (f : idxint -> Z) (i : idxint) : Z :=
  for_loop 0 i (fun k s => s + f k) 0.

Section Auxiliary.
Context {F : Type} {PF : PFloat F}.

Definition count_row (i : idxint) (es : list (@entry F)) : Z :=
  Z.of_nat (length (in_row i es)).

(** One pass of the scatter of [transpose], for the nonzero [e] of [A]. *)
Definition scatter_step (st : list idxint * list F * list idxint) (e : entry)
    : list idxint * list F * list idxint :=
  let '(Ci, Cx, z) := st in
  let q := z.<[e_row e]> in
  let z := set z (e_row e) (q + 1) in
  let Ci := set Ci q (e_col e) in
  let Cx := set Cx q (e_val e) in
  (Ci, Cx, z).

(** The cursors [z] cut the output into one bucket per row; buckets are in
    row order and large enough for the nonzeros still to come. *)
Definition buckets (es : list (@entry F)) (z : list idxint) (len : Z) : Prop :=
  (forall e, In e es -> 0 <= e_row e < Z.of_nat (length z)) /\
  (forall i, 0 <= i < Z.of_nat (length z) -> 0 <= z.<[i]> /\ z.<[i]> + count_row i es <= len) /\
  (forall i i', 0 <= i < i' -> i' < Z.of_nat (length z) ->
     z.<[i]> + count_row i es <= z.<[i']>).

Definition dflt_entry : @entry F := (0, 0, f0).

(** A computation that leaves the two counters alone. *)
Definition keeps_stats {A} (c : Mem F A) : Prop :=
  forall w a w', c w = Ok a w' ->
    totCgIts w' = totCgIts w /\ totalSolveTime w' = totalSolveTime w.

End Auxiliary.

(* ================================================================= *)
(** ** Well-formed inputs *)

Section WellFormed.
Context {F : Type} {PF : PFloat F}.

(** [valid_csc], decided. *)
Definition valid_cscb (m n : idxint) (A : AMatrix.t F) : bool :=
  let Ap := AMatrix.p A in
  let Ai := AMatrix.i A in
  (0 <=? m) && (0 <=? n)
  && (Z.of_nat (length Ap) =? n + 1)
  && (Ap.<[0]> =? 0)
  && forallb (fun j => Ap.<[j]> <=? Ap.<[j + 1]>) (zrange 0 n)
  && (Z.of_nat (length Ai) =? Ap.<[n]>)
  && (Z.of_nat (length (AMatrix.x A)) =? Ap.<[n]>)
  && forallb (fun k => (0 <=? Ai.<[k]>) && (Ai.<[k]> <? m)) (zrange 0 Ap.<[n]>).

(** [q] points to a block of [len] cells. *)
Definition points_to {T} (q : ptr T) (len : idxint) : Prop :=
  exists a c, q = Ptr a c /\ Z.of_nat (length c) = len.

(** The three arrays of the transpose cache are allocated, as [initPriv]
    sizes them. *)
Definition cache_allocated (d : Data.t F) (p : Priv.t F) : Prop :=
  points_to (Priv.Ati p) (AMatrix.p (Data.A d)).<[Data.n d]> /\
  points_to (Priv.Atp p) (Data.m d + 1) /\
  points_to (Priv.Atx p) (AMatrix.p (Data.A d)).<[Data.n d]>.

(** The next allocation is granted. *)
Definition grants (w : World F) : Prop :=
  match oracle w with false :: _ => False | _ => True end.

(** Every coming allocation is granted. *)
Definition grants_all (w : World F) : Prop := Forall (fun b => b = true) (oracle w).

(** The block behind a pointer. *)
Definition addr_of {T} (q : ptr T) : list nat :=
  match q with NULL => [] | Ptr a _ => [a] end.

(** The blocks behind the fields of a workspace, in the order in which
    [freePriv] releases them. *)
Definition addrs_of (s : Priv.t F) : list nat :=
  addr_of (Priv.p s) ++ addr_of (Priv.r s) ++ addr_of (Priv.Ap s) ++
  addr_of (Priv.tmp s) ++ addr_of (Priv.Ati s) ++ addr_of (Priv.Atx s) ++
  addr_of (Priv.Atp s) ++ addr_of (Priv.z s) ++ addr_of (Priv.M s).

(** Every live block lies below the next fresh address. *)
Definition fresh (w : World F) : Prop := forall a, In a (live w) -> (a < next w)%nat.

(** From [w] to [w'] the blocks [l] have been allocated, and none freed. *)
Definition grown (w w' : World F) (l : list nat) : Prop :=
  live w' = l ++ live w /\ (next w <= next w')%nat /\
  forall a, In a l -> (next w <= a < next w')%nat.

(** Freeing the blocks [rs], one after the other. *)
Definition remove_all (rs : list nat) (l : list nat) : list nat :=
  fold_left (fun acc a => List.remove Nat.eq_dec a acc) rs l.

End WellFormed.

(* ================================================================= *)
(** ** Signs of binary64 numbers *)

(** A double, read through [Prim2SF], that is positive (finite or +infinity),
    and one that is +0 or positive. *)
Definition SF_pos (x : spec_float) : Prop :=
  match x with S754_infinity false | S754_finite false _ _ => True | _ => False end.

Definition SF_nonneg (x : spec_float) : Prop :=
  match x with
  | S754_zero false | S754_infinity false | S754_finite false _ _ => True
  | _ => False
  end.

(* ================================================================= *)
(** ** Concrete problems *)

Local Open Scope float_scope.

(** The workspace behind a handle ([Priv_zero] under NULL). *)
Definition handle_of {F} {PF : PFloat F} (o : outcome F (ptr (Priv.t F))) : Priv.t F :=
  match o with
  | Ok (Ptr _ (s :: _)) _ => s
  | _ => Priv_zero
  end.

(** A process that has allocated nothing, where every allocation succeeds. *)
Definition w_fresh : World float := mk_world [] 0%nat [] 0 0%Z 0.

(** The scenario of the specification: the 2x2 identity, rho = 1. *)
Definition A_id : AMatrix.t float := AMatrix.mk [1; 1] [0; 1]%Z [0; 1; 2]%Z.
Definition d_id : Data.t float := Data.mk 2 2 A_id 1 2.
Definition p_id : Priv.t float := handle_of (initPriv d_id w_fresh).

(** A 5x5 matrix of two diagonal blocks,
    [[2 1 0] [1 3 1] [0 1 4]] and [[1 2] [0 3]]; rho = 1, CG_RATE = 0. *)
Definition A_blk : AMatrix.t float :=
  AMatrix.mk [2; 1; 1; 3; 1; 1; 4; 1; 2; 3]
             [0; 1; 0; 1; 2; 1; 2; 3; 3; 4]%Z
             [0; 2; 5; 7; 8; 10]%Z.
Definition d_blk : Data.t float := Data.mk 5 5 A_blk 1 0.
Definition p_blk : Priv.t float := handle_of (initPriv d_blk w_fresh).

Local Close Scope float_scope.

(* ================================================================= *)
(** ** The claims that fail, as stated *)

Local Open Scope float_scope.



(** One column whose square overflows. *)
Definition A_huge : AMatrix.t float := AMatrix.mk [1e200] [0]%Z [0; 1]%Z.
Definition d_huge : Data.t float := Data.mk 1 1 A_huge 1 2.

Local Close Scope float_scope.

(** A one-dimensional problem in exact arithmetic whose tolerance exponent is
    negative, and one whose exponent is 2. *)
Definition d_neg_rate : Data.t R := Data.mk 0 1 (AMatrix.mk [] [] [0; 0]) 1%R (-1)%R.
Definition d_rate2 : Data.t R := Data.mk 0 1 (AMatrix.mk [] [] [0; 0]) 1%R 2%R.

(** The value and the final state of a run that does not fault. *)
Definition value_of {F A} (dflt : A) (o : outcome F A) : A :=
  match o with Ok a _ => a | _ => dflt end.
Definition world_of {F A} (dflt : World F) (o : outcome F A) : World F :=
  match o with Ok _ w => w | _ => dflt end.

(** "The claim about the preconditioner", as stated, in binary64: every
    entry is strictly positive whenever rho > 0. *)
Definition preconditioner_positive : Prop :=
  forall (d : Data.t float) (M : list float),
    valid_csc (Data.m d) (Data.n d) (Data.A d) ->
    Z.of_nat (length M) = Data.n d ->
    PrimFloat.ltb 0 (Data.RHO_X d) = true ->
    forall j, 0 <= j < Data.n d ->
      PrimFloat.ltb 0 (getPreconditioner_arrays d M).[j] = true.

(** "Applying the operator to the zero vector yields the zero vector
    exactly", as stated, in binary64: for every valid matrix and every
    workspace whose cache holds its transpose. *)
Definition matVec_zero_to_zero : Prop :=
  forall (d : Data.t float) (p : Priv.t float) (tmp y : list float),
    valid_csc (Data.m d) (Data.n d) (Data.A d) ->
    is_transpose_cache d p ->
    Z.of_nat (length tmp) = Data.m d ->
    Z.of_nat (length y) = Data.n d ->
    snd (matVec d p tmp (repeat f0 (Z.to_nat (Data.n d))) y) =
    repeat f0 (Z.to_nat (Data.n d)).

(** The 1x1 matrix whose stored value is +infinity, rho = 1. *)
Definition A_inf : AMatrix.t float := AMatrix.mk [infinity] [0]%Z [0; 1]%Z.
Definition d_inf : Data.t float := Data.mk 1 1 A_inf 1%float 2%float.
Definition p_inf : Priv.t float := handle_of (initPriv d_inf w_fresh).

(** Two calls of [solveLinSys] on the block matrix.  CG_RATE is 0 there, and
    the [pow] of the C library returns 1 for the exponent 0, so [POWF] is
    the constant 1 on these calls. *)
Definition pow_rate0 (x y : float) : float := 1%float.
Definition b_first : list float := [0; 0; 0; 0; 0; 1; 2; 3; 0; 0]%float.
Definition b_second : list float := [0; 0; 0; 0; 0; 1; 2; 3; 4; 5]%float.
Definition w_blk : World float := world_of w_fresh (initPriv d_blk w_fresh).
Definition after_first : outcome float (Priv.t float * list float) :=
  solveLinSys pow_rate0 d_blk p_blk b_first None 0 1.5%float w_blk.
Definition after_second : outcome float (Priv.t float * list float) :=
  solveLinSys pow_rate0 d_blk (fst (value_of (p_blk, []) after_first)) b_second None 1
    2.5%float (world_of w_blk after_first).

(** Allocators that refuse one request of [initPriv] and grant the others:
    the first (the [Priv] itself), the fifth ([p->tmp]), the sixth ([p->z])
    and the seventh ([p->M]). *)
Definition refuse_nth (k : nat) : World float :=
  mk_world (repeat true k ++ [false]) 0%nat [] 0%float 0 0%float.
Definition w_refuse_Priv : World float := refuse_nth 0.
Definition w_refuse_tmp : World float := refuse_nth 4.
Definition w_refuse_z : World float := refuse_nth 5.
Definition w_refuse_M : World float := refuse_nth 6.

(* ================================================================= *)
(** ** Vocabulary of the further properties *)

Section Workspace.
Context {F : Type} {PF : PFloat F}.

(** The locals of [pcg] have the lengths of the workspace vectors. *)
Definition cg_lengths (d : Data.t F) (st : @cg_state F) : Prop :=
  Z.of_nat (length (cg_p st)) = Data.n d /\
  Z.of_nat (length (cg_r st)) = Data.n d /\
  Z.of_nat (length (cg_Ap st)) = Data.n d /\
  Z.of_nat (length (cg_z st)) = Data.n d /\
  Z.of_nat (length (cg_tmp st)) = Data.m d.

(** A workspace as [initPriv] builds it when every request is granted: the
    six vectors allocated with their lengths, the cache holding the
    transpose. *)
Definition ready (d : Data.t F) (p : Priv.t F) : Prop :=
  points_to (Priv.p p) (Data.n d) /\ points_to (Priv.r p) (Data.n d) /\
  points_to (Priv.Ap p) (Data.n d) /\ points_to (Priv.tmp p) (Data.m d) /\
  points_to (Priv.z p) (Data.n d) /\ points_to (Priv.M p) (Data.n d) /\
  is_transpose_cache d p.

(** A warm start, when there is one, has [n] cells. *)
Definition warm_start_fits (d : Data.t F) (s : option (list F)) : Prop :=
  match s with None => True | Some s0 => Z.of_nat (length s0) = Data.n d end.

End Workspace.

(** The sum of a list of reals. *)
Definition Rsum (l : list R) : R := fold_right Rplus 0%R l.

(** A workspace in exact arithmetic for the 1x1 matrix [2]. *)
Definition d_one : Data.t R := Data.mk 1 1 (AMatrix.mk [2%R] [0] [0; 1]) 1%R 0%R.

Definition p_one : Priv.t R :=
  Priv.mk (Ptr 1 [0%R]) (Ptr 2 [0%R]) (Ptr 3 [0%R]) (Ptr 4 [0%R]) (Ptr 5 [0%R])
    (Ptr 6 [(1 / (1 + (0 + 2 * 2)))%R]) (Ptr 7 [0]) (Ptr 8 [0; 1]) (Ptr 9 [2%R]).

(** A problem without rows: n = 2, m = 0, rho = 2. *)
Definition A_norows : AMatrix.t float := AMatrix.mk [] [] [0; 0; 0].

Definition d_norows : Data.t float := Data.mk 0 2 A_norows 2%float 0%float.

Definition p_norows : Priv.t float := handle_of (initPriv d_norows w_fresh).

Definition w_norows : World float := world_of w_fresh (initPriv d_norows w_fresh).

Definition run_norows : outcome float (Priv.t float * list float) :=
  solveLinSys pow_rate0 d_norows p_norows [2; 4]%float None 0 1%float w_norows.

(** [[1 2] [3 4]] with the row indices of each column in decreasing order,
    and a workspace of which only the cache is allocated. *)
Definition A_unsorted : AMatrix.t float :=
  AMatrix.mk [3; 1; 4; 2]%float [1; 0; 1; 0] [0; 2; 4].

Definition d_unsorted : Data.t float := Data.mk 2 2 A_unsorted 1%float 0%float.

Definition p_cache_only : Priv.t float :=
  Priv.mk NULL NULL NULL NULL NULL NULL
    (Ptr 1 (repeat 0 4)) (Ptr 2 (repeat 0 3)) (Ptr 3 (repeat 0%float 4)).

Definition run_transpose : outcome float (Priv.t float) :=
  transpose d_unsorted p_cache_only w_fresh.

(** A double that is +0 or -0, and one that is NaN. *)
Definition is_zero (x : float) : Prop := exists s, Prim2SF x = S754_zero s.

Definition is_NaN (x : float) : Prop := Prim2SF x = S754_nan.

(** The first [n] cells of the solution and of the residual are NaN. *)
Definition poisoned (d : Data.t float) (st : @cg_state float) : Prop :=
  forall j, 0 <= j < Data.n d -> is_NaN (get f0 (cg_b st) j) /\ is_NaN (get f0 (cg_r st) j).





(* ================================================================= *)
(** * Properties *)

Unset Implicit Arguments.

(** ** Arrays and loops *)

Lemma length_upd {T} (a : list T) k v : length (upd a k v) = length a.
Proof.
  revert k; induction a as [|h t IH]; intros [|k]; simpl; auto.
Qed.

Lemma nth_upd_eq {T} (a : list T) k v dflt :
  (k < length a)%nat -> nth k (upd a k v) dflt = v.
Proof.
  revert k; induction a as [|h t IH]; intros [|k] Hk; simpl in *; try lia; auto.
  apply IH; lia.
Qed.

Lemma nth_upd_neq {T} (a : list T) k k' v dflt :
  k <> k' -> nth k' (upd a k v) dflt = nth k' a dflt.
Proof.
  revert k k'; induction a as [|h t IH]; intros [|k] [|k'] Hk; simpl; auto; try lia.
Qed.

Lemma length_set {T} (a : list T) i v : length (set a i v) = length a.
Proof.
  unfold set; destruct (i <? 0); auto using length_upd.
Qed.

Lemma get_set_eq {T} (a : list T) i v dflt :
  0 <= i < Z.of_nat (length a) -> get dflt (set a i v) i = v.
Proof.
  intros Hi; unfold get, set.
  destruct (Z.ltb_spec i 0); [lia|].
  apply nth_upd_eq; lia.
Qed.

Lemma get_set_neq {T} (a : list T) i j v dflt :
  i <> j -> get dflt (set a i v) j = get dflt a j.
Proof.
  intros Hij; unfold get, set.
  destruct (Z.ltb_spec j 0); auto.
  destruct (Z.ltb_spec i 0); auto.
  apply nth_upd_neq; lia.
Qed.

Lemma get_repeat {T} (v dflt : T) k i :
  0 <= i < Z.of_nat k -> get dflt (repeat v k) i = v.
Proof.
  intros Hi; unfold get.
  destruct (Z.ltb_spec i 0); [lia|].
  apply nth_repeat_lt; lia.
Qed.

Lemma for_up_app {S} (k1 k2 : nat) i (body : idxint -> S -> S) s :
  for_up (k1 + k2) i body s = for_up k2 (i + Z.of_nat k1) body (for_up k1 i body s).
Proof.
  revert i s; induction k1 as [|k1 IH]; intros i s.
  - simpl; f_equal; lia.
  - cbn [for_up Nat.add]; rewrite IH; f_equal; lia.
Qed.

Lemma for_loop_nil {S} lo hi (body : idxint -> S -> S) s :
  hi <= lo -> for_loop lo hi body s = s.
Proof.
  intros H; unfold for_loop.
  replace (Z.to_nat (hi - lo)) with O by lia; reflexivity.
Qed.

Lemma for_loop_split {S} lo mid hi (body : idxint -> S -> S) s :
  lo <= mid <= hi ->
  for_loop lo hi body s = for_loop mid hi body (for_loop lo mid body s).
Proof.
  intros H; unfold for_loop.
  replace (Z.to_nat (hi - lo)) with (Z.to_nat (mid - lo) + Z.to_nat (hi - mid))%nat by lia.
  rewrite for_up_app; f_equal; lia.
Qed.

Lemma for_loop_first {S} lo hi (body : idxint -> S -> S) s :
  lo < hi -> for_loop lo hi body s = for_loop (lo + 1) hi body (body lo s).
Proof.
  intros H; unfold for_loop.
  replace (Z.to_nat (hi - lo)) with (Datatypes.S (Z.to_nat (hi - (lo + 1)))) by lia.
  reflexivity.
Qed.

Lemma for_loop_last {S} lo hi (body : idxint -> S -> S) s :
  lo <= hi -> for_loop lo (hi + 1) body s = body hi (for_loop lo hi body s).
Proof.
  intros H; rewrite (for_loop_split lo hi (hi + 1)) by lia.
  rewrite (for_loop_first hi) by lia.
  apply for_loop_nil; lia.
Qed.

(** The invariant rule of the counting loop. *)
Lemma for_loop_inv {S} (P : idxint -> S -> Prop) lo hi (body : idxint -> S -> S) s :
  lo <= hi ->
  P lo s ->
  (forall i s, lo <= i < hi -> P i s -> P (i + 1) (body i s)) ->
  P hi (for_loop lo hi body s).
Proof.
  intros Hle H0 Hstep.
  assert (G : forall k, (k <= Z.to_nat (hi - lo))%nat ->
            P (lo + Z.of_nat k) (for_loop lo (lo + Z.of_nat k) body s)).
  { induction k as [|k IH]; intros Hk.
    - rewrite Z.add_0_r, for_loop_nil by lia; exact H0.
    - replace (lo + Z.of_nat (Datatypes.S k)) with (lo + Z.of_nat k + 1) by lia.
      rewrite for_loop_last by lia.
      apply Hstep; [lia | apply IH; lia]. }
  specialize (G (Z.to_nat (hi - lo)) (le_n _)).
  replace (lo + Z.of_nat (Z.to_nat (hi - lo))) with hi in G by lia; exact G.
Qed.

Lemma for_loop_ext {S} lo hi (f g : idxint -> S -> S) s :
  (forall i s, lo <= i < hi -> f i s = g i s) ->
  for_loop lo hi f s = for_loop lo hi g s.
Proof.
  intros H; unfold for_loop.
  remember (Z.to_nat (hi - lo)) as k eqn:Hk.
  assert (Hb : lo + Z.of_nat k <= Z.max lo hi) by lia.
  clear Hk. revert lo s H Hb.
  induction k as [|k IH]; intros lo s H Hb; simpl; auto.
  rewrite H by lia. apply IH; [intros; apply H; lia | lia].
Qed.

(** ** The iteration count of pcg *)

Section PcgCount.
Context {F : Type} {PF : PFloat F}.
Local Open Scope pf_scope.

Lemma pcg_body_stop d pr tol (st st' : cg_state) :
  pcg_body d pr tol st = (true, st') ->
  (calcNorm (cg_r st') (Data.n d) <:? tol) = true.
Proof.
  unfold pcg_body.
  destruct (matVec d pr (cg_tmp st) (cg_p st) (cg_Ap st)) as [tmp Ap].
  destruct (calcNorm _ _ <:? tol) eqn:E.
  - intros H; inversion H; subst; simpl; exact E.
  - destruct (applyPreConditioner _ _ _ _); discriminate.
Qed.

Lemma pcg_loop_count d pr tol k i st its st' :
  pcg_loop d pr tol k i st = (its, st') ->
  i <= its <= i + Z.of_nat k /\
  (its < i + Z.of_nat k -> (calcNorm (cg_r st') (Data.n d) <:? tol) = true) /\
  ((calcNorm (cg_r st') (Data.n d) <:? tol) = false -> its = i + Z.of_nat k).
Proof.
  revert i st; induction k as [|k IH]; intros i st H.
  - simpl in H; inversion H; subst. split; [lia|]. split; [lia|]. intros; lia.
  - cbn [pcg_loop] in H.
    destruct (pcg_body d pr tol st) as [[|] st1] eqn:E.
    + inversion H; subst.
      pose proof (pcg_body_stop _ _ _ _ _ E) as Hs.
      split; [lia|]. split; [auto|]. intros Hf; congruence.
    + apply IH in H. destruct H as (H1 & H2 & H3).
      split; [lia|]. split; intros; [apply H2 | rewrite H3 by assumption]; lia.
Qed.

End PcgCount.

(** ** The transpose builder *)

(** ** Index ranges *)

Lemma zrange_nil lo hi : hi <= lo -> zrange lo hi = [].
Proof.
  intros H; unfold zrange. replace (Z.to_nat (hi - lo)) with O by lia. reflexivity.
Qed.

Lemma zrange_cons lo hi : lo < hi -> zrange lo hi = lo :: zrange (lo + 1) hi.
Proof.
  intros H; unfold zrange.
  replace (Z.to_nat (hi - lo)) with (S (Z.to_nat (hi - (lo + 1)))) by lia.
  cbn [seq map]. f_equal; [lia|].
  rewrite <- seq_shift, map_map. apply map_ext; intros; lia.
Qed.

Lemma zrange_app lo mid hi :
  lo <= mid <= hi -> zrange lo hi = zrange lo mid ++ zrange mid hi.
Proof.
  intros H.
  remember (Z.to_nat (mid - lo)) as k eqn:Hk.
  revert lo H Hk; induction k as [|k IH]; intros lo H Hk.
  - assert (mid = lo) by lia; subst. rewrite (zrange_nil lo lo) by lia. reflexivity.
  - rewrite (zrange_cons lo hi), (zrange_cons lo mid) by lia.
    cbn [app]. f_equal. apply IH; lia.
Qed.

Lemma zrange_snoc lo hi : lo <= hi -> zrange lo (hi + 1) = zrange lo hi ++ [hi].
Proof.
  intros H. rewrite (zrange_app lo hi (hi + 1)) by lia.
  rewrite (zrange_cons hi (hi + 1)) by lia. rewrite (zrange_nil (hi + 1) (hi + 1)) by lia. reflexivity.
Qed.

Lemma In_zrange lo hi k : In k (zrange lo hi) <-> lo <= k < hi.
Proof.
  unfold zrange. rewrite in_map_iff. split.
  - intros (x & Hx & Hin). apply in_seq in Hin. lia.
  - intros H. exists (Z.to_nat (k - lo)). split; [lia|]. apply in_seq. lia.
Qed.

Lemma length_zrange lo hi : length (zrange lo hi) = Z.to_nat (hi - lo).
Proof. unfold zrange. rewrite length_map, length_seq. reflexivity. Qed.

Lemma nth_zrange lo hi k d :
  (k < Z.to_nat (hi - lo))%nat -> nth k (zrange lo hi) d = lo + Z.of_nat k.
Proof.
  intros H. unfold zrange.
  rewrite (nth_indep _ d (lo + Z.of_nat 0)) by (rewrite length_map, length_seq; lia).
  rewrite (map_nth (fun k => lo + Z.of_nat k)). rewrite seq_nth by lia. reflexivity.
Qed.

Lemma for_loop_fold {S} lo hi (body : idxint -> S -> S) s :
  for_loop lo hi body s = fold_left (fun s i => body i s) (zrange lo hi) s.
Proof.
  destruct (Z.le_gt_cases hi lo) as [H|H].
  - rewrite for_loop_nil, zrange_nil by lia. reflexivity.
  - remember (Z.to_nat (hi - lo)) as k eqn:Hk.
    revert lo s H Hk. induction k as [|k IH]; intros lo s H Hk; [lia|].
    rewrite for_loop_first, zrange_cons by lia. cbn [fold_left].
    destruct (Z.eq_dec (lo + 1) hi) as [->|Hne].
    + rewrite for_loop_nil, zrange_nil by lia. reflexivity.
    + apply IH; lia.
Qed.

Lemma fold_left_flat_map {A B S} (f : S -> B -> S) (g : A -> list B) l s :
  fold_left f (flat_map g l) s = fold_left (fun s x => fold_left f (g x) s) l s.
Proof.
  revert s; induction l as [|a l IH]; intros s; simpl; auto.
  rewrite fold_left_app. apply IH.
Qed.

Lemma fold_left_map {A B S} (f : S -> B -> S) (h : A -> B) l s :
  fold_left f (map h l) s = fold_left (fun s x => f s (h x)) l s.
Proof.
  revert s; induction l as [|a l IH]; intros s; simpl; auto.
Qed.

Lemma fold_left_ext_in {A S} (f g : S -> A -> S) l s :
  (forall s x, In x l -> f s x = g s x) -> fold_left f l s = fold_left g l s.
Proof.
  revert s; induction l as [|a l IH]; intros s H; simpl; auto.
  rewrite H by (left; reflexivity). apply IH. intros; apply H; right; assumption.
Qed.

(** The column ranges of a monotone pointer array tile [Ap[lo], Ap[hi]). *)
Lemma flat_map_zrange (Ap : list idxint) lo hi :
  lo <= hi ->
  (forall j, lo <= j < hi -> Ap.<[j]> <= Ap.<[j + 1]>) ->
  flat_map (fun j => zrange Ap.<[j]> Ap.<[j + 1]>) (zrange lo hi) = zrange Ap.<[lo]> Ap.<[hi]>
  /\ Ap.<[lo]> <= Ap.<[hi]>.
Proof.
  intros Hle Hm.
  remember (Z.to_nat (hi - lo)) as k eqn:Hk.
  revert hi Hle Hm Hk. induction k as [|k IH]; intros hi Hle Hm Hk.
  - assert (hi = lo) by lia; subst. rewrite !zrange_nil by lia. simpl. split; [reflexivity|lia].
  - replace hi with ((hi - 1) + 1) by lia.
    rewrite zrange_snoc by lia. rewrite flat_map_app. simpl. rewrite app_nil_r.
    destruct (IH (hi - 1)) as [E L]; try lia. { intros; apply Hm; lia. }
    rewrite E. pose proof (Hm (hi - 1) ltac:(lia)) as Hs.
    split; [|lia]. symmetry. apply zrange_app. lia.
Qed.

(** ** Prefix sums *)

Lemma psum_nil f i : i <= 0 -> psum f i = 0.
Proof. intros; unfold psum; apply for_loop_nil; lia. Qed.

Lemma psum_succ f i : 0 <= i -> psum f (i + 1) = psum f i + f i.
Proof. intros; unfold psum; rewrite for_loop_last by lia; reflexivity. Qed.

Lemma psum_ext f g i :
  (forall k, 0 <= k < i -> f k = g k) -> psum f i = psum g i.
Proof.
  intros H; unfold psum. apply for_loop_ext. intros k s Hk. rewrite H by lia. reflexivity.
Qed.

(** Induction on the upper end of a range that starts at 0. *)
Lemma range_ind (P : Z -> Prop) :
  P 0 -> (forall i, 0 <= i -> P i -> P (i + 1)) -> forall i, 0 <= i -> P i.
Proof.
  intros H0 Hs i Hi. apply (natlike_ind P); auto.
Qed.

Lemma psum_add f g i : psum (fun k => f k + g k) i = psum f i + psum g i.
Proof.
  destruct (Z.le_gt_cases i 0) as [H|H].
  - rewrite !psum_nil by lia; reflexivity.
  - pattern i. apply range_ind; [| |lia].
    + rewrite !psum_nil by lia; reflexivity.
    + intros k Hk IH. cbv beta in IH |- *. rewrite !psum_succ by lia. lia.
Qed.

Lemma psum_mono f i j :
  (forall k, 0 <= k < j -> 0 <= f k) -> 0 <= i <= j -> psum f i <= psum f j.
Proof.
  intros Hf [Hi Hij]. assert (Hj : 0 <= j) by lia. revert Hij Hf. pattern j. apply range_ind; [| |lia].
  - intros Hij Hf. assert (i = 0) by lia. subst i. reflexivity.
  - intros k Hk IH Hij Hf. cbv beta in IH |- *.
    destruct (Z.eq_dec i (k + 1)) as [->|Hne]; [lia|].
    rewrite psum_succ by lia.
    specialize (IH ltac:(lia) ltac:(intros; apply Hf; lia)).
    specialize (Hf k ltac:(lia)). lia.
Qed.

Lemma psum_indicator r m :
  0 <= m -> psum (fun k => if r =? k then 1 else 0) m = if (0 <=? r) && (r <? m) then 1 else 0.
Proof.
  intros Hm. pattern m. apply range_ind; [| |lia].
  - rewrite psum_nil by lia.
    destruct (0 <=? r) eqn:E1, (r <? 0) eqn:E2; simpl; auto; lia.
  - intros i Hi IH. cbv beta in IH |- *. rewrite psum_succ, IH by lia.
    destruct (Z.leb_spec 0 r), (Z.ltb_spec r i), (Z.ltb_spec r (i + 1)), (Z.eqb_spec r i);
      simpl; lia.
Qed.

(** ** Counting the rows *)

Section Transpose.
Context {F : Type} {PF : PFloat F}.

Lemma count_row_nonneg i (es : list (@entry F)) : 0 <= count_row i es.
Proof. unfold count_row; lia. Qed.

Lemma count_row_cons i e (es : list (@entry F)) :
  count_row i (e :: es) = (if e_row e =? i then 1 else 0) + count_row i es.
Proof.
  unfold count_row, in_row. cbn [filter].
  destruct (e_row e =? i); cbn [length]; lia.
Qed.

Lemma psum_count_row m (es : list (@entry F)) :
  0 <= m ->
  (forall e, In e es -> 0 <= e_row e < m) ->
  psum (fun i => count_row i es) m = Z.of_nat (length es).
Proof.
  intros Hm. induction es as [|e es IH]; intros Hr.
  - transitivity (psum (fun _ => 0) m).
    + apply psum_ext; reflexivity.
    + pattern m. apply range_ind; [| |lia].
      * apply psum_nil; lia.
      * intros i Hi E. cbv beta in E |- *. rewrite psum_succ by lia. lia.
  - rewrite (psum_ext _ (fun i => (if e_row e =? i then 1 else 0) + count_row i es))
      by (intros; apply count_row_cons).
    rewrite psum_add, psum_indicator, IH by (auto; intros; apply Hr; right; assumption).
    specialize (Hr e (or_introl eq_refl)).
    destruct (Z.leb_spec 0 (e_row e)), (Z.ltb_spec (e_row e) m); cbn [andb length]; lia.
Qed.

(** The first loop of [transpose]: z[i] is the number of nonzeros of row i. *)
Lemma count_loop (es : list (@entry F)) (z : list idxint) :
  (forall e, In e es -> 0 <= e_row e < Z.of_nat (length z)) ->
  let z' := fold_left (fun z e => set z (e_row e) (z.<[e_row e]> + 1)) es z in
  length z' = length z /\
  forall i, z'.<[i]> = z.<[i]> + count_row i es.
Proof.
  revert z; induction es as [|e es IH]; intros z Hr; cbn [fold_left].
  - split; auto. intros i. unfold count_row; simpl; lia.
  - specialize (IH (set z (e_row e) (z.<[e_row e]> + 1))).
    destruct IH as [L G].
    { intros e' He'. rewrite length_set. apply Hr; right; assumption. }
    rewrite length_set in L. split; auto.
    intros i. rewrite G, count_row_cons.
    pose proof (Hr e (or_introl eq_refl)) as He.
    destruct (Z.eqb_spec (e_row e) i) as [E|Hne].
    + subst i. rewrite get_set_eq by lia. lia.
    + rewrite get_set_neq by auto. lia.
Qed.

(** [cs_cumsum]: p[i] = c[0] + ... + c[i - 1] for i <= n, and c[i] = p[i] for i < n. *)
Lemma cs_cumsum_spec (p c : list idxint) n :
  0 <= n ->
  n < Z.of_nat (length p) ->
  n <= Z.of_nat (length c) ->
  let '(p', c') := cs_cumsum p c n in
  length p' = length p /\ length c' = length c /\
  (forall i, 0 <= i <= n -> p'.<[i]> = psum (fun k => c.<[k]>) i) /\
  (forall i, 0 <= i < n -> c'.<[i]> = psum (fun k => c.<[k]>) i).
Proof.
  intros Hn Hp Hc. unfold cs_cumsum.
  set (body := fun (i : idxint) '(p, c, nz) =>
      let p := set p i nz in let nz := nz + c.<[i]> in let c := set c i p.<[i]> in (p, c, nz)).
  pose (P := fun (i : idxint) (st : list idxint * list idxint * Z) =>
    let '(p', c', nz) := st in
    length p' = length p /\ length c' = length c /\
    nz = psum (fun k => c.<[k]>) i /\
    (forall k, 0 <= k < i -> p'.<[k]> = psum (fun k => c.<[k]>) k) /\
    (forall k, 0 <= k < i -> c'.<[k]> = psum (fun k => c.<[k]>) k) /\
    (forall k, i <= k -> c'.<[k]> = c.<[k]>)).
  assert (H : P n (for_loop 0 n body (p, c, 0))).
  { apply for_loop_inv; [lia| |].
    - unfold P. repeat split; auto; try (intros; lia).
    - intros i [[p1 c1] nz] Hi (L1 & L2 & E & G1 & G2 & G3). unfold P, body.
      rewrite !length_set. repeat split; auto.
      + rewrite psum_succ by lia. rewrite G3 by lia. lia.
      + intros k Hk. destruct (Z.eq_dec k i) as [->|Hne].
        * rewrite get_set_eq by lia. auto.
        * rewrite get_set_neq by auto. apply G1; lia.
      + intros k Hk. destruct (Z.eq_dec k i) as [->|Hne].
        * rewrite !get_set_eq by lia. auto.
        * rewrite get_set_neq by auto. apply G2; lia.
      + intros k Hk. rewrite get_set_neq by lia. apply G3; lia. }
  destruct (for_loop 0 n body (p, c, 0)) as [[p1 c1] nz].
  destruct H as (L1 & L2 & E & G1 & G2 & G3).
  rewrite length_set. repeat split; auto.
  intros i Hi. destruct (Z.eq_dec i n) as [->|Hne].
  - rewrite get_set_eq by lia. auto.
  - rewrite get_set_neq by auto. apply G1; lia.
Qed.

End Transpose.

Section Scatter.
Context {F : Type} {PF : PFloat F}.

Lemma in_row_cons i e (es : list (@entry F)) :
  in_row i (e :: es) = if e_row e =? i then e :: in_row i es else in_row i es.
Proof. reflexivity. Qed.

Lemma buckets_step (e : @entry F) (es : list (@entry F)) z len :
  buckets (e :: es) z len ->
  buckets es (set z (e_row e) (z.<[e_row e]> + 1)) len.
Proof.
  intros (Hr & Hb & Ho).
  pose proof (Hr e (or_introl eq_refl)) as He.
  assert (Hc : forall i, count_row i (e :: es) =
             (if e_row e =? i then 1 else 0) + count_row i es)
    by (intros; apply count_row_cons).
  split; [|split].
  - intros e' He'. rewrite length_set. apply Hr; right; assumption.
  - intros i H. rewrite length_set in H. destruct (Hb i H) as [H1 H2]. rewrite Hc in H2.
    destruct (Z.eqb_spec (e_row e) i) as [E|E].
    + subst i. rewrite get_set_eq by lia. lia.
    + rewrite get_set_neq by auto. lia.
  - intros i i' Hi Hi'. rewrite length_set in Hi'.
    pose proof (Ho i i' Hi Hi') as Hii. rewrite Hc in Hii.
    pose proof (count_row_nonneg i es).
    destruct (Z.eqb_spec (e_row e) i) as [E|E]; destruct (Z.eq_dec (e_row e) i') as [E'|E'].
    + lia.
    + subst i. rewrite get_set_eq by lia. rewrite get_set_neq by auto. lia.
    + subst i'. rewrite get_set_eq by lia. rewrite get_set_neq by auto. lia.
    + rewrite !get_set_neq by auto. lia.
Qed.

Lemma scatter_spec (es : list (@entry F)) :
  forall (Ci : list idxint) (Cx : list F) (z : list idxint),
  length Cx = length Ci ->
  buckets es z (Z.of_nat (length Ci)) ->
  let '(Ci', Cx', z') := fold_left scatter_step es (Ci, Cx, z) in
  length Ci' = length Ci /\ length Cx' = length Cx /\
  (forall i r, 0 <= i < Z.of_nat (length z) -> 0 <= r < count_row i es ->
     Ci'.<[z.<[i]> + r]> = e_col (nth (Z.to_nat r) (in_row i es) dflt_entry) /\
     Cx'.[z.<[i]> + r] = e_val (nth (Z.to_nat r) (in_row i es) dflt_entry)) /\
  (forall q, (forall i, 0 <= i < Z.of_nat (length z) ->
                ~ (z.<[i]> <= q < z.<[i]> + count_row i es)) ->
     Ci'.<[q]> = Ci.<[q]> /\ Cx'.[q] = Cx.[q]).
Proof.
  induction es as [|e es IH]; intros Ci Cx z HL HB.
  - cbn [fold_left]. split; [auto|]. split; [auto|].
    split; [intros i r H H0; unfold count_row in H0; simpl in H0; lia | auto].
  - cbn [fold_left scatter_step].
    pose proof (buckets_step _ _ _ _ HB) as HB1.
    destruct HB as (Hr & Hb & Ho).
    pose proof (Hr e (or_introl eq_refl)) as He.
    destruct (Hb _ He) as [Hz0 Hz1]. rewrite count_row_cons, Z.eqb_refl in Hz1.
    pose proof (count_row_nonneg (e_row e) es) as Hcn.
    set (q0 := z.<[e_row e]>) in *.
    specialize (IH (set Ci q0 (e_col e)) (set Cx q0 (e_val e)) (set z (e_row e) (q0 + 1))).
    rewrite !length_set in IH. specialize (IH HL HB1).
    destruct (fold_left scatter_step es _) as [[Ci' Cx'] z'].
    destruct IH as (L1 & L2 & G & U).
    (* the slot of [e] is not written again *)
    assert (Hq0 : Ci'.<[q0]> = e_col e /\ Cx'.[q0] = e_val e).
    { destruct (U q0) as [U1 U2].
      - intros i Hi. destruct HB1 as (_ & Hb1 & _).
        destruct (Z.lt_trichotomy i (e_row e)) as [Hia|[Hia|Hia]].
        + pose proof (Ho i (e_row e) ltac:(lia) ltac:(lia)) as Hoo.
          rewrite count_row_cons in Hoo.
          rewrite get_set_neq by lia.
          destruct (Z.eqb_spec (e_row e) i); [lia|]. fold q0 in Hoo. lia.
        + subst i. rewrite get_set_eq by lia. lia.
        + pose proof (Ho (e_row e) i ltac:(lia) ltac:(lia)) as Hoo.
          rewrite count_row_cons, Z.eqb_refl in Hoo. fold q0 in Hoo.
          rewrite get_set_neq by lia. lia.
      - rewrite U1, U2. rewrite !get_set_eq by lia. auto. }
    split; [auto|]. split; [auto|]. split; [intros i r H H0; split | intros q H; split].
    + (* the nonzeros of (e_row e) row, in order *)
      rewrite count_row_cons in H0. rewrite in_row_cons.
      destruct (Z.eqb_spec (e_row e) i) as [E|E].
      * subst i. destruct (Z.eq_dec r 0) as [->|Hr0].
        -- rewrite Z.add_0_r. apply Hq0.
        -- replace (Z.to_nat r) with (S (Z.to_nat (r - 1))) by lia. cbn [nth].
           destruct (G (e_row e) (r - 1) H ltac:(lia)) as [G1 _].
           rewrite get_set_eq in G1 by lia. rewrite <- G1. f_equal. lia.
      * destruct (G i r H ltac:(lia)) as [G1 _].
        rewrite get_set_neq in G1 by auto. exact G1.
    + rewrite count_row_cons in H0. rewrite in_row_cons.
      destruct (Z.eqb_spec (e_row e) i) as [E|E].
      * subst i. destruct (Z.eq_dec r 0) as [->|Hr0].
        -- rewrite Z.add_0_r. apply Hq0.
        -- replace (Z.to_nat r) with (S (Z.to_nat (r - 1))) by lia. cbn [nth].
           destruct (G (e_row e) (r - 1) H ltac:(lia)) as [_ G2].
           rewrite get_set_eq in G2 by lia. rewrite <- G2. f_equal. lia.
      * destruct (G i r H ltac:(lia)) as [_ G2].
        rewrite get_set_neq in G2 by auto. exact G2.
    + destruct (U q) as [U1 _].
      * intros i Hi. specialize (H i Hi). rewrite count_row_cons in H.
        destruct (Z.eqb_spec (e_row e) i) as [E|E].
        -- subst i. rewrite get_set_eq by lia. fold q0 in H. lia.
        -- rewrite get_set_neq by auto. lia.
      * rewrite U1. apply get_set_neq.
        specialize (H (e_row e) He). rewrite count_row_cons, Z.eqb_refl in H. fold q0 in H. lia.
    + destruct (U q) as [_ U2].
      * intros i Hi. specialize (H i Hi). rewrite count_row_cons in H.
        destruct (Z.eqb_spec (e_row e) i) as [E|E].
        -- subst i. rewrite get_set_eq by lia. fold q0 in H. lia.
        -- rewrite get_set_neq by auto. lia.
      * rewrite U2. apply get_set_neq.
        specialize (H (e_row e) He). rewrite count_row_cons, Z.eqb_refl in H. fold q0 in H. lia.
Qed.

End Scatter.

Lemma map_flat_map' {A B C} (f : B -> C) (g : A -> list B) l :
  map f (flat_map g l) = flat_map (fun x => map f (g x)) l.
Proof.
  induction l as [|a l IH]; simpl; auto. rewrite map_app, IH. reflexivity.
Qed.

Lemma flat_map_ext_in {A B} (f g : A -> list B) l :
  (forall x, In x l -> f x = g x) -> flat_map f l = flat_map g l.
Proof.
  induction l as [|a l IH]; intros H; simpl; auto.
  rewrite H by (left; reflexivity). f_equal. apply IH. intros; apply H; right; assumption.
Qed.

Lemma filter_split {A} (p q r : A -> bool) l :
  (forall x, r x = p x || q x) -> (forall x, p x && q x = false) ->
  Permutation (filter p l ++ filter q l) (filter r l).
Proof.
  intros Hr Hd. induction l as [|x l IH]; simpl; auto.
  rewrite Hr. specialize (Hd x).
  destruct (p x), (q x); simpl in *; try discriminate; auto.
  eapply perm_trans; [symmetry; apply Permutation_middle | auto].
Qed.

Lemma filter_none {A} (p : A -> bool) l :
  (forall x, In x l -> p x = false) -> filter p l = [].
Proof.
  induction l as [|x l IH]; intros H; simpl; auto.
  rewrite H by (left; reflexivity). apply IH. intros; apply H; right; assumption.
Qed.

Lemma filter_all {A} (p : A -> bool) l :
  (forall x, In x l -> p x = true) -> filter p l = l.
Proof.
  induction l as [|x l IH]; intros H; simpl; auto.
  rewrite H by (left; reflexivity). f_equal. apply IH. intros; apply H; right; assumption.
Qed.

(** A list of nonzeros is its rows, one after the other. *)
Lemma rows_permutation {F} {PF : PFloat F} (es : list (@entry F)) m :
  0 <= m ->
  (forall e, In e es -> 0 <= e_row e < m) ->
  Permutation (flat_map (fun i => in_row i es) (zrange 0 m)) es.
Proof.
  intros Hm Hr.
  assert (G : forall k, 0 <= k ->
    Permutation (flat_map (fun i => in_row i es) (zrange 0 k))
                (filter (fun e => (0 <=? e_row e) && (e_row e <? k)) es)).
  { intros k Hk. pattern k. apply range_ind; [| |lia].
    - rewrite zrange_nil by lia. simpl.
      rewrite filter_none; auto. intros e _.
      destruct (Z.leb_spec 0 (e_row e)), (Z.ltb_spec (e_row e) 0); simpl; auto; lia.
    - intros i Hi IH. cbv beta in IH |- *.
      rewrite zrange_snoc, flat_map_app by lia. simpl. rewrite app_nil_r.
      eapply perm_trans; [apply Permutation_app_tail, IH|].
      apply filter_split; intros e.
      + destruct (Z.leb_spec 0 (e_row e)), (Z.ltb_spec (e_row e) i),
          (Z.ltb_spec (e_row e) (i + 1)), (Z.eqb_spec (e_row e) i); simpl; auto; lia.
      + destruct (Z.leb_spec 0 (e_row e)), (Z.ltb_spec (e_row e) i),
          (Z.eqb_spec (e_row e) i); simpl; auto; lia. }
  eapply perm_trans; [apply G, Hm|].
  rewrite filter_all; auto. intros e He. specialize (Hr e He).
  destruct (Z.leb_spec 0 (e_row e)), (Z.ltb_spec (e_row e) m); simpl; auto; lia.
Qed.

Section Entries.
Context {F : Type} {PF : PFloat F}.

Lemma entries_rows ncols (Ap Ai : list idxint) (Ax : list F) :
  0 <= ncols ->
  (forall j, 0 <= j < ncols -> Ap.<[j]> <= Ap.<[j + 1]>) ->
  map e_row (entries ncols Ap Ai Ax) = map (fun k => Ai.<[k]>) (zrange Ap.<[0]> Ap.<[ncols]>).
Proof.
  intros Hn Hm. unfold entries.
  rewrite map_flat_map'.
  rewrite (flat_map_ext_in _ (fun j => map (fun k => Ai.<[k]>) (zrange Ap.<[j]> Ap.<[j + 1]>)))
    by (intros; unfold col_entries; rewrite map_map; reflexivity).
  rewrite <- map_flat_map'.
  destruct (flat_map_zrange Ap 0 ncols Hn Hm) as [-> _]. reflexivity.
Qed.

Lemma In_entries ncols (Ap Ai : list idxint) (Ax : list F) e :
  In e (entries ncols Ap Ai Ax) <->
  exists j k, 0 <= j < ncols /\ Ap.<[j]> <= k < Ap.<[j + 1]> /\ e = (Ai.<[k]>, j, Ax.[k]).
Proof.
  unfold entries, col_entries. rewrite in_flat_map. split.
  - intros (j & Hj & He). apply In_zrange in Hj. apply in_map_iff in He.
    destruct He as (k & <- & Hk). apply In_zrange in Hk. exists j, k. auto.
  - intros (j & k & Hj & Hk & ->). exists j. split; [apply In_zrange; lia|].
    apply in_map_iff. exists k. split; auto. apply In_zrange; lia.
Qed.

Lemma length_entries ncols (Ap Ai : list idxint) (Ax : list F) :
  0 <= ncols ->
  (forall j, 0 <= j < ncols -> Ap.<[j]> <= Ap.<[j + 1]>) ->
  Z.of_nat (length (entries ncols Ap Ai Ax)) = Ap.<[ncols]> - Ap.<[0]>.
Proof.
  intros Hn Hm.
  rewrite <- (length_map e_row), entries_rows, length_map, length_zrange by auto.
  destruct (flat_map_zrange Ap 0 ncols Hn Hm) as [_ L]. lia.
Qed.

Lemma valid_csc_entries m n (A : AMatrix.t F) e :
  valid_csc m n A -> In e (entries_of n A) -> 0 <= e_row e < m /\ 0 <= e_col e < n.
Proof.
  intros V He. apply In_entries in He. destruct He as (j & k & Hj & Hk & ->).
  unfold e_row, e_col; simpl. split; [|lia].
  apply (csc_rows V).
  destruct (flat_map_zrange (AMatrix.p A) 0 j ltac:(lia)) as [_ L1].
  { intros; apply (csc_mono V); lia. }
  destruct (flat_map_zrange (AMatrix.p A) (j + 1) n ltac:(lia)) as [_ L2].
  { intros; apply (csc_mono V); lia. }
  rewrite (csc_p0 V) in L1. lia.
Qed.

End Entries.

Section TransposeArrays.
Context {F : Type} {PF : PFloat F}.

(** The first loop of [transpose] visits the nonzeros in storage order. *)
Lemma count_loop_entries n (Ap Ai : list idxint) (Ax : list F) z :
  0 <= n ->
  (forall j, 0 <= j < n -> Ap.<[j]> <= Ap.<[j + 1]>) ->
  Ap.<[0]> = 0 ->
  for_loop 0 Ap.<[n]> (fun i z => set z Ai.<[i]> (z.<[Ai.<[i]>]> + 1)) z =
  fold_left (fun z e => set z (e_row e) (z.<[e_row e]> + 1)) (entries n Ap Ai Ax) z.
Proof.
  intros Hn Hm H0. rewrite for_loop_fold.
  rewrite <- (fold_left_map (fun z r => set z r (z.<[r]> + 1)) e_row).
  rewrite entries_rows, H0 by auto.
  rewrite fold_left_map. reflexivity.
Qed.

(** The scatter loops of [transpose] visit the nonzeros in storage order. *)
Lemma scatter_loop_entries n (Ap Ai : list idxint) (Ax : list F) st :
  for_loop 0 n (fun j st =>
      let c1 := Ap.<[j]> in
      let c2 := Ap.<[j + 1]> in
      for_loop c1 c2 (fun i '(Ci, Cx, z) =>
        let q := z.<[Ai.<[i]>]> in
        let z := set z Ai.<[i]> (q + 1) in
        let Ci := set Ci q j in
        let Cx := set Cx q Ax.[i] in
        (Ci, Cx, z)) st) st =
  fold_left scatter_step (entries n Ap Ai Ax) st.
Proof.
  unfold entries, col_entries. rewrite for_loop_fold, fold_left_flat_map.
  apply fold_left_ext_in. intros s j _. cbv zeta.
  rewrite for_loop_fold, fold_left_map.
  apply fold_left_ext_in. intros [[Ci Cx] z] k _. reflexivity.
Qed.

Lemma nth_in_row_row i (es : list (@entry F)) r d :
  (r < length (in_row i es))%nat -> e_row (nth r (in_row i es) d) = i.
Proof.
  intros Hr. pose proof (nth_In (in_row i es) d Hr) as H.
  unfold in_row in H. apply filter_In in H. destruct H as [_ H].
  apply Z.eqb_eq in H. exact H.
Qed.

Lemma map_zrange_nth {A} (f : Z -> A) (l : list A) lo d :
  (forall r, 0 <= r < Z.of_nat (length l) -> f (lo + r) = nth (Z.to_nat r) l d) ->
  map f (zrange lo (lo + Z.of_nat (length l))) = l.
Proof.
  intros H. apply (nth_ext _ _ (f lo) d).
  - rewrite length_map, length_zrange. lia.
  - intros k Hk. rewrite length_map, length_zrange in Hk.
    rewrite (map_nth f), nth_zrange by lia.
    rewrite H by lia. f_equal. lia.
Qed.

(** What [transpose] leaves in the arrays: the column pointers are the
    prefix sums of the row counts of [A], and column [i] holds the nonzeros
    of row [i] of [A], in their storage order. *)
Lemma transpose_arrays_columns m n (A : AMatrix.t F) Ci Cp Cx :
  valid_csc m n A ->
  Z.of_nat (length Ci) = (AMatrix.p A).<[n]> ->
  Z.of_nat (length Cx) = (AMatrix.p A).<[n]> ->
  Z.of_nat (length Cp) = m + 1 ->
  let es := entries_of n A in
  let '(Ci', Cp', Cx') :=
    transpose_arrays m n (AMatrix.p A) (AMatrix.i A) (AMatrix.x A) Ci Cp Cx
      (repeat 0 (Z.to_nat m)) in
  length Ci' = length Ci /\ length Cx' = length Cx /\ length Cp' = length Cp /\
  (forall i, 0 <= i <= m -> Cp'.<[i]> = psum (fun k => count_row k es) i) /\
  (forall i r, 0 <= i < m -> 0 <= r < count_row i es ->
     Ci'.<[Cp'.<[i]> + r]> = e_col (nth (Z.to_nat r) (in_row i es) dflt_entry) /\
     Cx'.[Cp'.<[i]> + r] = e_val (nth (Z.to_nat r) (in_row i es) dflt_entry)).
Proof.
  intros V LCi LCx LCp es. unfold transpose_arrays.
  pose proof (csc_m V) as Hm. pose proof (csc_n V) as Hn.
  assert (Hrows : forall e, In e es -> 0 <= e_row e < m)
    by (intros e He; apply (valid_csc_entries m n A e V He)).
  assert (Hlen : Z.of_nat (length es) = (AMatrix.p A).<[n]>).
  { unfold es, entries_of. rewrite length_entries; [|exact Hn|exact (csc_mono V)].
    rewrite (csc_p0 V). lia. }
  (* the row counts *)
  rewrite (count_loop_entries n (AMatrix.p A) (AMatrix.i A) (AMatrix.x A));
    [|exact Hn|exact (csc_mono V)|exact (csc_p0 V)].
  fold (entries_of n A). fold es.
  destruct (count_loop es (repeat 0 (Z.to_nat m))) as [Lz Gz].
  { rewrite repeat_length. intros e He. specialize (Hrows e He). lia. }
  set (z1 := fold_left _ es (repeat 0 (Z.to_nat m))) in *.
  rewrite repeat_length in Lz.
  assert (Gz' : forall i, 0 <= i < m -> z1.<[i]> = count_row i es).
  { intros i Hi. rewrite Gz, get_repeat by lia. lia. }
  (* the column pointers *)
  pose proof (cs_cumsum_spec Cp z1 m Hm ltac:(lia) ltac:(lia)) as HC.
  destruct (cs_cumsum Cp z1 m) as [Cp' z2].
  destruct HC as (LCp' & Lz2 & GCp & Gz2).
  assert (GCp' : forall i, 0 <= i <= m -> Cp'.<[i]> = psum (fun k => count_row k es) i).
  { intros i Hi. rewrite GCp by lia. apply psum_ext. intros; apply Gz'; lia. }
  assert (Gz2' : forall i, 0 <= i < m -> z2.<[i]> = Cp'.<[i]>).
  { intros i Hi. rewrite GCp, Gz2 by lia. reflexivity. }
  assert (Hnext : forall i, 0 <= i < m -> Cp'.<[i + 1]> = Cp'.<[i]> + count_row i es).
  { intros i Hi. rewrite !GCp' by lia. apply psum_succ; lia. }
  assert (Hmono : forall i j, 0 <= i <= j -> j <= m -> Cp'.<[i]> <= Cp'.<[j]>).
  { intros i j Hi Hj. rewrite !GCp' by lia. apply psum_mono; [|lia].
    intros; apply count_row_nonneg. }
  assert (Htot : Cp'.<[m]> = (AMatrix.p A).<[n]>).
  { rewrite GCp' by lia. rewrite psum_count_row by auto. exact Hlen. }
  (* the scatter *)
  rewrite scatter_loop_entries. fold (entries_of n A). fold es.
  assert (HB : buckets es z2 (Z.of_nat (length Ci))).
  { split; [|split].
    - intros e He. specialize (Hrows e He). lia.
    - intros i Hi. rewrite Gz2' by lia. split.
      + assert (H0 : Cp'.<[0]> = 0) by (rewrite GCp' by lia; apply psum_nil; lia).
        pose proof (Hmono 0 i ltac:(lia) ltac:(lia)). lia.
      + rewrite <- Hnext by lia. rewrite LCi, <- Htot. apply Hmono; lia.
    - intros i i' Hi Hi'. rewrite !Gz2' by lia.
      rewrite <- Hnext by lia. apply Hmono; lia. }
  pose proof (scatter_spec es Ci Cx z2 ltac:(lia) HB) as HS.
  destruct (fold_left scatter_step es (Ci, Cx, z2)) as [[Ci' Cx'] z3].
  destruct HS as (L1 & L2 & G & _).
  split; [auto|]. split; [auto|]. split; [auto|]. split; [auto|].
  intros i r Hi Hr. rewrite <- Gz2' by lia. apply G; lia.
Qed.

End TransposeArrays.

Section TransposeCorrect.
Context {F : Type} {PF : PFloat F}.

Lemma valid_cscb_sound m n (A : AMatrix.t F) :
  valid_cscb m n A = true -> valid_csc m n A.
Proof.
  unfold valid_cscb. rewrite !andb_true_iff, !forallb_forall.
  intros [[[[[[[H1 H2] H3] H4] H5] H6] H7] H8].
  constructor; try lia.
  - intros j Hj. apply Z.leb_le, H5, In_zrange. lia.
  - intros k Hk. specialize (H8 k (proj2 (In_zrange _ _ _) Hk)).
    apply andb_true_iff in H8. lia.
Qed.

(** The nonzeros of the arrays that [transpose] builds, column by column. *)
Lemma transpose_arrays_entries m n (A : AMatrix.t F) Ci Cp Cx :
  valid_csc m n A ->
  Z.of_nat (length Ci) = (AMatrix.p A).<[n]> ->
  Z.of_nat (length Cx) = (AMatrix.p A).<[n]> ->
  Z.of_nat (length Cp) = m + 1 ->
  let es := entries_of n A in
  let '(Ci', Cp', Cx') :=
    transpose_arrays m n (AMatrix.p A) (AMatrix.i A) (AMatrix.x A) Ci Cp Cx
      (repeat 0 (Z.to_nat m)) in
  forall i, 0 <= i < m -> col_entries Cp' Ci' Cx' i = map swap_entry (in_row i es).
Proof.
  intros V LCi LCx LCp es.
  pose proof (transpose_arrays_columns m n A Ci Cp Cx V LCi LCx LCp) as H.
  cbv zeta in H. fold es in H.
  destruct (transpose_arrays _ _ _ _ _ _ _ _ _) as [[Ci' Cp'] Cx'].
  destruct H as (L1 & L2 & L3 & GCp & G).
  intros i Hi. unfold col_entries.
  assert (Hnext : Cp'.<[i + 1]> = Cp'.<[i]> + Z.of_nat (length (map swap_entry (in_row i es)))).
  { rewrite length_map. rewrite !GCp by lia. apply psum_succ; lia. }
  rewrite Hnext.
  apply map_zrange_nth with (d := swap_entry dflt_entry).
  intros r Hr. rewrite length_map in Hr.
  rewrite (map_nth swap_entry).
  destruct (G i r ltac:(lia) ltac:(unfold count_row; lia)) as [G1 G2].
  rewrite G1, G2. unfold swap_entry at 1. f_equal. f_equal.
  symmetry. apply nth_in_row_row. lia.
Qed.

End TransposeCorrect.

Section TransposeRun.
Context {F : Type} {PF : PFloat F}.

Lemma transpose_arrays_correct m n (A : AMatrix.t F) Ci Cp Cx :
  valid_csc m n A ->
  Z.of_nat (length Ci) = (AMatrix.p A).<[n]> ->
  Z.of_nat (length Cx) = (AMatrix.p A).<[n]> ->
  Z.of_nat (length Cp) = m + 1 ->
  let es := entries_of n A in
  let '(Ci', Cp', Cx') :=
    transpose_arrays m n (AMatrix.p A) (AMatrix.i A) (AMatrix.x A) Ci Cp Cx
      (repeat 0 (Z.to_nat m)) in
  (forall i, 0 <= i < m -> col_entries Cp' Ci' Cx' i = map swap_entry (in_row i es)) /\
  Permutation (entries m Cp' Ci' Cx') (map swap_entry es) /\
  Cp'.<[m]> = (AMatrix.p A).<[n]> /\
  valid_csc n m (AMatrix.mk Cx' Ci' Cp').
Proof.
  intros V LCi LCx LCp es.
  pose proof (transpose_arrays_columns m n A Ci Cp Cx V LCi LCx LCp) as H.
  pose proof (transpose_arrays_entries m n A Ci Cp Cx V LCi LCx LCp) as HE.
  cbv zeta in H, HE. fold es in H, HE.
  destruct (transpose_arrays _ _ _ _ _ _ _ _ _) as [[Ci' Cp'] Cx'].
  destruct H as (L1 & L2 & L3 & GCp & G).
  pose proof (csc_m V) as Hm. pose proof (csc_n V) as Hn.
  assert (Hrows : forall e, In e es -> 0 <= e_row e < m /\ 0 <= e_col e < n)
    by (intros e He; apply (valid_csc_entries m n A e V He)).
  assert (HP : Permutation (entries m Cp' Ci' Cx') (map swap_entry es)).
  { unfold entries.
    rewrite (flat_map_ext_in _ (fun i => map swap_entry (in_row i es)))
      by (intros i Hi; apply HE, In_zrange, Hi).
    rewrite <- map_flat_map'. apply Permutation_map.
    apply rows_permutation; auto. intros e He; apply Hrows, He. }
  assert (Hmono : forall j, 0 <= j < m -> Cp'.<[j]> <= Cp'.<[j + 1]>).
  { intros j Hj. rewrite !GCp by lia. apply psum_mono; [|lia].
    intros; apply count_row_nonneg. }
  assert (H0 : Cp'.<[0]> = 0) by (rewrite GCp by lia; apply psum_nil; lia).
  assert (Htot : Cp'.<[m]> = (AMatrix.p A).<[n]>).
  { rewrite GCp by lia. rewrite psum_count_row; auto.
    - unfold es, entries_of. rewrite length_entries; [|exact Hn|exact (csc_mono V)].
      rewrite (csc_p0 V). lia.
    - intros e He; apply Hrows, He. }
  split; [exact HE|]. split; [exact HP|]. split; [exact Htot|].
  constructor; cbn [AMatrix.p AMatrix.i AMatrix.x]; try lia; auto.
  intros q Hq.
  assert (Hin : In Ci'.<[q]> (map e_row (entries m Cp' Ci' Cx'))).
  { rewrite entries_rows, H0 by auto. apply in_map_iff. exists q. split; auto.
    apply In_zrange. lia. }
  apply in_map_iff in Hin. destruct Hin as (e & Ee & He).
  apply (Permutation_in _ HP) in He. apply in_map_iff in He.
  destruct He as (e' & <- & He'). rewrite <- Ee.
  destruct (Hrows e' He') as [_ Hc]. exact Hc.
Qed.

Lemma alloc_grants {T} (fill : T) len (w : World F) :
  grants w ->
  exists o', alloc fill len w =
    Ok (Ptr (next w) (repeat fill (Z.to_nat len)))
       (mk_world o' (S (next w)) (next w :: live w) (indet w) (totCgIts w)
          (totalSolveTime w)).
Proof.
  unfold grants, alloc. intros Hg.
  destruct (oracle w) as [|[|] o]; try contradiction; eexists; reflexivity.
Qed.

(** C5: given a valid column-compressed A (m rows, n columns, row indices in
    range) and an allocated cache, [transpose] returns, and the cache then
    stores each nonzero A[i,j] exactly once, at column i and row j with the
    same value: its nonzeros are a permutation of the nonzeros of A with row
    and column exchanged.  The nonzero counts agree, and the cache is a
    valid column-compressed matrix of n rows and m columns. *)
Theorem transpose_correct (d : Data.t F) (p : Priv.t F) (w : World F) :
  valid_csc (Data.m d) (Data.n d) (Data.A d) ->
  cache_allocated d p ->
  grants w ->
  exists p' w',
    transpose d p w = Ok p' w' /\
    Permutation (entries_of (Data.m d) (At_of p'))
                (map swap_entry (entries_of (Data.n d) (Data.A d))) /\
    length (entries_of (Data.m d) (At_of p')) =
      length (entries_of (Data.n d) (Data.A d)) /\
    (AMatrix.p (At_of p')).<[Data.m d]> = (AMatrix.p (Data.A d)).<[Data.n d]> /\
    valid_csc (Data.n d) (Data.m d) (At_of p').
Proof.
  intros V (HAti & HAtp & HAtx) Hg.
  destruct HAti as (a1 & Ci & EAti & LCi).
  destruct HAtp as (a2 & Cp & EAtp & LCp).
  destruct HAtx as (a3 & Cx & EAtx & LCx).
  pose proof (transpose_arrays_correct _ _ _ Ci Cp Cx V LCi LCx LCp) as H.
  cbv zeta in H.
  destruct (alloc_grants 0 (Data.m d) w Hg) as (o' & Ez).
  unfold transpose, bind, scs_calloc, guard. rewrite Ez.
  rewrite EAti, EAtp, EAtx. cbn [is_null deref andb].
  rewrite !andb_false_r. cbn [ret store].
  destruct (transpose_arrays _ _ _ _ _ _ _ _ _) as [[Ci' Cp'] Cx'].
  destruct H as (HE & HP & Htot & HV).
  eexists; eexists. split; [reflexivity|].
  unfold At_of, entries_of in *. cbn [Priv.Ati Priv.Atp Priv.Atx deref AMatrix.p AMatrix.i AMatrix.x] in *.
  split; [exact HP|]. split; [|split; [exact Htot | exact HV]].
  rewrite (Permutation_length HP). apply length_map.
Qed.

End TransposeRun.


(** ** The implicit operator *)

Lemma list_eq_map_zrange {A} (f : Z -> A) (l : list A) d :
  (forall j, 0 <= j < Z.of_nat (length l) -> get d l j = f j) ->
  l = map f (zrange 0 (Z.of_nat (length l))).
Proof.
  intros H. symmetry.
  replace (Z.of_nat (length l)) with (0 + Z.of_nat (length l)) by lia.
  apply map_zrange_nth with (d := d).
  intros r Hr. rewrite <- H by lia. unfold get.
  destruct (Z.ltb_spec (0 + r) 0); [lia|]. reflexivity.
Qed.

Lemma get_map_zrange {A} (f : Z -> A) n j d :
  0 <= j < n -> get d (map f (zrange 0 n)) j = f j.
Proof.
  intros H. unfold get. destruct (Z.ltb_spec j 0); [lia|].
  rewrite (nth_indep _ d (f 0)) by (rewrite length_map, length_zrange; lia).
  rewrite (map_nth f), nth_zrange by lia. f_equal. lia.
Qed.

Lemma length_memset0 {T} (zero : T) dst n :
  0 <= n <= Z.of_nat (length dst) -> length (memset0 zero dst n) = length dst.
Proof.
  intros H. unfold memset0. rewrite length_app, repeat_length, length_skipn. lia.
Qed.

Lemma get_memset0 {T} (zero d : T) dst n j :
  0 <= j < n -> get d (memset0 zero dst n) j = zero.
Proof.
  intros H. unfold memset0, get. destruct (Z.ltb_spec j 0); [lia|].
  rewrite app_nth1 by (rewrite repeat_length; lia).
  apply nth_repeat_lt. lia.
Qed.

Section Operator.
Context {F : Type} {PF : PFloat F}.
Local Open Scope pf_scope.

(** [_accumByAtrans]: y[j] gains the products of column [j], in storage order. *)
Lemma _accumByAtrans_spec n (Ax : list F) (Ai Ap : list idxint) (x y : list F) :
  0 <= n <= Z.of_nat (length y) ->
  let y' := _accumByAtrans n Ax Ai Ap x y in
  length y' = length y /\
  (forall j, 0 <= j < n ->
     y'.[j] = fold_left (fun acc e => acc +: e_val e *: x.[e_row e])
                (col_entries Ap Ai Ax j) y.[j]) /\
  (forall j, n <= j -> y'.[j] = y.[j]).
Proof.
  intros Hn. cbv zeta. unfold _accumByAtrans.
  set (body := fun (j : Z) (y : list F) => _).
  pose (P := fun (i : Z) (y' : list F) =>
    length y' = length y /\
    (forall j, 0 <= j < i ->
       y'.[j] = fold_left (fun acc e => acc +: e_val e *: x.[e_row e])
                  (col_entries Ap Ai Ax j) y.[j]) /\
    (forall j, i <= j -> y'.[j] = y.[j])).
  assert (H : P n (for_loop 0 n body y)).
  { apply for_loop_inv; [lia| |].
    - unfold P. split; [auto|]. split; [intros; lia | auto].
    - intros i s Hi (L & G1 & G2). unfold P, body.
      rewrite length_set. split; [auto|]. split.
      + intros j Hj. destruct (Z.eq_dec j i) as [->|Hne].
        * rewrite get_set_eq by lia. rewrite for_loop_fold.
          unfold col_entries. rewrite fold_left_map. rewrite G2 by lia. reflexivity.
        * rewrite get_set_neq by auto. apply G1. lia.
      + intros j Hj. rewrite get_set_neq by lia. apply G2. lia. }
  exact H.
Qed.

Lemma addScaledArray_spec (a b : list F) n sc :
  0 <= n <= Z.of_nat (length a) ->
  let a' := addScaledArray a b n sc in
  length a' = length a /\
  (forall j, 0 <= j < n -> a'.[j] = a.[j] +: sc *: b.[j]) /\
  (forall j, n <= j -> a'.[j] = a.[j]).
Proof.
  intros Hn. cbv zeta. unfold addScaledArray.
  pose (P := fun (i : Z) (a' : list F) =>
    length a' = length a /\
    (forall j, 0 <= j < i -> a'.[j] = a.[j] +: sc *: b.[j]) /\
    (forall j, i <= j -> a'.[j] = a.[j])).
  apply (for_loop_inv P); [lia| |].
  - unfold P. split; [auto|]. split; [intros; lia | auto].
  - intros i s Hi (L & G1 & G2). unfold P.
    rewrite length_set. split; [auto|]. split.
    + intros j Hj. destruct (Z.eq_dec j i) as [->|Hne].
      * rewrite get_set_eq by lia. rewrite G2 by lia. reflexivity.
      * rewrite get_set_neq by auto. apply G1. lia.
    + intros j Hj. rewrite get_set_neq by lia. apply G2. lia.
Qed.

(** Column [j] of a matrix is the part of its nonzeros with column [j]. *)
Lemma in_col_entries ncols (Ap Ai : list idxint) (Ax : list F) j :
  0 <= j < ncols ->
  in_col j (entries ncols Ap Ai Ax) = col_entries Ap Ai Ax j.
Proof.
  intros Hj. unfold in_col, entries.
  rewrite (zrange_app 0 j ncols), (zrange_cons j ncols) by lia.
  rewrite flat_map_app. cbn [flat_map]. rewrite !filter_app.
  assert (Hout : forall lo hi, (forall k, lo <= k < hi -> k <> j) ->
     filter (fun e : entry => e_col e =? j) (flat_map (col_entries Ap Ai Ax) (zrange lo hi)) = []).
  { intros lo hi Hk. apply filter_none. intros e He.
    apply in_flat_map in He. destruct He as (k & Hkin & He).
    apply In_zrange in Hkin. unfold col_entries in He. apply in_map_iff in He.
    destruct He as (q & <- & _). unfold e_col; simpl. apply Z.eqb_neq. apply Hk, Hkin. }
  rewrite !Hout by (intros; lia). rewrite app_nil_r. cbn [app].
  apply filter_all. intros e He. unfold col_entries in He. apply in_map_iff in He.
  destruct He as (q & <- & _). unfold e_col; simpl. apply Z.eqb_refl.
Qed.

Lemma fold_left_swap_entries (es : list (@entry F)) (x : list F) acc :
  fold_left (fun acc e => acc +: e_val e *: x.[e_row e]) (map swap_entry es) acc =
  fold_left (fun acc e => acc +: e_val e *: x.[e_col e]) es acc.
Proof.
  rewrite fold_left_map. reflexivity.
Qed.

(** [matVec] computes the operator of the specification. *)
Lemma matVec_operator (d : Data.t F) (p : Priv.t F) (tmp x y : list F) :
  valid_csc (Data.m d) (Data.n d) (Data.A d) ->
  is_transpose_cache d p ->
  Z.of_nat (length tmp) = Data.m d ->
  Z.of_nat (length y) = Data.n d ->
  matVec d p tmp x y = (A_times d x, operator d x).
Proof.
  intros V [VC HC] Ltmp Ly.
  pose proof (csc_m V) as Hm. pose proof (csc_n V) as Hn.
  unfold matVec.
  (* tmp = A x *)
  pose proof (_accumByAtrans_spec (Data.m d) (deref (Priv.Atx p)) (deref (Priv.Ati p))
                (deref (Priv.Atp p)) x (memset0 f0 tmp (Data.m d))) as H1.
  rewrite length_memset0 in H1 by lia. specialize (H1 ltac:(lia)). cbv zeta in H1.
  fold (accumByA d p x (memset0 f0 tmp (Data.m d))) in H1.
  set (tmp1 := accumByA d p x (memset0 f0 tmp (Data.m d))) in *.
  destruct H1 as (L1 & G1 & _).
  assert (E1 : tmp1 = A_times d x).
  { unfold A_times. rewrite <- Ltmp, <- L1. apply list_eq_map_zrange with (d := f0).
    intros j Hj. rewrite G1 by lia. rewrite get_memset0 by lia.
    unfold At_of in HC. cbn [AMatrix.p AMatrix.i AMatrix.x] in HC.
    rewrite HC by lia. apply fold_left_swap_entries. }
  (* y = A' tmp + rho x *)
  pose proof (_accumByAtrans_spec (Data.n d) (AMatrix.x (Data.A d)) (AMatrix.i (Data.A d))
                (AMatrix.p (Data.A d)) tmp1 (memset0 f0 y (Data.n d))) as H2.
  rewrite length_memset0 in H2 by lia. specialize (H2 ltac:(lia)). cbv zeta in H2.
  fold (accumByAtrans d p tmp1 (memset0 f0 y (Data.n d))) in H2.
  set (y1 := accumByAtrans d p tmp1 (memset0 f0 y (Data.n d))) in *.
  destruct H2 as (L2 & G2 & _).
  pose proof (addScaledArray_spec y1 x (Data.n d) (Data.RHO_X d) ltac:(lia)) as H3.
  cbv zeta in H3. destruct H3 as (L3 & G3 & _).
  f_equal; [exact E1|].
  unfold operator. rewrite <- Ly at 2. rewrite <- L2, <- L3.
  apply list_eq_map_zrange with (d := f0).
  intros j Hj. rewrite G3 by lia. f_equal.
  rewrite G2 by lia. rewrite get_memset0 by lia.
  unfold At_times. rewrite get_map_zrange by lia.
  unfold col_dot, entries_of. rewrite in_col_entries by lia. rewrite E1. reflexivity.
Qed.

End Operator.

(** ** Zero in binary64 *)

Lemma is_finite_cases (a : float) :
  PrimFloat.is_finite a = true ->
  exists s, Prim2SF a = S754_zero s \/ exists m e, Prim2SF a = S754_finite s m e.
Proof.
  unfold PrimFloat.is_finite, is_nan, is_infinity.
  rewrite !FloatAxioms.eqb_spec, abs_spec.
  destruct (Prim2SF a) as [s| s | |s m e] eqn:E.
  - intros _. exists s. left. reflexivity.
  - destruct s; vm_compute; discriminate.
  - vm_compute; discriminate.
  - intros _. exists s. right. exists m, e. reflexivity.
Qed.

(** 0 + a * 0 is +0 for every finite double [a]. *)
Lemma binary64_absorb (a : float) :
  PrimFloat.is_finite a = true -> (0 + a * 0)%float = 0%float.
Proof.
  intros H. apply Prim2SF_inj. rewrite add_spec, mul_spec.
  destruct (is_finite_cases a H) as (s & [E | (m & e & E)]); rewrite E;
    destruct s; reflexivity.
Qed.

Section ZeroVector.
Context {F : Type} {PF : PFloat F}.
Local Open Scope pf_scope.

Lemma get_repeat_f0 k i : (repeat f0 k).[i] = f0.
Proof.
  unfold get. destruct (i <? 0); auto.
  destruct (Nat.lt_ge_cases (Z.to_nat i) k).
  - apply nth_repeat_lt. assumption.
  - apply nth_overflow. rewrite repeat_length. assumption.
Qed.

Lemma map_const_zrange (c : F) n :
  map (fun _ => c) (zrange 0 n) = repeat c (Z.to_nat n).
Proof.
  unfold zrange. rewrite map_map, Z.sub_0_r.
  generalize 0%nat. induction (Z.to_nat n) as [|k IH]; intros s; simpl; auto.
  f_equal. apply IH.
Qed.

Lemma fold_zero (es : list (@entry F)) (g : entry -> F) :
  (forall e, In e es -> absorbed (e_val e)) ->
  (forall e, g e = f0) ->
  fold_left (fun acc e => acc +: e_val e *: g e) es f0 = f0.
Proof.
  intros Ha Hg. induction es as [|e es IH]; simpl; auto.
  rewrite Hg. rewrite (Ha e (or_introl eq_refl)). apply IH.
  intros; apply Ha; right; assumption.
Qed.

Lemma In_entries_val ncols (Ap Ai : list idxint) (Ax : list F) e :
  0 <= ncols ->
  (forall j, 0 <= j < ncols -> Ap.<[j]> <= Ap.<[j + 1]>) ->
  Ap.<[0]> = 0 -> Z.of_nat (length Ax) = Ap.<[ncols]> ->
  In e (entries ncols Ap Ai Ax) -> In (e_val e) Ax.
Proof.
  intros Hn Hm H0 HL He. apply In_entries in He. destruct He as (j & k & Hj & Hk & ->).
  unfold e_val; simpl.
  destruct (flat_map_zrange Ap 0 j ltac:(lia)) as [_ L1]. { intros; apply Hm; lia. }
  destruct (flat_map_zrange Ap (j + 1) ncols ltac:(lia)) as [_ L2]. { intros; apply Hm; lia. }
  unfold get. destruct (Z.ltb_spec k 0); [lia|]. apply nth_In. lia.
Qed.

(** The operator maps the zero vector to the zero vector. *)
Lemma operator_zero (d : Data.t F) :
  valid_csc (Data.m d) (Data.n d) (Data.A d) ->
  Forall absorbed (Data.RHO_X d :: AMatrix.x (Data.A d)) ->
  A_times d (repeat f0 (Z.to_nat (Data.n d))) = repeat f0 (Z.to_nat (Data.m d)) /\
  operator d (repeat f0 (Z.to_nat (Data.n d))) = repeat f0 (Z.to_nat (Data.n d)).
Proof.
  intros V Ha. rewrite Forall_forall in Ha.
  assert (Hval : forall e, In e (entries_of (Data.n d) (Data.A d)) -> absorbed (e_val e)).
  { intros e He. apply Ha. right.
    apply (In_entries_val (Data.n d) (AMatrix.p (Data.A d)) (AMatrix.i (Data.A d))); auto.
    - exact (csc_n V). - exact (csc_mono V). - exact (csc_p0 V). - exact (csc_len_x V). }
  assert (E1 : A_times d (repeat f0 (Z.to_nat (Data.n d))) = repeat f0 (Z.to_nat (Data.m d))).
  { unfold A_times.
    transitivity (map (fun _ : Z => @f0 F PF) (zrange 0 (Data.m d))); [|apply map_const_zrange].
    apply map_ext. intros i.
    unfold row_dot. apply fold_zero.
    - intros e He. apply Hval. unfold in_row in He. apply filter_In in He. apply He.
    - intros e. apply get_repeat_f0. }
  split; [exact E1|].
  unfold operator. rewrite E1.
  transitivity (map (fun _ : Z => @f0 F PF) (zrange 0 (Data.n d))); [|apply map_const_zrange].
  apply map_ext_in.
  intros j Hj. apply In_zrange in Hj.
  unfold At_times. rewrite get_map_zrange by lia.
  unfold col_dot. rewrite fold_zero.
  - rewrite get_repeat_f0. apply (Ha (Data.RHO_X d)). left; reflexivity.
  - intros e He. apply Hval. unfold in_col in He. apply filter_In in He. apply He.
  - intros e. apply get_repeat_f0.
Qed.

End ZeroVector.

(** What [transpose] returns when its allocation is granted. *)
Lemma transpose_run {F} {PF : PFloat F} (d : Data.t F) (p : Priv.t F) (w : World F) :
  cache_allocated d p ->
  grants w ->
  exists o',
    transpose d p w =
    let '(Ci, Cp, Cx) :=
      transpose_arrays (Data.m d) (Data.n d) (AMatrix.p (Data.A d)) (AMatrix.i (Data.A d))
        (AMatrix.x (Data.A d)) (deref (Priv.Ati p)) (deref (Priv.Atp p))
        (deref (Priv.Atx p)) (repeat 0 (Z.to_nat (Data.m d))) in
    Ok (Priv.mk (Priv.p p) (Priv.r p) (Priv.Ap p) (Priv.tmp p) (Priv.z p) (Priv.M p)
          (store (Priv.Ati p) Ci) (store (Priv.Atp p) Cp) (store (Priv.Atx p) Cx))
       (mk_world o' (S (next w)) (List.remove Nat.eq_dec (next w) (next w :: live w))
          (indet w) (totCgIts w) (totalSolveTime w)).
Proof.
  intros (HAti & HAtp & HAtx) Hg.
  destruct HAti as (a1 & Ci & EAti & LCi).
  destruct HAtp as (a2 & Cp & EAtp & LCp).
  destruct HAtx as (a3 & Cx & EAtx & LCx).
  destruct (alloc_grants 0 (Data.m d) w Hg) as (o' & Ez).
  exists o'. unfold transpose, bind, scs_calloc, guard. rewrite Ez.
  rewrite EAti, EAtp, EAtx. cbn [is_null deref andb].
  rewrite !andb_false_r. cbn [ret store].
  destruct (transpose_arrays _ _ _ _ _ _ _ _ _) as [[Ci' Cp'] Cx']. reflexivity.
Qed.

(** C4 (as amended): on a workspace whose cache holds the transpose, [matVec] leaves
    A x in the scratch vector and rho x + A'(A x) in the output, each sum
    running over the stored nonzeros in storage order; when the values of A
    and rho are finite, it maps the zero vector to the zero vector. *)
Theorem matVec_correct (d : Data.t float) (p : Priv.t float) (tmp x y : list float) :
  valid_csc (Data.m d) (Data.n d) (Data.A d) ->
  is_transpose_cache d p ->
  Z.of_nat (length tmp) = Data.m d ->
  Z.of_nat (length x) = Data.n d ->
  Z.of_nat (length y) = Data.n d ->
  matVec d p tmp x y = (A_times d x, operator d x) /\
  (Forall (fun a => PrimFloat.is_finite a = true) (Data.RHO_X d :: AMatrix.x (Data.A d)) ->
   matVec d p tmp (repeat f0 (Z.to_nat (Data.n d))) y =
   (repeat f0 (Z.to_nat (Data.m d)), repeat f0 (Z.to_nat (Data.n d)))).
Proof.
  intros V HC Ltmp Lx Ly. split.
  - apply matVec_operator; assumption.
  - intros Hfin. rewrite matVec_operator by assumption.
    destruct (operator_zero d V) as [E1 E2].
    + eapply Forall_impl; [|exact Hfin]. intros a Ha. apply binary64_absorb, Ha.
    + rewrite E1, E2. reflexivity.
Qed.

Lemma valid_d_blk : valid_csc (Data.m d_blk) (Data.n d_blk) (Data.A d_blk).
Proof. apply valid_cscb_sound. vm_compute. reflexivity. Qed.

Lemma cache_p_blk : is_transpose_cache d_blk p_blk.
Proof.
  split.
  - apply valid_cscb_sound. vm_compute. reflexivity.
  - intros i Hi. change (Data.m d_blk) with 5 in Hi.
    assert (H : i = 0 \/ i = 1 \/ i = 2 \/ i = 3 \/ i = 4) by lia.
    destruct H as [->|[->|[->|[->| ->]]]]; vm_compute; reflexivity.
Qed.

Lemma matVec_correct_witness :
  matVec d_blk p_blk [7; 7; 7; 7; 7]%float [1; 2; 3; 4; 5]%float [9; 9; 9; 9; 9]%float =
    (A_times d_blk [1; 2; 3; 4; 5]%float, operator d_blk [1; 2; 3; 4; 5]%float) /\
  matVec d_blk p_blk [7; 7; 7; 7; 7]%float [0; 0; 0; 0; 0]%float [9; 9; 9; 9; 9]%float =
    ([0; 0; 0; 0; 0]%float, [0; 0; 0; 0; 0]%float).
Proof.
  destruct (matVec_correct d_blk p_blk [7; 7; 7; 7; 7]%float [1; 2; 3; 4; 5]%float
              [9; 9; 9; 9; 9]%float valid_d_blk cache_p_blk eq_refl eq_refl eq_refl)
    as [H1 H2].
  split; [exact H1|]. apply H2.
  repeat constructor.
Defined.

(** C4, as stated, fails in binary64: the matrix [+infinity] is valid, and
    0 * infinity is NaN, so [matVec] maps the zero vector to [nan]. *)
Lemma matVec_zero_vector_nan :
  valid_csc 1 1 A_inf /\
  is_transpose_cache d_inf p_inf /\
  snd (matVec d_inf p_inf [0%float] [0%float] [0%float]) = [nan] /\
  ~ matVec_zero_to_zero.
Proof.
  assert (V : valid_csc (Data.m d_inf) (Data.n d_inf) (Data.A d_inf))
    by (apply valid_cscb_sound; vm_compute; reflexivity).
  assert (C : is_transpose_cache d_inf p_inf).
  { split; [apply valid_cscb_sound; vm_compute; reflexivity|].
    intros i Hi. change (Data.m d_inf) with 1 in Hi. assert (i = 0) as -> by lia.
    vm_compute. reflexivity. }
  split; [exact V|]. split; [exact C|]. split; [vm_compute; reflexivity|].
  intros H.
  pose proof (H d_inf p_inf [0%float] [0%float] V C eq_refl eq_refl) as H1.
  apply (f_equal (fun l => match l with a :: _ => PrimFloat.is_nan a | [] => false end)) in H1.
  vm_compute in H1. discriminate.
Qed.

Lemma transpose_correct_witness :
  exists p' w',
    transpose d_blk (Priv.mk NULL NULL NULL NULL NULL NULL
        (Ptr 1 (repeat 0 10)) (Ptr 2 (repeat 0 6)) (Ptr 3 (repeat 0%float 10))) w_fresh
      = Ok p' w' /\
    Permutation (entries_of 5 (At_of p')) (map swap_entry (entries_of 5 A_blk)) /\
    length (entries_of 5 (At_of p')) = length (entries_of 5 A_blk) /\
    (AMatrix.p (At_of p')).<[5]> = (AMatrix.p A_blk).<[5]> /\
    valid_csc 5 5 (At_of p').
Proof.
  apply (transpose_correct d_blk _ w_fresh valid_d_blk).
  - repeat split; eexists; eexists; split; reflexivity.
  - exact I.
Defined.

(** ** The PCG solver

    The convergence of [pcg] in exact arithmetic (C1, as amended) is proved
    at the end of the file, after the orthogonality of its residuals. *)



(** C7: the warm start [1; 1] solves (I + A'A) x = [2; 2] exactly, the
    residual after the initialisation is zero, and [pcg] uses the whole
    budget and returns NaN. *)
Theorem pcg_exact_warm_start_nan :
  operator d_id [1; 1]%float = [2; 2]%float /\
  calcNorm (cg_r (pcg_init d_id p_id (Some [1; 1]%float) [2; 2]%float)) 2 = 0%float /\
  fst (fst (pcg d_id p_id (Some [1; 1]%float) [2; 2]%float 2 1e-7%float)) = 2 /\
  snd (pcg d_id p_id (Some [1; 1]%float) [2; 2]%float 2 1e-7%float) = [nan; nan]%float.
Proof.
  repeat split; vm_compute; reflexivity.
Qed.

(** ** The preconditioner *)

Lemma zrange_shift lo len :
  zrange lo (lo + len) = map (fun i => lo + i) (zrange 0 len).
Proof.
  unfold zrange. rewrite map_map. replace (lo + len - lo) with (len - 0) by lia.
  apply map_ext. intros k. lia.
Qed.

Lemma get_offset {T} (d : T) (a : list T) k i :
  0 <= k -> 0 <= i -> get d (offset a k) i = get d a (k + i).
Proof.
  intros Hk Hi. unfold get, offset.
  destruct (Z.ltb_spec i 0); [lia|]. destruct (Z.ltb_spec (k + i) 0); [lia|].
  rewrite nth_skipn. f_equal. lia.
Qed.

Section Preconditioner.
Context {F : Type} {PF : PFloat F}.
Local Open Scope pf_scope.

(** The squared norm of the slice of column [j] is the sum of the squares
    of its nonzeros. *)
Lemma calcNormSq_column n (Ap Ai : list idxint) (Ax : list F) j :
  0 <= j < n ->
  0 <= Ap.<[j]> <= Ap.<[j + 1]> ->
  calcNormSq (offset Ax Ap.<[j]>) (Ap.<[j + 1]> - Ap.<[j]>) =
  col_sumsq (entries n Ap Ai Ax) j.
Proof.
  intros Hj Hp. unfold calcNormSq, col_sumsq.
  rewrite in_col_entries by lia. unfold col_entries.
  rewrite for_loop_fold, fold_left_map.
  replace (Ap.<[j + 1]>) with (Ap.<[j]> + (Ap.<[j + 1]> - Ap.<[j]>)) at 2 by lia.
  rewrite zrange_shift, fold_left_map.
  apply fold_left_ext_in. intros acc i Hi. apply In_zrange in Hi.
  unfold e_val; cbn [snd]. rewrite get_offset by lia. reflexivity.
Qed.

Lemma csc_p_nonneg m n (A : AMatrix.t F) j :
  valid_csc m n A -> 0 <= j <= n -> 0 <= (AMatrix.p A).<[j]>.
Proof.
  intros V Hj.
  destruct (flat_map_zrange (AMatrix.p A) 0 j ltac:(lia)) as [_ L].
  { intros; apply (csc_mono V); lia. }
  rewrite (csc_p0 V) in L. exact L.
Qed.

(** The loop of [getPreconditioner]: M[j] = 1 / (rho + the sum of the squares
    of column j). *)
Lemma getPreconditioner_arrays_spec (d : Data.t F) (M : list F) :
  valid_csc (Data.m d) (Data.n d) (Data.A d) ->
  Z.of_nat (length M) = Data.n d ->
  let M' := getPreconditioner_arrays d M in
  length M' = length M /\
  forall j, 0 <= j < Data.n d ->
    M'.[j] = f1 /: (Data.RHO_X d +: col_sumsq (entries_of (Data.n d) (Data.A d)) j).
Proof.
  intros V LM. cbv zeta. unfold getPreconditioner_arrays.
  pose (P := fun (i : Z) (M' : list F) =>
    length M' = length M /\
    forall j, 0 <= j < i ->
      M'.[j] = f1 /: (Data.RHO_X d +: col_sumsq (entries_of (Data.n d) (Data.A d)) j)).
  apply (for_loop_inv P); [exact (csc_n V)| |].
  - split; [auto | intros; lia].
  - intros i s Hi (L & G). unfold P. rewrite length_set. split; [auto|].
    intros j Hj. destruct (Z.eq_dec j i) as [->|Hne].
    + rewrite get_set_eq by lia. unfold entries_of.
      rewrite <- (calcNormSq_column (Data.n d)); auto.
      pose proof (csc_p_nonneg _ _ _ i V ltac:(lia)).
      pose proof (csc_mono V Hi). lia.
    + rewrite get_set_neq by auto. apply G. lia.
Qed.

End Preconditioner.

(** *** Exact arithmetic *)

Local Open Scope R_scope.

Lemma sumsq_nonneg (es : list (@entry R)) (acc : R) :
  0 <= acc ->
  0 <= fold_left (fun acc e => (acc +: e_val e *: e_val e)%pf) es acc.
Proof.
  revert acc. induction es as [|e es IH]; intros acc Hacc; simpl; auto.
  apply IH. pose proof (Rle_0_sqr (e_val e)) as H. unfold Rsqr in H. lra.
Qed.

Lemma col_sumsq_nonneg (es : list (@entry R)) j : 0 <= col_sumsq es j.
Proof. unfold col_sumsq. apply sumsq_nonneg. simpl. lra. Qed.

(** In exact arithmetic the denominators are positive when rho is. *)
Lemma preconditioner_positive_exact (d : Data.t R) (M : list R) :
  valid_csc (Data.m d) (Data.n d) (Data.A d) ->
  Z.of_nat (length M) = Data.n d ->
  0 < Data.RHO_X d ->
  forall j, (0 <= j < Data.n d)%Z ->
    0 < Data.RHO_X d + col_sumsq (entries_of (Data.n d) (Data.A d)) j /\
    0 < (getPreconditioner_arrays d M).[j].
Proof.
  intros V LM Hrho j Hj.
  destruct (getPreconditioner_arrays_spec d M V LM) as [_ G].
  rewrite G by assumption.
  pose proof (col_sumsq_nonneg (entries_of (Data.n d) (Data.A d)) j) as H.
  change (0 < Data.RHO_X d + col_sumsq (entries_of (Data.n d) (Data.A d)) j /\
          0 < 1 / (Data.RHO_X d + col_sumsq (entries_of (Data.n d) (Data.A d)) j)).
  split; [lra|]. apply Rdiv_lt_0_compat; lra.
Qed.

Local Close Scope R_scope.

(** ** The tolerance schedule *)

Lemma cgTol_negative {F} {PF : PFloat F} (POWF : F -> F -> F) (d : Data.t F) b iter :
  iter < 0 ->
  cgTol POWF d b iter = MAX (fmul (calcNorm b (Data.n d)) CG_BEST_TOL) CG_BEST_TOL.
Proof.
  intros H. unfold cgTol. destruct (Z.ltb_spec iter 0); [reflexivity | lia].
Qed.

Lemma cgTol_nonnegative {F} {PF : PFloat F} (POWF : F -> F -> F) (d : Data.t F) b iter :
  0 <= iter ->
  cgTol POWF d b iter =
  MAX (fmul (calcNorm b (Data.n d))
         (fdiv f1 (POWF (of_idxint (iter + 1)) (Data.CG_RATE d)))) CG_BEST_TOL.
Proof.
  intros H. unfold cgTol. destruct (Z.ltb_spec iter 0); [lia | reflexivity].
Qed.

Local Open Scope R_scope.

Lemma MAX_exact (a b : R) : MAX a b = Rmax a b.
Proof.
  unfold MAX. cbn [fltb exactR]. unfold Rltb, Rmax.
  destruct (Rlt_dec b a), (Rle_dec a b); auto; lra.
Qed.

Lemma CG_BEST_TOL_pos : 0 < @CG_BEST_TOL R exactR.
Proof. cbn [CG_BEST_TOL exactR]. apply Rdiv_lt_0_compat; [lra|]. apply pow_lt. lra. Qed.

Lemma calcNorm_nonneg (v : list R) len : 0 <= calcNorm v len.
Proof. unfold calcNorm. apply sqrt_pos. Qed.

(** C3 (as amended): at a negative outer-iteration index the tolerance is
    max(|b| * 1e-7, 1e-7), whatever the index, the exponent and POWF are; in
    exact arithmetic it equals the floor 1e-7 exactly when |b| <= 1. *)
Theorem cgTol_final_solve :
  (forall F (PF : PFloat F) (POWF : F -> F -> F) (d : Data.t F) (b : list F) (iter : Z),
     (iter < 0)%Z ->
     cgTol POWF d b iter = MAX (fmul (calcNorm b (Data.n d)) CG_BEST_TOL) CG_BEST_TOL) /\
  (forall (POWF : R -> R -> R) (d : Data.t R) (b : list R) (iter : Z),
     (iter < 0)%Z ->
     CG_BEST_TOL <= cgTol POWF d b iter /\
     (cgTol POWF d b iter = CG_BEST_TOL <-> calcNorm b (Data.n d) <= 1)).
Proof.
  split.
  - intros. apply cgTol_negative. assumption.
  - intros POWF d b iter H. rewrite cgTol_negative by assumption. rewrite MAX_exact.
    pose proof CG_BEST_TOL_pos as Ht. pose proof (calcNorm_nonneg b (Data.n d)) as Hn.
    cbn [fmul exactR].
    set (t := @CG_BEST_TOL R exactR) in *. set (N := calcNorm b (Data.n d)) in *.
    split; [apply Rmax_r|].
    unfold Rmax. destruct (Rle_dec (N * t) t) as [Hle|Hgt]; split; intros E; nra.
Qed.

Lemma cgTol_final_solve_witness :
  cgTol (fun _ _ => 1%float) d_id [0.5; 0; 0; 0]%float (-1) =
    MAX (fmul (calcNorm [0.5; 0; 0; 0]%float (Data.n d_id)) CG_BEST_TOL) CG_BEST_TOL.
Proof.
  apply (proj1 cgTol_final_solve float binary64 (fun _ _ => 1%float) d_id
           [0.5; 0; 0; 0]%float (-1)%Z).
  reflexivity.
Defined.

(** C3, as stated, fails: with |b| = 2 the final solve runs at 2e-7. *)
Lemma cgTol_final_not_floor :
  ~ (forall (POWF : float -> float -> float) (d : Data.t float) (b : list float) (iter : Z),
       (iter < 0)%Z -> cgTol POWF d b iter = CG_BEST_TOL).
Proof.
  intros H.
  specialize (H (fun _ _ => 1%float) d_id [2; 0; 0; 0]%float (-1)%Z eq_refl).
  vm_compute in H. discriminate.
Qed.

Local Open Scope R_scope.

Lemma Rpower_base_mono (x y r : R) :
  1 <= x <= y -> 0 <= r -> 0 < Rpower x r <= Rpower y r.
Proof.
  intros Hxy Hr. split.
  - unfold Rpower. apply exp_pos.
  - apply Rle_Rpower_l; lra.
Qed.

(** C8 (as amended): with a non-negative exponent CG_RATE, in exact
    arithmetic, the tolerance of a later outer iteration is at most the
    tolerance of an earlier one. *)
Theorem cgTol_tightens (d : Data.t R) (b : list R) (iter1 iter2 : Z) :
  0 <= Data.CG_RATE d ->
  (0 <= iter1 < iter2)%Z ->
  cgTol Rpower d b iter2 <= cgTol Rpower d b iter1.
Proof.
  intros Hr Hi. rewrite !cgTol_nonnegative by lia. rewrite !MAX_exact.
  cbn [fmul fdiv f1 of_idxint exactR].
  pose proof (calcNorm_nonneg b (Data.n d)) as Hn.
  set (N := calcNorm b (Data.n d)) in *.
  destruct (Rpower_base_mono (IZR (iter1 + 1)) (IZR (iter2 + 1)) (Data.CG_RATE d)) as [Hp Hle].
  { split; [apply IZR_le; lia | apply IZR_le; lia]. }
  { exact Hr. }
  set (P1 := Rpower (IZR (iter1 + 1)) (Data.CG_RATE d)) in *.
  set (P2 := Rpower (IZR (iter2 + 1)) (Data.CG_RATE d)) in *.
  apply Rle_max_compat_r.
  apply Rmult_le_compat_l; [exact Hn|].
  unfold Rdiv. rewrite !Rmult_1_l. apply Rinv_le_contravar; assumption.
Qed.

Lemma cgTol_tightens_witness :
  cgTol Rpower d_rate2 [3; 4] 1 <= cgTol Rpower d_rate2 [3; 4] 0.
Proof.
  apply (cgTol_tightens d_rate2 [3; 4] 0 1).
  - simpl. lra.
  - lia.
Defined.

(** C8, as stated, fails: with CG_RATE = -1 and |b| = 1 the tolerance is 1 at
    outer iteration 0 and 2 at outer iteration 1. *)
Lemma cgTol_loosens_negative_rate :
  ~ (forall (d : Data.t R) (b : list R) (iter1 iter2 : Z),
       (0 <= iter1 < iter2)%Z -> cgTol Rpower d b iter2 <= cgTol Rpower d b iter1).
Proof.
  intros H. specialize (H d_neg_rate [1] 0%Z 1%Z ltac:(lia)).
  rewrite !cgTol_nonnegative in H by lia. rewrite !MAX_exact in H.
  assert (EN : calcNorm [1] (Data.n d_neg_rate) = 1).
  { unfold calcNorm, calcNormSq, for_loop, get. simpl.
    replace (0 + 1 * 1) with 1 by lra. apply sqrt_1. }
  rewrite EN in H. cbn [fmul fdiv f1 of_idxint exactR Data.CG_RATE d_neg_rate Z.add] in H.
  assert (E1 : Rpower 1 (-1) = 1).
  { unfold Rpower. rewrite ln_1, Rmult_0_r. apply exp_0. }
  assert (E2 : Rpower 2 (-1) = / 2).
  { change (Rpower 2 (Ropp 1) = / 2). rewrite Rpower_Ropp, Rpower_1 by lra. reflexivity. }
  change (IZR (Z.pos (1 + 1))) with 2 in H.
  rewrite E1, E2 in H.
  pose proof CG_BEST_TOL_pos as Ht.
  assert (Hlt : @CG_BEST_TOL R exactR < 1).
  { cbn [CG_BEST_TOL exactR]. simpl. lra. }
  replace (1 * (1 / / 2)) with 2 in H by (field_simplify; lra).
  replace (1 * (1 / 1)) with 1 in H by lra.
  rewrite !Rmax_left in H by lra. lra.
Qed.

Local Close Scope R_scope.

(** ** Signs in binary64 *)

Lemma digits2_pos_bounds (p : positive) :
  2 ^ (Z.pos (digits2_pos p) - 1) <= Z.pos p < 2 ^ Z.pos (digits2_pos p).
Proof.
  induction p as [p IH|p IH|]; cbn [digits2_pos].
  - rewrite Pos2Z.inj_succ.
    replace (Z.succ (Z.pos (digits2_pos p)) - 1) with (Z.succ (Z.pos (digits2_pos p) - 1)) by lia.
    rewrite !Z.pow_succ_r by lia. lia.
  - rewrite Pos2Z.inj_succ.
    replace (Z.succ (Z.pos (digits2_pos p)) - 1) with (Z.succ (Z.pos (digits2_pos p) - 1)) by lia.
    rewrite !Z.pow_succ_r by lia. lia.
  - simpl. lia.
Qed.

Lemma Zdigits2_bounds (m : Z) :
  0 < m -> 0 < Zdigits2 m /\ 2 ^ (Zdigits2 m - 1) <= m < 2 ^ Zdigits2 m.
Proof.
  destruct m as [|p|p]; try lia. intros _. cbn [Zdigits2].
  split; [lia | apply digits2_pos_bounds].
Qed.

Lemma Zdigits2_mono (a b : Z) : 0 < a <= b -> Zdigits2 a <= Zdigits2 b.
Proof.
  intros H. destruct (Zdigits2_bounds a) as (Ha & La & _); [lia|].
  destruct (Zdigits2_bounds b) as (Hb & _ & Ub); [lia|].
  destruct (Z.le_gt_cases (Zdigits2 a) (Zdigits2 b)) as [|Hgt]; auto.
  assert (2 ^ Zdigits2 b <= 2 ^ (Zdigits2 a - 1)) by (apply Z.pow_le_mono_r; lia).
  lia.
Qed.

Lemma shr_1_m (s : shr_record) : 0 <= shr_m s -> shr_m (shr_1 s) = shr_m s / 2.
Proof.
  destruct s as [m r t]. cbn [shr_m shr_1]. intros H.
  destruct m as [|[p|p|]|p]; cbn [shr_m]; try lia; try reflexivity.
  - apply Z.div_unique with (r := 1); lia.
  - apply Z.div_unique with (r := 0); lia.
Qed.

Lemma pow2_xI (p : positive) : 2 ^ Z.pos p~1 = 2 * (2 ^ Z.pos p * 2 ^ Z.pos p).
Proof.
  replace (Z.pos p~1) with (1 + (Z.pos p + Z.pos p)) by lia.
  rewrite Z.pow_add_r by lia. rewrite (Z.pow_add_r 2 (Z.pos p)) by lia. reflexivity.
Qed.

Lemma pow2_xO (p : positive) : 2 ^ Z.pos p~0 = 2 ^ Z.pos p * 2 ^ Z.pos p.
Proof.
  replace (Z.pos p~0) with (Z.pos p + Z.pos p) by lia.
  rewrite Z.pow_add_r by lia. reflexivity.
Qed.

Lemma pow2_pos (n : Z) : 0 <= n -> 0 < 2 ^ n.
Proof. intros; apply Z.pow_pos_nonneg; lia. Qed.

Lemma iter_shr_1_m (p : positive) (s : shr_record) :
  0 <= shr_m s -> shr_m (SpecFloat.iter_pos shr_1 p s) = shr_m s / 2 ^ Z.pos p.
Proof.
  revert s. induction p as [p IH|p IH|]; intros s Hs; cbn [SpecFloat.iter_pos].
  - pose proof (pow2_pos (Z.pos p) ltac:(lia)) as Hp.
    assert (H1 : 0 <= shr_m (shr_1 s)) by (rewrite shr_1_m by lia; apply Z.div_pos; lia).
    assert (H2 : 0 <= shr_m (SpecFloat.iter_pos shr_1 p (shr_1 s)))
      by (rewrite IH by lia; apply Z.div_pos; lia).
    rewrite IH, IH, shr_1_m by lia.
    rewrite !Z.div_div by lia. rewrite pow2_xI. reflexivity.
  - pose proof (pow2_pos (Z.pos p) ltac:(lia)) as Hp.
    assert (H2 : 0 <= shr_m (SpecFloat.iter_pos shr_1 p s))
      by (rewrite IH by lia; apply Z.div_pos; lia).
    rewrite IH, IH by lia.
    rewrite !Z.div_div by lia. rewrite pow2_xO. reflexivity.
  - rewrite shr_1_m by lia. reflexivity.
Qed.

Lemma shr_record_of_loc_m m l : shr_m (shr_record_of_loc m l) = m.
Proof. destruct l as [|[| |]]; reflexivity. Qed.

(** The mantissa after [shr_fexp]: unchanged, or divided by a power of two. *)
Lemma shr_fexp_m (m e : Z) (l : location) :
  0 <= m ->
  let '(mrs, e') := shr_fexp prec emax m e l in
  let n := fexp prec emax (Zdigits2 m + e) - e in
  (n <= 0 /\ shr_m mrs = m /\ e' = e /\ loc_of_shr_record mrs = l) \/
  (0 < n /\ shr_m mrs = m / 2 ^ n /\ e' = e + n).
Proof.
  intros Hm. unfold shr_fexp, shr.
  destruct (fexp prec emax (Zdigits2 m + e) - e) as [|p|p] eqn:E.
  - left. split; [lia|]. split; [apply shr_record_of_loc_m|]. split; [reflexivity|].
    destruct l as [|[| |]]; reflexivity.
  - right. split; [lia|]. split; [|reflexivity].
    rewrite iter_shr_1_m by (rewrite shr_record_of_loc_m; lia).
    rewrite shr_record_of_loc_m. reflexivity.
  - left. split; [lia|]. split; [apply shr_record_of_loc_m|]. split; [reflexivity|].
    destruct l as [|[| |]]; reflexivity.
Qed.

Lemma round_nearest_even_bounds m l :
  m <= round_nearest_even m l <= m + 1.
Proof.
  unfold round_nearest_even. destruct l as [|[| |]]; try lia.
  destruct (Z.even m); lia.
Qed.

Lemma SF_pos_nonneg x : SF_pos x -> SF_nonneg x.
Proof. destruct x as [[|]|[|]| |[|] m e]; simpl; auto. Qed.

Lemma fexp_eq e : fexp prec emax e = Z.max (e - 53) (-1074).
Proof. reflexivity. Qed.

Lemma div_pow2_pos m n :
  0 < m -> 0 <= n < Zdigits2 m -> 0 < m / 2 ^ n.
Proof.
  intros Hm Hn. destruct (Zdigits2_bounds m Hm) as (Hd & L & _).
  apply Z.div_str_pos. split; [apply pow2_pos; lia|].
  apply Z.le_trans with (2 ^ (Zdigits2 m - 1)); [|exact L].
  apply Z.pow_le_mono_r; lia.
Qed.

(** Rounding a positive mantissa that lies above the smallest subnormal
    gives a positive number or +infinity. *)
Lemma binary_round_aux_pos (mx ex : Z) (lx : location) :
  0 < mx -> -1074 < Zdigits2 mx + ex ->
  SF_pos (binary_round_aux prec emax false mx ex lx).
Proof.
  intros Hm He. unfold binary_round_aux.
  pose proof (shr_fexp_m mx ex lx ltac:(lia)) as H1.
  destruct (shr_fexp prec emax mx ex lx) as [mrs1 e1].
  cbv zeta in H1. rewrite fexp_eq in H1.
  set (m1 := round_nearest_even (shr_m mrs1) (loc_of_shr_record mrs1)).
  pose proof (round_nearest_even_bounds (shr_m mrs1) (loc_of_shr_record mrs1)) as Hr.
  fold m1 in Hr.
  destruct (Zdigits2_bounds mx Hm) as (Hd & _).
  assert (G : 0 < m1 /\ -1074 < Zdigits2 m1 + e1).
  { destruct H1 as [(Hn & Em & Ee & _) | (Hn & Em & Ee)].
    - rewrite Em in Hr. split; [lia|]. subst e1.
      pose proof (Zdigits2_mono mx m1 ltac:(lia)). lia.
    - assert (0 < shr_m mrs1) by (rewrite Em; apply div_pow2_pos; lia).
      split; [lia|].
      destruct (Zdigits2_bounds m1 ltac:(lia)) as (Hd1 & _). lia. }
  destruct G as [Hm1 He1].
  pose proof (shr_fexp_m m1 e1 loc_Exact ltac:(lia)) as H2.
  destruct (shr_fexp prec emax m1 e1 loc_Exact) as [mrs2 e2].
  cbv zeta in H2. rewrite fexp_eq in H2.
  destruct (Zdigits2_bounds m1 Hm1) as (Hd1 & _).
  assert (G2 : 0 < shr_m mrs2).
  { destruct H2 as [(Hn & Em & _) | (Hn & Em & _)].
    - lia.
    - rewrite Em. apply div_pow2_pos; lia. }
  destruct (shr_m mrs2) as [|p|p]; try lia.
  destruct (e2 <=? emax - prec); exact I.
Qed.

(** Rounding a non-negative mantissa never gives a negative number or NaN. *)
Lemma binary_round_aux_nonneg (mx ex : Z) (lx : location) :
  0 <= mx -> SF_nonneg (binary_round_aux prec emax false mx ex lx).
Proof.
  intros Hm. unfold binary_round_aux.
  pose proof (shr_fexp_m mx ex lx Hm) as H1.
  destruct (shr_fexp prec emax mx ex lx) as [mrs1 e1]. cbv zeta in H1.
  set (m1 := round_nearest_even (shr_m mrs1) (loc_of_shr_record mrs1)).
  pose proof (round_nearest_even_bounds (shr_m mrs1) (loc_of_shr_record mrs1)) as Hr.
  fold m1 in Hr.
  assert (Hm1 : 0 <= m1).
  { destruct H1 as [(_ & Em & _) | (Hn & Em & _)].
    - lia.
    - assert (0 <= shr_m mrs1) by (rewrite Em; apply Z.div_pos; [lia | apply pow2_pos; lia]).
      lia. }
  pose proof (shr_fexp_m m1 e1 loc_Exact Hm1) as H2.
  destruct (shr_fexp prec emax m1 e1 loc_Exact) as [mrs2 e2]. cbv zeta in H2.
  assert (G2 : 0 <= shr_m mrs2).
  { destruct H2 as [(_ & Em & _) | (Hn & Em & _)].
    - lia.
    - rewrite Em. apply Z.div_pos; [lia | apply pow2_pos; lia]. }
  destruct (shr_m mrs2) as [|p|p]; try lia; [exact I|].
  destruct (e2 <=? emax - prec); exact I.
Qed.

Lemma valid_finite_bounds s m e :
  valid_binary (S754_finite s m e) = true ->
  -1074 <= e <= 971 /\ Z.pos (digits2_pos m) <= 53.
Proof.
  cbn [SpecFloat.valid_binary]. unfold SpecFloat.bounded, SpecFloat.canonical_mantissa.
  rewrite andb_true_iff, Z.eqb_eq, Z.leb_le, fexp_eq.
  change (emax - prec) with 971. lia.
Qed.

Lemma shl_align_exp mx ex ex' :
  -1074 <= ex -> -1074 <= ex' -> -1074 <= snd (shl_align mx ex ex').
Proof.
  intros H1 H2. unfold shl_align. destruct (ex' - ex); simpl; lia.
Qed.

Lemma binary_round_pos m e :
  -1074 <= e -> SF_pos (binary_round prec emax false m e).
Proof.
  intros He. unfold binary_round.
  pose proof (shl_align_exp m e (fexp prec emax (Z.pos (digits2_pos m) + e)) He) as H.
  rewrite fexp_eq in *. specialize (H ltac:(lia)).
  destruct (shl_align m e _) as [mz ez]. cbn [snd] in H.
  apply binary_round_aux_pos; [lia|]. cbn [Zdigits2]. lia.
Qed.

(** The sum of two non-negative doubles is non-negative, and positive when
    one of them is. *)
Lemma SFadd_nonneg x y :
  valid_binary x = true -> valid_binary y = true ->
  SF_nonneg x -> SF_nonneg y ->
  SF_nonneg (SF64add x y) /\ (SF_pos x \/ SF_pos y -> SF_pos (SF64add x y)).
Proof.
  intros Vx Vy Hx Hy.
  destruct x as [[|]|[|]| |[|] mx ex]; try contradiction;
  destruct y as [[|]|[|]| |[|] my ey]; try contradiction;
    cbn [SF64add SFadd SF_nonneg SF_pos]; try (split; [exact I | tauto]).
  destruct (valid_finite_bounds _ _ _ Vx) as [Hex _].
  destruct (valid_finite_bounds _ _ _ Vy) as [Hey _].
  cbn [cond_Zopp Z.add binary_normalize].
  assert (P : SF_pos (binary_round prec emax false
              (fst (shl_align mx ex (Z.min ex ey)) + fst (shl_align my ey (Z.min ex ey)))
              (Z.min ex ey))) by (apply binary_round_pos; lia).
  split; [apply SF_pos_nonneg, P | intros _; exact P].
Qed.

(** The square of a finite double is non-negative. *)
Lemma SFmul_square_nonneg x :
  match x with S754_zero _ | S754_finite _ _ _ => True | _ => False end ->
  SF_nonneg (SF64mul x x).
Proof.
  destruct x as [s|s| |s m e]; try contradiction; intros _; cbn [SF64mul SFmul].
  - destruct s; exact I.
  - replace (xorb s s) with false by (destruct s; reflexivity).
    apply binary_round_aux_nonneg. lia.
Qed.

(** The reciprocal of a positive finite double is positive (or +infinity). *)
Lemma SFdiv_one_pos m e :
  valid_binary (S754_finite false m e) = true ->
  SF_pos (SF64div (Prim2SF 1) (S754_finite false m e)).
Proof.
  intros V. destruct (valid_finite_bounds _ _ _ V) as [He Hd].
  change (Prim2SF 1) with (S754_finite false 4503599627370496 (-52)).
  cbn [SF64div SFdiv xorb]. unfold SFdiv_core_binary.
  change (Zdigits2 (Z.pos 4503599627370496)) with 53. cbn [Zdigits2].
  rewrite fexp_eq.
  set (d2 := Z.pos (digits2_pos m)) in *.
  assert (Hd2 : 0 < d2) by (unfold d2; lia).
  set (e' := Z.min (Z.max (53 + -52 - (d2 + e) - 53) (-1074)) (-52 - e)).
  assert (He' : -1074 <= e' /\ 0 < -52 - e - e') by (unfold e'; lia).
  destruct (-52 - e - e') as [|s|s] eqn:Es; try lia.
  rewrite Z.shiftl_mul_pow2 by lia.
  pose proof (digits2_pos_bounds m) as [_ Hm]. fold d2 in Hm.
  assert (Hpow : 2 ^ d2 <= 4503599627370496 * 2 ^ Z.pos s).
  { change 4503599627370496 with (2 ^ 52). rewrite <- Z.pow_add_r by lia.
    apply Z.pow_le_mono_r; lia. }
  pose proof (Z_div_mod (4503599627370496 * 2 ^ Z.pos s) (Z.pos m) ltac:(lia)) as Hdiv.
  destruct (Z.div_eucl (4503599627370496 * 2 ^ Z.pos s) (Z.pos m)) as [q r].
  apply binary_round_aux_pos.
  - assert (0 <= q) by nia. assert (q <> 0) by nia. lia.
  - assert (Hq : 0 < q) by (assert (0 <= q) by nia; assert (q <> 0) by nia; lia).
    destruct (Zdigits2_bounds q Hq) as [Hdq _]. lia.
Qed.

(** *** The signs of doubles *)

Lemma ltb_zero_pos (x : float) : PrimFloat.ltb 0 x = true <-> SF_pos (Prim2SF x).
Proof.
  rewrite ltb_spec. change (Prim2SF 0) with (S754_zero false).
  destruct (Prim2SF x) as [[|]|[|]| |[|] m e]; cbn; split; intros H;
    try discriminate; try contradiction; auto.
Qed.

Lemma SFeqb_finite_refl s m e : SFeqb (S754_finite s m e) (S754_finite s m e) = true.
Proof.
  unfold SFeqb, SFcompare.
  destruct s; rewrite Z.compare_refl, Pos.compare_cont_refl; reflexivity.
Qed.

Lemma is_finite_of_finite (x : float) s m e :
  Prim2SF x = S754_finite s m e -> PrimFloat.is_finite x = true.
Proof.
  intros E. unfold PrimFloat.is_finite, is_nan, is_infinity.
  rewrite !FloatAxioms.eqb_spec, abs_spec, E.
  change (Prim2SF infinity) with (S754_infinity false).
  rewrite SFeqb_finite_refl. reflexivity.
Qed.

(** A positive double that is not finite is +infinity. *)
Lemma pos_not_finite (x : float) :
  SF_pos (Prim2SF x) -> PrimFloat.is_finite x = false -> Prim2SF x = S754_infinity false.
Proof.
  intros Hp Hf. destruct (Prim2SF x) as [[|]|[|]| |[|] m e] eqn:E; try contradiction.
  - reflexivity.
  - rewrite (is_finite_of_finite x _ _ _ E) in Hf. discriminate.
Qed.

Lemma square_nonneg (v : float) :
  PrimFloat.is_finite v = true -> SF_nonneg (Prim2SF (v * v)).
Proof.
  intros H. rewrite mul_spec. apply SFmul_square_nonneg.
  destruct (is_finite_cases v H) as (s & [E | (m & e & E)]); rewrite E; exact I.
Qed.

Lemma add_nonneg (a b : float) :
  SF_nonneg (Prim2SF a) -> SF_nonneg (Prim2SF b) ->
  SF_nonneg (Prim2SF (a + b)) /\
  (SF_pos (Prim2SF a) \/ SF_pos (Prim2SF b) -> SF_pos (Prim2SF (a + b))).
Proof.
  intros Ha Hb. rewrite add_spec. apply SFadd_nonneg; auto using Prim2SF_valid.
Qed.

(** 1 / d for a positive double d: positive when d is finite, +0 when d is
    +infinity. *)
Lemma reciprocal_pos (d : float) :
  SF_pos (Prim2SF d) ->
  (PrimFloat.is_finite d = true -> PrimFloat.ltb 0 (1 / d) = true) /\
  (PrimFloat.is_finite d = false -> (1 / d)%float = 0%float).
Proof.
  intros Hp. split; intros Hf.
  - apply ltb_zero_pos. rewrite div_spec.
    pose proof (Prim2SF_valid d) as V.
    destruct (is_finite_cases d Hf) as (s & [E | (m & e & E)]); rewrite E in *.
    + destruct s; contradiction.
    + destruct s; [contradiction|]. apply SFdiv_one_pos, V.
  - apply Prim2SF_inj. rewrite div_spec, (pos_not_finite d Hp Hf). reflexivity.
Qed.

(** *** The preconditioner in binary64 *)

Lemma col_sumsq_nonneg64 (es : list (@entry float)) (j : Z) :
  (forall e, In e es -> PrimFloat.is_finite (e_val e) = true) ->
  SF_nonneg (Prim2SF (col_sumsq es j)).
Proof.
  intros Hfin. unfold col_sumsq.
  assert (G : forall l acc,
    (forall e, In e l -> PrimFloat.is_finite (e_val e) = true) ->
    SF_nonneg (Prim2SF acc) ->
    SF_nonneg (Prim2SF (fold_left (fun acc e => fadd acc (fmul (e_val e) (e_val e))) l acc))).
  { induction l as [|e l IH]; intros acc Hl Hacc; cbn [fold_left]; auto.
    apply IH; [intros; apply Hl; right; assumption|].
    apply add_nonneg; [exact Hacc|].
    apply square_nonneg, Hl. left; reflexivity. }
  apply G.
  - intros e He. apply Hfin. unfold in_col in He. apply filter_In in He. apply He.
  - exact I.
Qed.

(** With finite values and rho > 0 the denominator of M[j] is positive, so
    the division is never by zero; M[j] is positive when the denominator is
    finite, and 0 when the sum of squares has overflowed. *)
Lemma preconditioner_sign64 (d : Data.t float) (M : list float) :
  valid_csc (Data.m d) (Data.n d) (Data.A d) ->
  Z.of_nat (length M) = Data.n d ->
  Forall (fun a => PrimFloat.is_finite a = true) (AMatrix.x (Data.A d)) ->
  PrimFloat.ltb 0 (Data.RHO_X d) = true ->
  forall j, 0 <= j < Data.n d ->
    let den := (Data.RHO_X d + col_sumsq (entries_of (Data.n d) (Data.A d)) j)%float in
    PrimFloat.ltb 0 den = true /\
    (PrimFloat.is_finite den = true ->
       PrimFloat.ltb 0 (getPreconditioner_arrays d M).[j] = true) /\
    (PrimFloat.is_finite den = false -> (getPreconditioner_arrays d M).[j] = 0%float).
Proof.
  intros V LM Hfin Hrho j Hj den.
  destruct (getPreconditioner_arrays_spec d M V LM) as [_ G].
  rewrite G by assumption. change (fdiv f1 ?x) with (1 / x)%float.
  change (fadd (Data.RHO_X d) (col_sumsq (entries_of (Data.n d) (Data.A d)) j)) with den.
  assert (Hs : SF_nonneg (Prim2SF (col_sumsq (entries_of (Data.n d) (Data.A d)) j))).
  { apply col_sumsq_nonneg64. intros e He. rewrite Forall_forall in Hfin. apply Hfin.
    apply (In_entries_val (Data.n d) (AMatrix.p (Data.A d)) (AMatrix.i (Data.A d))); auto.
    - exact (csc_n V). - exact (csc_mono V). - exact (csc_p0 V). - exact (csc_len_x V). }
  apply ltb_zero_pos in Hrho.
  assert (Hden : SF_pos (Prim2SF den)).
  { apply add_nonneg; [apply SF_pos_nonneg, Hrho | exact Hs | left; exact Hrho]. }
  split; [apply ltb_zero_pos, Hden|]. apply reciprocal_pos, Hden.
Qed.

(** [getPreconditioner] returns when [p->M] is allocated. *)
Lemma getPreconditioner_run {F} {PF : PFloat F} (d : Data.t F) (p : Priv.t F) (w : World F) :
  points_to (Priv.M p) (Data.n d) ->
  getPreconditioner d p w =
  Ok (Priv.mk (Priv.p p) (Priv.r p) (Priv.Ap p) (Priv.tmp p) (Priv.z p)
        (store (Priv.M p) (getPreconditioner_arrays d (deref (Priv.M p))))
        (Priv.Ati p) (Priv.Atp p) (Priv.Atx p)) w.
Proof.
  intros (a & M & E & L). unfold getPreconditioner, bind, guard. rewrite E.
  cbn [is_null]. rewrite andb_false_r. reflexivity.
Qed.

(** C6 (as amended): with finite values in A and rho > 0, [getPreconditioner]
    returns with M[j] = 1 / (rho + the sum of the squares of the nonzeros of
    column j) for every column j, the sum accumulated from 0 in storage
    order; the denominator is positive, so the division is never by zero;
    the entry is strictly positive when the denominator is finite, and 0
    when the sum of squares has overflowed to +infinity.  For the 2x2
    identity with rho = 1 the preconditioner that the initialisation
    computes is [0.5, 0.5]. *)
Theorem getPreconditioner_correct (d : Data.t float) (p : Priv.t float) (w : World float) :
  valid_csc (Data.m d) (Data.n d) (Data.A d) ->
  points_to (Priv.M p) (Data.n d) ->
  Forall (fun a => PrimFloat.is_finite a = true) (AMatrix.x (Data.A d)) ->
  PrimFloat.ltb 0 (Data.RHO_X d) = true ->
  (exists p', getPreconditioner d p w = Ok p' w /\
     forall j, 0 <= j < Data.n d ->
       let den := (Data.RHO_X d + col_sumsq (entries_of (Data.n d) (Data.A d)) j)%float in
       (deref (Priv.M p')).[j] = (1 / den)%float /\
       PrimFloat.ltb 0 den = true /\
       (PrimFloat.is_finite den = true -> PrimFloat.ltb 0 (deref (Priv.M p')).[j] = true) /\
       (PrimFloat.is_finite den = false -> (deref (Priv.M p')).[j] = 0%float)) /\
  deref (Priv.M p_id) = [0.5; 0.5]%float.
Proof.
  intros V HM Hfin Hrho. split; [|vm_compute; reflexivity].
  rewrite getPreconditioner_run by assumption.
  eexists. split; [reflexivity|].
  destruct HM as (a & M & E & L). rewrite E. cbn [Priv.M store deref].
  intros j Hj.
  destruct (getPreconditioner_arrays_spec d M V L) as [_ G].
  split; [apply G, Hj|].
  apply (preconditioner_sign64 d M V L Hfin Hrho j Hj).
Qed.

Lemma getPreconditioner_correct_witness :
  (exists p', getPreconditioner d_blk p_blk w_blk = Ok p' w_blk /\
     forall j, 0 <= j < 5 ->
       let den := (1 + col_sumsq (entries_of 5 A_blk) j)%float in
       (deref (Priv.M p')).[j] = (1 / den)%float /\
       PrimFloat.ltb 0 den = true /\
       (PrimFloat.is_finite den = true -> PrimFloat.ltb 0 (deref (Priv.M p')).[j] = true) /\
       (PrimFloat.is_finite den = false -> (deref (Priv.M p')).[j] = 0%float)) /\
  deref (Priv.M p_id) = [0.5; 0.5]%float.
Proof.
  apply (getPreconditioner_correct d_blk p_blk w_blk).
  - apply valid_cscb_sound. vm_compute. reflexivity.
  - eexists; eexists; split; vm_compute; reflexivity.
  - repeat constructor.
  - vm_compute. reflexivity.
Defined.

(** C6, as stated, fails in binary64: the square of 1e200 overflows, the
    denominator is infinite and the entry is 0. *)
Lemma preconditioner_not_positive : ~ preconditioner_positive.
Proof.
  intros H.
  assert (V : valid_csc (Data.m d_huge) (Data.n d_huge) (Data.A d_huge))
    by (apply valid_cscb_sound; vm_compute; reflexivity).
  unfold preconditioner_positive in H.
  assert (H0 : 0 <= 0 < Data.n d_huge) by (change (Data.n d_huge) with 1; lia).
  pose proof (H d_huge [0%float] V eq_refl eq_refl 0 H0) as H1.
  vm_compute in H1. discriminate.
Qed.

(** ** The memory monad *)

Section Monad.
Context {F : Type} {PF : PFloat F}.

Lemma bind_Ok {A B} (c : Mem F A) (k : A -> Mem F B) w b w' :
  bind c k w = Ok b w' -> exists a w1, c w = Ok a w1 /\ k a w1 = Ok b w'.
Proof.
  unfold bind. destruct (c w) as [|a w1]; [discriminate|]. intros H. exists a, w1. auto.
Qed.

Lemma bind_run {A B} (c : Mem F A) (k : A -> Mem F B) w a w1 :
  c w = Ok a w1 -> bind c k w = k a w1.
Proof. unfold bind. intros ->. reflexivity. Qed.

Lemma keeps_ret {A} (a : A) : keeps_stats (F:=F) (ret a).
Proof. intros w a' w' H. inversion H; subst. auto. Qed.

Lemma keeps_bind {A B} (c : Mem F A) (k : A -> Mem F B) :
  keeps_stats c -> (forall a, keeps_stats (F:=F) (k a)) -> keeps_stats (F:=F) (bind c k).
Proof.
  intros Hc Hk w b w' H. apply bind_Ok in H. destruct H as (a & w1 & H1 & H2).
  destruct (Hc _ _ _ H1) as [E1 E2]. destruct (Hk a _ _ _ H2) as [E3 E4].
  split; congruence.
Qed.

Lemma keeps_free {T} (q : ptr T) : keeps_stats (F:=F) (scs_free q).
Proof. intros w a w' H. destruct q; inversion H; subst; auto. Qed.

Lemma keeps_freePriv (p : ptr (Priv.t F)) : keeps_stats (F:=F) (freePriv p).
Proof.
  unfold freePriv. destruct p as [|a [|s cells]]; try apply keeps_ret.
  repeat (apply keeps_bind; [apply keeps_free | intros _]). apply keeps_free.
Qed.

End Monad.

(** ** initPriv and freePriv *)

Section Returns.
Context {F : Type} {PF : PFloat F}.

Lemma grants_all_grants (w : World F) : grants_all w -> grants w.
Proof.
  unfold grants_all, grants. destruct (oracle w) as [|[|] o]; auto.
  intros H. inversion H. discriminate.
Qed.

Lemma alloc_all {T} (fill : T) len (w : World F) :
  grants_all w ->
  exists a w', alloc fill len w = Ok (Ptr a (repeat fill (Z.to_nat len))) w' /\
               grants_all w'.
Proof.
  unfold grants_all, alloc. intros H.
  destruct (oracle w) as [|[|] o].
  - eexists; eexists. split; [reflexivity|]. constructor.
  - eexists; eexists. split; [reflexivity|]. inversion H; assumption.
  - inversion H. discriminate.
Qed.

Lemma points_to_repeat {T} a (fill : T) len :
  0 <= len -> points_to (Ptr a (repeat fill (Z.to_nat len))) len.
Proof. intros H. exists a, (repeat fill (Z.to_nat len)). split; [reflexivity|]. rewrite repeat_length. lia. Qed.

(** [initPriv] returns a handle when the matrix is valid and the allocator
    grants every request. *)
Lemma initPriv_returns (d : Data.t F) (w : World F) :
  valid_csc (Data.m d) (Data.n d) (Data.A d) ->
  grants_all w ->
  exists a s w', initPriv d w = Ok (Ptr a [s]) w'.
Proof.
  intros V G. unfold initPriv.
  pose proof (csc_m V) as Hm. pose proof (csc_n V) as Hn.
  assert (Hnnz : 0 <= (AMatrix.p (Data.A d)).<[Data.n d]>)
    by (apply (csc_p_nonneg _ _ _ (Data.n d) V); lia).
  destruct (alloc_all (Priv_zero (F:=F)) 1 w G) as (a0 & w0 & E0 & G0).
  unfold scs_calloc. rewrite (bind_run _ _ _ _ _ E0).
  unfold guard at 1. cbn [is_null andb]. rewrite (bind_run _ _ w0 tt w0 eq_refl).
  unfold scs_malloc, scs_malloc_idx.
  destruct (alloc_all (indet w0) (Data.n d) w0 G0) as (a1 & w1 & E1 & G1).
  rewrite (bind_run (fun w => alloc (indet w) (Data.n d) w) _ _ _ _ E1).
  destruct (alloc_all (indet w1) (Data.n d) w1 G1) as (a2 & w2 & E2 & G2).
  rewrite (bind_run (fun w => alloc (indet w) (Data.n d) w) _ _ _ _ E2).
  destruct (alloc_all (indet w2) (Data.n d) w2 G2) as (a3 & w3 & E3 & G3).
  rewrite (bind_run (fun w => alloc (indet w) (Data.n d) w) _ _ _ _ E3).
  destruct (alloc_all (indet w3) (Data.m d) w3 G3) as (a4 & w4 & E4 & G4).
  rewrite (bind_run (fun w => alloc (indet w) (Data.m d) w) _ _ _ _ E4).
  destruct (alloc_all (indet w4) (Data.n d) w4 G4) as (a5 & w5 & E5 & G5).
  rewrite (bind_run (fun w => alloc (indet w) (Data.n d) w) _ _ _ _ E5).
  destruct (alloc_all (indet w5) (Data.n d) w5 G5) as (a6 & w6 & E6 & G6).
  rewrite (bind_run (fun w => alloc (indet w) (Data.n d) w) _ _ _ _ E6).
  destruct (alloc_all 0 (AMatrix.p (Data.A d)).<[Data.n d]> w6 G6) as (a7 & w7 & E7 & G7).
  rewrite (bind_run _ _ _ _ _ E7).
  destruct (alloc_all 0 (Data.m d + 1) w7 G7) as (a8 & w8 & E8 & G8).
  rewrite (bind_run _ _ _ _ _ E8).
  destruct (alloc_all (indet w8) (AMatrix.p (Data.A d)).<[Data.n d]> w8 G8)
    as (a9 & w9 & E9 & G9).
  rewrite (bind_run (fun w => alloc (indet w) _ w) _ _ _ _ E9).
  match goal with |- context [transpose d ?p] =>
    assert (HC : cache_allocated d p)
      by (repeat split; cbn [Priv.Ati Priv.Atp Priv.Atx]; apply points_to_repeat; lia);
    destruct (transpose_run d p w9 HC (grants_all_grants _ G9)) as (o' & ET)
  end.
  cbn [Priv.p Priv.r Priv.Ap Priv.tmp Priv.z Priv.M Priv.Ati Priv.Atp Priv.Atx deref store] in ET.
  destruct (transpose_arrays _ _ _ _ _ _ _ _ _) as [[Ci Cp] Cx].
  rewrite (bind_run _ _ _ _ _ ET).
  match goal with |- context [getPreconditioner d ?p] =>
    rewrite (bind_run _ _ _ _ _
               (getPreconditioner_run d p _ (points_to_repeat a6 (indet w5) _ Hn)))
  end.
  cbn [Priv.p Priv.r Priv.Ap Priv.tmp Priv.z Priv.M Priv.Ati Priv.Atp Priv.Atx deref store].
  unfold set_totalSolveTime, set_totCgIts, bind, ret. cbn [is_null orb].
  eexists; eexists; eexists. reflexivity.
Qed.

End Returns.

Section Handle.
Context {F : Type} {PF : PFloat F}.

Lemma alloc_Ok {T} (fill : T) len (w w' : World F) q :
  alloc fill len w = Ok q w' ->
  q = NULL \/ q = Ptr (next w) (repeat fill (Z.to_nat len)).
Proof.
  unfold alloc. destruct (oracle w) as [|[|] o]; intros H; inversion H; auto.
Qed.

Lemma alloc_points_to {T} (fill : T) len (w w' : World F) q :
  0 <= len -> alloc fill len w = Ok q w' -> is_null q = false -> points_to q len.
Proof.
  intros Hl H Hq. destruct (alloc_Ok _ _ _ _ _ H) as [->| ->]; [discriminate|].
  eexists; eexists. split; [reflexivity|]. rewrite repeat_length. lia.
Qed.

Lemma guard_Ok {T} (b : bool) (q : ptr T) (w w' : World F) u :
  guard b q w = Ok u w' -> w' = w /\ (b = true -> is_null q = false).
Proof.
  unfold guard. destruct b, (is_null q); cbn [andb]; intros H; inversion H; auto;
    split; auto; discriminate.
Qed.

Lemma is_null_store {T} (q : ptr T) c : is_null (store q c) = is_null q.
Proof. destruct q; reflexivity. Qed.

(** The workspace that [transpose] returns. *)
Lemma transpose_shape (d : Data.t F) (p p' : Priv.t F) (w w' : World F) :
  0 <= Data.m d ->
  transpose d p w = Ok p' w' ->
  p' =
    (let '(Ci, Cp, Cx) :=
      transpose_arrays (Data.m d) (Data.n d) (AMatrix.p (Data.A d)) (AMatrix.i (Data.A d))
        (AMatrix.x (Data.A d)) (deref (Priv.Ati p)) (deref (Priv.Atp p))
        (deref (Priv.Atx p)) (repeat 0 (Z.to_nat (Data.m d))) in
     Priv.mk (Priv.p p) (Priv.r p) (Priv.Ap p) (Priv.tmp p) (Priv.z p) (Priv.M p)
          (store (Priv.Ati p) Ci) (store (Priv.Atp p) Cp) (store (Priv.Atx p) Cx)).
Proof.
  intros Hm H. unfold transpose in H.
  apply bind_Ok in H. destruct H as (z & w1 & Ez & H).
  do 6 (apply bind_Ok in H; destruct H as (? & ? & ?G & H)).
  apply guard_Ok in G1. destruct G1 as [_ Gz].
  assert (Hz : deref z = repeat 0 (Z.to_nat (Data.m d))).
  { destruct (alloc_Ok _ _ _ _ _ Ez) as [->| ->]; [|reflexivity].
    destruct (Z.ltb_spec 0 (Data.m d)) as [Hlt|Hge].
    - specialize (Gz eq_refl). discriminate.
    - replace (Data.m d) with 0 by lia. reflexivity. }
  rewrite Hz in H.
  destruct (transpose_arrays _ _ _ _ _ _ _ _ _) as [[Ci Cp] Cx].
  apply bind_Ok in H. destruct H as (? & w2 & _ & H).
  inversion H; subst. reflexivity.
Qed.

(** [transpose] returns only with the transpose in the cache. *)
Lemma transpose_Ok (d : Data.t F) (p p' : Priv.t F) (w w' : World F) :
  valid_csc (Data.m d) (Data.n d) (Data.A d) ->
  cache_allocated d p ->
  transpose d p w = Ok p' w' ->
  is_transpose_cache d p'.
Proof.
  intros V HC H. apply transpose_shape in H; [|exact (csc_m V)].
  destruct HC as (HAti & HAtp & HAtx).
  destruct HAti as (a1 & Ci & EAti & LCi).
  destruct HAtp as (a2 & Cp & EAtp & LCp).
  destruct HAtx as (a3 & Cx & EAtx & LCx).
  rewrite EAti, EAtp, EAtx in H. cbn [deref store] in H.
  pose proof (transpose_arrays_correct _ _ _ Ci Cp Cx V LCi LCx LCp) as HT.
  cbv zeta in HT.
  destruct (transpose_arrays _ _ _ _ _ _ _ _ _) as [[Ci' Cp'] Cx'].
  destruct HT as (HE & HP & Htot & HV).
  subst p'. split; [exact HV | exact HE].
Qed.

Lemma getPreconditioner_shape (d : Data.t F) (p p' : Priv.t F) (w w' : World F) :
  getPreconditioner d p w = Ok p' w' ->
  p' = Priv.mk (Priv.p p) (Priv.r p) (Priv.Ap p) (Priv.tmp p) (Priv.z p)
         (store (Priv.M p) (getPreconditioner_arrays d (deref (Priv.M p))))
         (Priv.Ati p) (Priv.Atp p) (Priv.Atx p).
Proof.
  unfold getPreconditioner. intros H.
  apply bind_Ok in H. destruct H as (? & ? & _ & H). inversion H. reflexivity.
Qed.

(** The handle that [initPriv] returns: the vectors [p], [r], [Ap] and [tmp]
    are allocated, the cache holds the transpose of A and, when [M] is not
    NULL, [M] holds the preconditioner.  ([z] is not examined.) *)
Lemma initPriv_handle (d : Data.t F) (w w' : World F) (a : nat) (s : Priv.t F) :
  valid_csc (Data.m d) (Data.n d) (Data.A d) ->
  initPriv d w = Ok (Ptr a [s]) w' ->
  points_to (Priv.p s) (Data.n d) /\ points_to (Priv.r s) (Data.n d) /\
  points_to (Priv.Ap s) (Data.n d) /\ points_to (Priv.tmp s) (Data.m d) /\
  is_transpose_cache d s /\
  (is_null (Priv.M s) = false ->
   points_to (Priv.M s) (Data.n d) /\
   forall j, 0 <= j < Data.n d ->
     (deref (Priv.M s)).[j] =
     fdiv f1 (fadd (Data.RHO_X d) (col_sumsq (entries_of (Data.n d) (Data.A d)) j))).
Proof.
  intros V H. unfold initPriv in H.
  pose proof (csc_m V) as Hm. pose proof (csc_n V) as Hn.
  assert (Hnnz : 0 <= (AMatrix.p (Data.A d)).<[Data.n d]>)
    by (apply (csc_p_nonneg _ _ _ (Data.n d) V); lia).
  apply bind_Ok in H. destruct H as (p & w0 & E0 & H).
  apply bind_Ok in H. destruct H as (? & ? & G0 & H).
  apply bind_Ok in H. destruct H as (p_p & ? & E1 & H).
  apply bind_Ok in H. destruct H as (p_r & ? & E2 & H).
  apply bind_Ok in H. destruct H as (p_Ap & ? & E3 & H).
  apply bind_Ok in H. destruct H as (p_tmp & ? & E4 & H).
  apply bind_Ok in H. destruct H as (p_z & ? & E5 & H).
  apply bind_Ok in H. destruct H as (p_M & ? & E6 & H).
  apply bind_Ok in H. destruct H as (p_Ati & ? & E7 & H).
  apply bind_Ok in H. destruct H as (p_Atp & ? & E8 & H).
  apply bind_Ok in H. destruct H as (p_Atx & ? & E9 & H).
  apply bind_Ok in H. destruct H as (s1 & ? & ET & H).
  apply bind_Ok in H. destruct H as (s2 & ? & EP & H).
  apply bind_Ok in H. destruct H as (? & ? & _ & H).
  apply bind_Ok in H. destruct H as (? & ? & _ & H).
  apply guard_Ok in G0. destruct G0 as [_ Gp]. specialize (Gp eq_refl).
  pose proof (transpose_shape _ _ _ _ _ Hm ET) as S1. cbn [Priv.p Priv.r Priv.Ap Priv.tmp Priv.z Priv.M Priv.Ati Priv.Atp Priv.Atx] in S1.
  pose proof (getPreconditioner_shape _ _ _ _ _ EP) as S2.
  match type of H with (if ?c then _ else _) _ = _ => destruct c eqn:Echeck end.
  { apply bind_Ok in H. destruct H as (? & ? & _ & H). inversion H. }
  destruct p as [|ap cells]; [discriminate|]. cbn [store] in H.
  inversion H; subst s w' ap. clear H.
  rewrite !orb_false_iff in Echeck.
  destruct Echeck as [[[[[[N1 N2] N3] N4] N5] N6] N7].
  rewrite S2 in N1, N2, N3, N4, N5, N6, N7.
  cbn [Priv.p Priv.r Priv.Ap Priv.tmp Priv.Ati Priv.Atp Priv.Atx] in N1, N2, N3, N4, N5, N6, N7.
  assert (HC : cache_allocated d (Priv.mk p_p p_r p_Ap p_tmp p_z p_M p_Ati p_Atp p_Atx)).
  { destruct (transpose_arrays _ _ _ _ _ _ _ _ _) as [[Ci Cp] Cx].
    cbv beta iota in S1. subst s1.
    unfold Priv.Ati in N5. unfold Priv.Atp in N6. unfold Priv.Atx in N7.
    rewrite is_null_store in N5. rewrite is_null_store in N6. rewrite is_null_store in N7.
    repeat split; cbn [Priv.Ati Priv.Atp Priv.Atx].
    - eapply alloc_points_to; [| exact E7 |]; assumption.
    - eapply alloc_points_to; [| exact E8 |]; [lia | assumption].
    - eapply alloc_points_to; [| exact E9 |]; assumption. }
  pose proof (transpose_Ok _ _ _ _ _ V HC ET) as HT.
  assert (Es1 : Priv.p s1 = p_p /\ Priv.r s1 = p_r /\ Priv.Ap s1 = p_Ap /\
                Priv.tmp s1 = p_tmp /\ Priv.M s1 = p_M).
  { destruct (transpose_arrays _ _ _ _ _ _ _ _ _) as [[Ci Cp] Cx].
    cbv beta iota in S1. subst s1. repeat split; reflexivity. }
  destruct Es1 as (Q1 & Q2 & Q3 & Q4 & Q5).
  rewrite Q1 in N1. rewrite Q2 in N2. rewrite Q3 in N3. rewrite Q4 in N4.
  subst s2. cbn [Priv.p Priv.r Priv.Ap Priv.tmp Priv.M].
  rewrite Q1, Q2, Q3, Q4, Q5.
  split; [eapply alloc_points_to; [| exact E1 |]; assumption|].
  split; [eapply alloc_points_to; [| exact E2 |]; assumption|].
  split; [eapply alloc_points_to; [| exact E3 |]; assumption|].
  split; [eapply alloc_points_to; [| exact E4 |]; assumption|].
  split; [exact HT|].
  intros NM. rewrite is_null_store in NM.
  assert (PM : points_to p_M (Data.n d)) by (eapply alloc_points_to; [| exact E6 |]; assumption).
  destruct PM as (aM & M & -> & LM). cbn [store deref].
  destruct (getPreconditioner_arrays_spec d M V LM) as [LM' G].
  split; [|exact G]. exists aM, (getPreconditioner_arrays d M). split; [reflexivity | lia].
Qed.

End Handle.

(** *** What is live when initPriv reports failure *)

Section Release.
Context {F : Type} {PF : PFloat F}.

Lemma grown_trans (w w1 w2 : World F) l1 l2 :
  grown w w1 l1 -> grown w1 w2 l2 -> grown w w2 (l2 ++ l1).
Proof.
  intros (E1 & N1 & B1) (E2 & N2 & B2). split; [|split].
  - rewrite E2, E1, app_assoc. reflexivity.
  - lia.
  - intros a Ha. apply in_app_or in Ha. destruct Ha as [Ha|Ha].
    + specialize (B2 a Ha). lia.
    + specialize (B1 a Ha). lia.
Qed.

Lemma grown_fresh (w w' : World F) l : fresh w -> grown w w' l -> fresh w'.
Proof.
  intros Hf (E & N & B) a Ha. rewrite E in Ha. apply in_app_or in Ha.
  destruct Ha as [Ha|Ha]; [apply B, Ha | specialize (Hf a Ha); lia].
Qed.

Lemma alloc_grown {T} (fill : T) len (w w' : World F) q :
  alloc fill len w = Ok q w' -> grown w w' (addr_of q).
Proof.
  unfold alloc, grown.
  destruct (oracle w) as [|[|] o]; intros H; inversion H; subst; simpl;
    (split; [reflexivity|]; split; [lia|]);
    intros a Ha; try contradiction; destruct Ha as [<-|[]]; lia.
Qed.

Lemma remove_fresh (a : nat) (l : list nat) :
  ~ In a l -> List.remove Nat.eq_dec a l = l.
Proof. intros H. apply notin_remove. exact H. Qed.

Lemma transpose_grown (d : Data.t F) (p p' : Priv.t F) (w w' : World F) :
  fresh w -> transpose d p w = Ok p' w' -> grown w w' [].
Proof.
  intros Hf H. unfold transpose in H.
  apply bind_Ok in H. destruct H as (z & w1 & Ez & H).
  do 6 (apply bind_Ok in H; destruct H as (? & ? & ?G & H)).
  apply guard_Ok in G, G0, G1, G2, G3, G4.
  destruct G as [-> _], G0 as [-> _], G1 as [-> _], G2 as [-> _], G3 as [-> _], G4 as [-> _].
  destruct (transpose_arrays _ _ _ _ _ _ _ _ _) as [[Ci Cp] Cx].
  apply bind_Ok in H. destruct H as (? & w2 & Efree & H).
  inversion H; subst. clear H.
  apply alloc_grown in Ez. destruct Ez as (E & N & B).
  unfold scs_free in Efree. destruct z as [|az cz]; inversion Efree; subst; clear Efree.
  - cbn [addr_of app] in E. split; [exact E|]. split; [simpl; lia|]. intros a [].
  - cbn [addr_of app] in E. cbn [live next]. rewrite E. cbn [List.remove].
    destruct (Nat.eq_dec az az) as [_|Hne]; [|contradiction].
    rewrite remove_fresh.
    + split; [reflexivity|]. split; [simpl; lia|]. intros a [].
    + intros Hin. specialize (Hf _ Hin). specialize (B az (or_introl eq_refl)). lia.
Qed.

Lemma remove_all_app rs1 rs2 l :
  remove_all (rs1 ++ rs2) l = remove_all rs2 (remove_all rs1 l).
Proof. unfold remove_all. apply fold_left_app. Qed.

Lemma remove_all_spec rs : forall l base,
  (forall a, In a l -> In a rs) ->
  (forall a, In a rs -> ~ In a base) ->
  remove_all rs (l ++ base) = base.
Proof.
  induction rs as [|r rs IH]; intros l base Hl Hb.
  - destruct l as [|x l]; [reflexivity|]. destruct (Hl x (or_introl eq_refl)).
  - cbn [remove_all fold_left]. rewrite remove_app.
    rewrite (notin_remove Nat.eq_dec base r) by (apply Hb; left; reflexivity).
    apply IH.
    + intros a Ha. apply in_remove in Ha. destruct Ha as [Ha Hne].
      destruct (Hl a Ha) as [<-|H]; [contradiction | exact H].
    + intros a Ha. apply Hb. right. exact Ha.
Qed.

Lemma addr_of_store {T} (q : ptr T) c : addr_of (store q c) = addr_of q.
Proof. destruct q; reflexivity. Qed.

Lemma scs_free_live {T} (q : ptr T) (w w' : World F) u :
  scs_free q w = Ok u w' -> live w' = remove_all (addr_of q) (live w).
Proof. destruct q; intros H; inversion H; reflexivity. Qed.

Lemma freePriv_live a (s : Priv.t F) (w w' : World F) u :
  freePriv (Ptr a [s]) w = Ok u w' ->
  live w' = remove_all (addrs_of s ++ [a]) (live w).
Proof.
  intros H. cbn [freePriv] in H.
  do 9 (apply bind_Ok in H; let E := fresh "E" in
        destruct H as (? & ? & E & H); apply scs_free_live in E).
  apply scs_free_live in H. cbn [addr_of] in H.
  unfold addrs_of. rewrite !remove_all_app.
  rewrite H, E7, E6, E5, E4, E3, E2, E1, E0, E. reflexivity.
Qed.

Lemma transpose_addrs (d : Data.t F) (p p' : Priv.t F) (w w' : World F) :
  transpose d p w = Ok p' w' -> addrs_of p' = addrs_of p.
Proof.
  intros H. unfold transpose in H.
  apply bind_Ok in H. destruct H as (z & w1 & Ez & H).
  do 6 (apply bind_Ok in H; destruct H as (? & ? & ?G & H)).
  destruct (transpose_arrays _ _ _ _ _ _ _ _ _) as [[Ci Cp] Cx].
  apply bind_Ok in H. destruct H as (? & w2 & _ & H).
  inversion H; subst. unfold addrs_of.
  cbn [Priv.p Priv.r Priv.Ap Priv.tmp Priv.z Priv.M Priv.Ati Priv.Atp Priv.Atx].
  rewrite !addr_of_store. reflexivity.
Qed.

Lemma getPreconditioner_world (d : Data.t F) (p p' : Priv.t F) (w w' : World F) :
  getPreconditioner d p w = Ok p' w' -> w' = w /\ addrs_of p' = addrs_of p.
Proof.
  unfold getPreconditioner. intros H.
  apply bind_Ok in H. destruct H as (? & ? & G & H).
  apply guard_Ok in G. destruct G as [-> _].
  inversion H; subst. split; [reflexivity|]. unfold addrs_of.
  cbn [Priv.p Priv.r Priv.Ap Priv.tmp Priv.z Priv.M Priv.Ati Priv.Atp Priv.Atx].
  rewrite addr_of_store. reflexivity.
Qed.

(** The blocks that are live when [initPriv] returns: none of its own with
    NULL, and with a handle exactly the blocks that [freePriv] releases. *)
Lemma initPriv_blocks (d : Data.t F) (w w' : World F) (q : ptr (Priv.t F)) :
  fresh w -> initPriv d w = Ok q w' ->
  (q = NULL /\ live w' = live w) \/
  (exists a s, q = Ptr a [s] /\ remove_all (addrs_of s ++ [a]) (live w') = live w).
Proof.
  intros Hf H. unfold initPriv in H.
  apply bind_Ok in H. destruct H as (p & w0 & E0 & H).
  apply bind_Ok in H. destruct H as (? & w0' & G0 & H).
  apply bind_Ok in H. destruct H as (p_p & w1 & E1 & H).
  apply bind_Ok in H. destruct H as (p_r & w2 & E2 & H).
  apply bind_Ok in H. destruct H as (p_Ap & w3 & E3 & H).
  apply bind_Ok in H. destruct H as (p_tmp & w4 & E4 & H).
  apply bind_Ok in H. destruct H as (p_z & w5 & E5 & H).
  apply bind_Ok in H. destruct H as (p_M & w6 & E6 & H).
  apply bind_Ok in H. destruct H as (p_Ati & w7 & E7 & H).
  apply bind_Ok in H. destruct H as (p_Atp & w8 & E8 & H).
  apply bind_Ok in H. destruct H as (p_Atx & w9 & E9 & H).
  apply bind_Ok in H. destruct H as (s1 & w10 & ET & H).
  apply bind_Ok in H. destruct H as (s2 & w11 & EP & H).
  apply bind_Ok in H. destruct H as (? & w12 & T1 & H).
  apply bind_Ok in H. destruct H as (? & w13 & T2 & H).
  apply guard_Ok in G0. destruct G0 as [-> Gp]. specialize (Gp eq_refl).
  destruct p as [|a0 cells]; [discriminate|]. cbn [store] in H.
  inversion T2; subst w13. inversion T1; subst w12.
  apply getPreconditioner_world in EP. destruct EP as [-> A2].
  pose proof (transpose_addrs _ _ _ _ _ ET) as A1.
  apply alloc_grown in E0, E1, E2, E3, E4, E5, E6, E7, E8, E9.
  pose proof (grown_trans _ _ _ _ _ E0 E1) as G1.
  pose proof (grown_trans _ _ _ _ _ G1 E2) as G2.
  pose proof (grown_trans _ _ _ _ _ G2 E3) as G3.
  pose proof (grown_trans _ _ _ _ _ G3 E4) as G4.
  pose proof (grown_trans _ _ _ _ _ G4 E5) as G5.
  pose proof (grown_trans _ _ _ _ _ G5 E6) as G6.
  pose proof (grown_trans _ _ _ _ _ G6 E7) as G7.
  pose proof (grown_trans _ _ _ _ _ G7 E8) as G8.
  pose proof (grown_trans _ _ _ _ _ G8 E9) as G9.
  pose proof (transpose_grown _ _ _ _ _ (grown_fresh _ _ _ Hf G9) ET) as G10.
  pose proof (grown_trans _ _ _ _ _ G9 G10) as G11.
  destruct G11 as (EL & _ & HB).
  assert (R : remove_all (addrs_of s2 ++ [a0]) (live w10) = live w).
  { rewrite A2, A1, EL. apply remove_all_spec.
    - intros a Ha. unfold addrs_of.
      cbn [Priv.p Priv.r Priv.Ap Priv.tmp Priv.z Priv.M Priv.Ati Priv.Atp Priv.Atx].
      cbn [addr_of app] in Ha. rewrite !in_app_iff in *. cbn [In] in *. tauto.
    - intros a Ha Hin. specialize (Hf a Hin).
      assert (In a ([] ++ addr_of p_Atx ++ addr_of p_Atp ++ addr_of p_Ati ++ addr_of p_M ++
                    addr_of p_z ++ addr_of p_tmp ++ addr_of p_Ap ++ addr_of p_r ++
                    addr_of p_p ++ addr_of (Ptr a0 cells))) as Ha'.
      { unfold addrs_of in Ha.
        cbn [Priv.p Priv.r Priv.Ap Priv.tmp Priv.z Priv.M Priv.Ati Priv.Atp Priv.Atx] in Ha.
        cbn [addr_of app]. rewrite !in_app_iff in *. cbn [In] in *. tauto. }
      specialize (HB a Ha'). lia. }
  match type of H with (if ?c then _ else _) _ = _ => destruct c end.
  - left. apply bind_Ok in H. destruct H as (? & w14 & EF & H).
    inversion H; subst. split; [reflexivity|].
    apply freePriv_live in EF. rewrite EF. exact R.
  - right. inversion H; subst. exists a0, s2. split; [reflexivity|]. exact R.
Qed.

Lemma scs_free_returns {T} (q : ptr T) (w : World F) :
  exists w', scs_free q w = Ok tt w'.
Proof. destruct q; eexists; reflexivity. Qed.

(** When [initPriv] reports failure, every block it has allocated has been
    released: the live blocks are those of before the call. *)
Lemma initPriv_failure_releases (d : Data.t F) (w w' : World F) :
  fresh w -> initPriv d w = Ok NULL w' -> live w' = live w.
Proof.
  intros Hf H.
  destruct (initPriv_blocks d w w' NULL Hf H) as [[_ E]|(a & s & E & _)];
    [exact E | discriminate].
Qed.

End Release.

(** C2: when the allocator refuses the block of [p->tmp], [initPriv] frees
    what it has allocated and returns NULL, as the claim has it; when it
    refuses the block of [p->z], which the test before the return does not
    look at, [initPriv] returns a handle whose [z] is NULL; when it refuses
    the [Priv] or the block of [p->M], [initPriv] stores through NULL. *)
Theorem initPriv_partial_handle :
  (exists w', initPriv d_id w_refuse_tmp = Ok NULL w' /\ live w' = []) /\
  (exists a s w',
     initPriv d_id w_refuse_z = Ok (Ptr a [s]) w' /\
     Priv.z s = NULL /\
     live w' <> []) /\
  initPriv d_id w_refuse_M = Fault /\
  initPriv d_id w_refuse_Priv = Fault.
Proof.
  split; [|split; [|split]].
  - eexists. split; vm_compute; reflexivity.
  - eexists; eexists; eexists. split; [vm_compute; reflexivity|].
    split; [reflexivity | discriminate].
  - vm_compute. reflexivity.
  - vm_compute. reflexivity.
Qed.

(** ** The running statistics *)

Section Stats.
Context {F : Type} {PF : PFloat F}.

(** C10: the two counters are fields of the state outside the handles
    ([World]), shared by every workspace, not fields of [Priv].  Whatever
    they hold, on behalf of whichever workspace, a call of [initPriv] that
    returns leaves both at zero; and [initPriv] does return, with a handle,
    when the matrix is valid and the allocator grants every request. *)
Theorem initPriv_resets_statistics (d : Data.t F) (w : World F) :
  (forall (q : ptr (Priv.t F)) (w' : World F),
     initPriv d w = Ok q w' -> totCgIts w' = 0 /\ totalSolveTime w' = f0) /\
  (valid_csc (Data.m d) (Data.n d) (Data.A d) -> grants_all w ->
   exists a s w',
     initPriv d w = Ok (Ptr a [s]) w' /\ totCgIts w' = 0 /\ totalSolveTime w' = f0).
Proof.
  assert (R : forall (q : ptr (Priv.t F)) (w' : World F),
            initPriv d w = Ok q w' -> totCgIts w' = 0 /\ totalSolveTime w' = f0).
  { intros q w'. unfold initPriv. intros H.
    do 13 (apply bind_Ok in H; destruct H as (? & ? & _ & H)).
    apply bind_Ok in H. destruct H as (u1 & w1 & E1 & H).
    apply bind_Ok in H. destruct H as (u2 & w2 & E2 & H).
    unfold set_totalSolveTime in E1. unfold set_totCgIts in E2.
    inversion E1; subst; clear E1. inversion E2; subst; clear E2.
    match type of H with (if ?c then ?a else ?b) _ = _ =>
      assert (K : keeps_stats (F:=F) (if c then a else b))
        by (destruct c;
            [apply keeps_bind; [apply keeps_freePriv | intros; apply keeps_ret]
            | apply keeps_ret])
    end.
    destruct (K _ _ _ H) as [K1 K2]. rewrite K1, K2. split; reflexivity. }
  split; [exact R|].
  intros V G. destruct (initPriv_returns d w V G) as (a & s & w' & E).
  exists a, s, w'. split; [exact E|]. exact (R _ _ E).
Qed.

(** What [solveLinSys] does to the state outside the handles. *)
Lemma solveLinSys_world (POWF : F -> F -> F) (d : Data.t F) (p : Priv.t F) (b : list F)
    (s : option (list F)) (iter : Z) (elapsed : F) (w : World F) :
  exists p' b',
    solveLinSys POWF d p b s iter elapsed w =
    Ok (p', b')
       (mk_world (oracle w) (next w) (live w) (indet w)
          (if 0 <=? iter then totCgIts w + cgIts POWF d p b s iter else totCgIts w)
          (fadd (totalSolveTime w) elapsed)).
Proof.
  unfold solveLinSys, cgIts.
  destruct (pcg d p s _ (Data.n d) (cgTol POWF d b iter)) as [[its p'] b'].
  cbn [fst]. eexists; eexists.
  destruct (0 <=? iter); reflexivity.
Qed.

End Stats.

Lemma valid_d_id : valid_csc (Data.m d_id) (Data.n d_id) (Data.A d_id).
Proof. apply valid_cscb_sound. vm_compute. reflexivity. Qed.

Lemma initPriv_resets_statistics_witness :
  totCgIts (world_of w_blk after_second) = 8 /\
  exists a s w',
    initPriv d_id (world_of w_blk after_second) = Ok (Ptr a [s]) w' /\
    totCgIts w' = 0 /\ totalSolveTime w' = 0%float.
Proof.
  split; [vm_compute; reflexivity|].
  refine (proj2 (initPriv_resets_statistics d_id (world_of w_blk after_second)) _ _).
  - exact valid_d_id.
  - unfold grants_all. vm_compute. constructor.
Defined.

(** C9: from counters at zero, two solves at non-negative outer-iteration
    indices that take 3 and 5 CG iterations, then the summary for
    [info->iter = 1]: the summary reports the average 8 / (1 + 1) = 4
    iterations and leaves both counters at zero. *)
Theorem summary_after_two_solves (POWF : float -> float -> float) (d : Data.t float)
    (p0 p1 p2 : Priv.t float) (b1 b1' b2 b2' : list float) (s1 s2 : option (list float))
    (i1 i2 : Z) (t1 t2 : float) (w0 w1 w2 : World float) :
  totCgIts w0 = 0 ->
  grants w0 ->
  0 <= i1 -> 0 <= i2 ->
  solveLinSys POWF d p0 b1 s1 i1 t1 w0 = Ok (p1, b1') w1 ->
  cgIts POWF d p0 b1 s1 i1 = 3 ->
  solveLinSys POWF d p1 b2 s2 i2 t2 w1 = Ok (p2, b2') w2 ->
  cgIts POWF d p1 b2 s2 i2 = 5 ->
  exists a t w3,
    getLinSysSummary p2 1 w2 = Ok (Ptr a [4%float; t]) w3 /\
    totCgIts w3 = 0 /\ totalSolveTime w3 = 0%float.
Proof.
  intros H0 Hg Hi1 Hi2 E1 C1 E2 C2.
  destruct (solveLinSys_world POWF d p0 b1 s1 i1 t1 w0) as (p1' & b1'' & E1').
  rewrite E1' in E1. inversion E1; subst; clear E1 E1'.
  match type of E2 with solveLinSys _ _ ?p _ _ _ _ ?w = _ =>
    destruct (solveLinSys_world POWF d p b2 s2 i2 t2 w) as (p2' & b2'' & E2') end.
  rewrite E2' in E2. inversion E2; subst; clear E2 E2'.
  cbn [oracle next live indet totCgIts totalSolveTime].
  destruct (Z.leb_spec 0 i1); [|lia]. destruct (Z.leb_spec 0 i2); [|lia].
  rewrite H0, C1, C2.
  unfold getLinSysSummary, bind, scs_malloc.
  match goal with |- context [alloc ?f ?l ?w] =>
    destruct (alloc_grants f l w Hg) as (o' & Ea); rewrite Ea end.
  cbn. eexists; eexists; eexists. split; [reflexivity|]. split; reflexivity.
Qed.

Lemma summary_after_two_solves_witness :
  exists a t w3,
    getLinSysSummary (fst (value_of (p_blk, []) after_second)) 1 (world_of w_blk after_second)
      = Ok (Ptr a [4%float; t]) w3 /\
    totCgIts w3 = 0 /\ totalSolveTime w3 = 0%float.
Proof.
  apply (summary_after_two_solves pow_rate0 d_blk p_blk
           (fst (value_of (p_blk, []) after_first))
           (fst (value_of (p_blk, []) after_second))
           b_first (snd (value_of (p_blk, []) after_first))
           b_second (snd (value_of (p_blk, []) after_second))
           None None 0 1 1.5%float 2.5%float
           w_blk (world_of w_blk after_first) (world_of w_blk after_second)).
  - vm_compute. reflexivity.
  - vm_compute. exact I.
  - lia.
  - lia.
  - vm_compute. reflexivity.
  - vm_compute. reflexivity.
  - vm_compute. reflexivity.
  - vm_compute. reflexivity.
Defined.

(* ================================================================= *)
Local Open Scope Z_scope.

(** * Further properties of the code *)

(** ** The vector loops *)

Lemma list_eq_get {T} (d : T) (a b : list T) :
  length a = length b ->
  (forall j, 0 <= j < Z.of_nat (length a) -> get d a j = get d b j) ->
  a = b.
Proof.
  intros L H. apply (nth_ext a b d d L). intros k Hk.
  specialize (H (Z.of_nat k) ltac:(lia)). unfold get in H.
  destruct (Z.ltb_spec (Z.of_nat k) 0); [lia|]. rewrite Nat2Z.id in H. exact H.
Qed.

Lemma length_offset {T} (a : list T) k :
  0 <= k <= Z.of_nat (length a) -> Z.of_nat (length (offset a k)) = Z.of_nat (length a) - k.
Proof. intros H. unfold offset. rewrite length_skipn. lia. Qed.

(** Two arrays of one length that agree from cell [n] on have the same
    part from [&a[n]] on. *)
Lemma offset_eq {T} (d : T) (a b : list T) n :
  0 <= n -> length a = length b ->
  (forall j, n <= j -> get d a j = get d b j) ->
  offset a n = offset b n.
Proof.
  intros Hn L H. destruct (Z.le_gt_cases n (Z.of_nat (length a))) as [Hle|Hgt].
  - apply (list_eq_get d).
    + apply Nat2Z.inj. rewrite !length_offset by lia. lia.
    + intros j Hj. rewrite !get_offset by lia. apply H. lia.
  - unfold offset. rewrite !skipn_all2 by lia. reflexivity.
Qed.

Lemma length_memcpy {T} (dst src : list T) n :
  0 <= n <= Z.of_nat (length src) -> n <= Z.of_nat (length dst) ->
  length (memcpy dst src n) = length dst.
Proof.
  intros H1 H2. unfold memcpy. rewrite length_app, length_firstn, length_skipn. lia.
Qed.

Lemma get_memcpy_lt {T} (d : T) (dst src : list T) n j :
  0 <= j < n -> n <= Z.of_nat (length src) -> get d (memcpy dst src n) j = get d src j.
Proof.
  intros Hj Hn. unfold memcpy, get. destruct (Z.ltb_spec j 0); [lia|].
  rewrite app_nth1 by (rewrite length_firstn; lia).
  rewrite nth_firstn. destruct (Nat.ltb_spec (Z.to_nat j) (Z.to_nat n)); [reflexivity | lia].
Qed.

Lemma get_memcpy_ge {T} (d : T) (dst src : list T) n j :
  0 <= n <= Z.of_nat (length src) -> n <= j ->
  get d (memcpy dst src n) j = get d dst j.
Proof.
  intros Hn Hj. unfold memcpy, get. destruct (Z.ltb_spec j 0); [lia|].
  rewrite app_nth2 by (rewrite length_firstn; lia).
  rewrite length_firstn, nth_skipn. f_equal. lia.
Qed.

Lemma set_get_same {T} (d : T) (a : list T) i : set a i (get d a i) = a.
Proof.
  unfold set, get. destruct (Z.ltb_spec i 0); [reflexivity|].
  generalize (Z.to_nat i). clear. induction a as [|h t IH]; intros [|k]; simpl; auto.
  f_equal. apply IH.
Qed.

Section Vectors.
Context {F : Type} {PF : PFloat F}.
Local Open Scope pf_scope.

Lemma scaleArray_spec (a : list F) (b : F) len :
  0 <= len <= Z.of_nat (length a) ->
  let a' := scaleArray a b len in
  length a' = length a /\
  (forall j, 0 <= j < len -> a'.[j] = a.[j] *: b) /\
  (forall j, len <= j -> a'.[j] = a.[j]).
Proof.
  intros Hn. cbv zeta. unfold scaleArray.
  pose (P := fun (i : Z) (a' : list F) =>
    length a' = length a /\
    (forall j, 0 <= j < i -> a'.[j] = a.[j] *: b) /\
    (forall j, i <= j -> a'.[j] = a.[j])).
  apply (for_loop_inv P); [lia| |].
  - unfold P. split; [auto|]. split; [intros; lia | auto].
  - intros i s Hi (L & G1 & G2). unfold P.
    rewrite length_set. split; [auto|]. split.
    + intros j Hj. destruct (Z.eq_dec j i) as [->|Hne].
      * rewrite get_set_eq by lia. rewrite G2 by lia. reflexivity.
      * rewrite get_set_neq by auto. apply G1. lia.
    + intros j Hj. rewrite get_set_neq by lia. apply G2. lia.
Qed.

(** [applyPreConditioner]: z = M r on the first [n] cells, and [*ipzr] is the
    inner product of the new [z] and [r]. *)
Lemma applyPreConditioner_spec (M z r : list F) n :
  0 <= n <= Z.of_nat (length z) ->
  let z' := fst (applyPreConditioner M z r n) in
  let ipzr := snd (applyPreConditioner M z r n) in
  length z' = length z /\
  (forall j, 0 <= j < n -> z'.[j] = r.[j] *: M.[j]) /\
  (forall j, n <= j -> z'.[j] = z.[j]) /\
  ipzr = innerProd z' r n.
Proof.
  intros Hn. cbv zeta. unfold applyPreConditioner.
  set (body := fun (i : Z) (st : list F * F) => _).
  pose (P := fun (i : Z) (st : list F * F) =>
    length (fst st) = length z /\
    (forall j, 0 <= j < i -> (fst st).[j] = r.[j] *: M.[j]) /\
    (forall j, i <= j -> (fst st).[j] = z.[j]) /\
    snd st = for_loop 0 i (fun k ip => ip +: (r.[k] *: M.[k]) *: r.[k]) f0).
  assert (H : P n (for_loop 0 n body (z, f0))).
  { apply for_loop_inv; [lia| |].
    - unfold P. cbn [fst snd]. split; [auto|]. split; [intros; lia|].
      split; [auto|]. rewrite for_loop_nil by lia. reflexivity.
    - intros i [zi ip] Hi (L & G1 & G2 & G3). cbn [fst snd] in *. unfold P, body.
      cbn [fst snd]. rewrite length_set. split; [auto|]. split; [|split].
      + intros j Hj. destruct (Z.eq_dec j i) as [->|Hne].
        * rewrite get_set_eq by lia. reflexivity.
        * rewrite get_set_neq by auto. apply G1. lia.
      + intros j Hj. rewrite get_set_neq by lia. apply G2. lia.
      + rewrite for_loop_last by lia. rewrite <- G3.
        rewrite get_set_eq by lia. reflexivity. }
  destruct H as (L & G1 & G2 & G3).
  split; [exact L|]. split; [exact G1|]. split; [exact G2|].
  rewrite G3. unfold innerProd. apply for_loop_ext.
  intros i s Hi. rewrite G1 by lia. reflexivity.
Qed.

End Vectors.

Lemma get_app_zrange {T} (d : T) (f : Z -> T) (tl : list T) n j :
  0 <= n ->
  get d (map f (zrange 0 n) ++ tl) j =
  if (0 <=? j) && (j <? n) then f j else if j <? 0 then d else get d tl (j - n).
Proof.
  intros Hn. unfold get at 1. destruct (Z.ltb_spec j 0) as [Hneg|Hpos].
  - destruct (Z.leb_spec 0 j); [lia|]. reflexivity.
  - destruct (Z.leb_spec 0 j); [|lia]. cbn [andb].
    destruct (Z.ltb_spec j n) as [Hlt|Hge].
    + rewrite app_nth1 by (rewrite length_map, length_zrange; lia).
      pose proof (get_map_zrange f n j d ltac:(lia)) as G. unfold get in G.
      destruct (Z.ltb_spec j 0); [lia|]. exact G.
    + rewrite app_nth2 by (rewrite length_map, length_zrange; lia).
      rewrite length_map, length_zrange. unfold get.
      destruct (Z.ltb_spec (j - n) 0); [lia|]. f_equal. lia.
Qed.

Section VectorTheorems.
Context {F : Type} {PF : PFloat F}.
Local Open Scope pf_scope.

Lemma cells_closed_form (y y' : list F) (f : Z -> F) n :
  0 <= n <= Z.of_nat (length y) ->
  length y' = length y ->
  (forall j, 0 <= j < n -> y'.[j] = f j) ->
  (forall j, n <= j -> y'.[j] = y.[j]) ->
  y' = map f (zrange 0 n) ++ offset y n.
Proof.
  intros Hn L G1 G2. apply (list_eq_get f0).
  - rewrite L, length_app, length_map, length_zrange. unfold offset.
    rewrite length_skipn. lia.
  - intros j Hj. rewrite get_app_zrange by lia.
    destruct (Z.leb_spec 0 j); [|lia]. cbn [andb].
    destruct (Z.ltb_spec j n).
    + apply G1. lia.
    + destruct (Z.ltb_spec j 0); [lia|]. rewrite get_offset by lia.
      rewrite G2 by lia. f_equal. lia.
Qed.

(** [applyPreConditioner] overwrites the first [n] cells of [z] with
    r[i] * M[i], leaves the others, and returns in [*ipzr] the inner product
    of the new [z] with [r]. *)
Theorem applyPreConditioner_correct (M z r : list F) (n : idxint) :
  0 <= n <= Z.of_nat (length z) ->
  fst (applyPreConditioner M z r n) =
    map (fun i => r.[i] *: M.[i]) (zrange 0 n) ++ offset z n /\
  snd (applyPreConditioner M z r n) = innerProd (fst (applyPreConditioner M z r n)) r n.
Proof.
  intros Hn. destruct (applyPreConditioner_spec M z r n Hn) as (L & G1 & G2 & G3).
  split; [|exact G3]. apply cells_closed_form; assumption.
Qed.

(** The cells of [y] after [accumByAtrans]. *)
Lemma accumByAtrans_cells (d : Data.t F) (p : Priv.t F) (x y : list F) :
  0 <= Data.n d <= Z.of_nat (length y) ->
  length (accumByAtrans d p x y) = length y /\
  (forall j, 0 <= j < Data.n d ->
     (accumByAtrans d p x y).[j] =
     fold_left (fun acc e => acc +: e_val e *: x.[e_row e])
       (in_col j (entries_of (Data.n d) (Data.A d))) y.[j]) /\
  (forall j, Data.n d <= j -> (accumByAtrans d p x y).[j] = y.[j]).
Proof.
  intros Hn. unfold accumByAtrans.
  destruct (_accumByAtrans_spec (Data.n d) (AMatrix.x (Data.A d)) (AMatrix.i (Data.A d))
              (AMatrix.p (Data.A d)) x y Hn) as (L & G1 & G2).
  split; [exact L|]. split; [|exact G2].
  intros j Hj. rewrite G1 by lia. unfold entries_of. rewrite in_col_entries by lia.
  reflexivity.
Qed.

(** The cells of [y] after [accumByA], through the transpose cache. *)
Lemma accumByA_cells (d : Data.t F) (p : Priv.t F) (x y : list F) :
  is_transpose_cache d p ->
  Data.m d <= Z.of_nat (length y) ->
  length (accumByA d p x y) = length y /\
  (forall i, 0 <= i < Data.m d ->
     (accumByA d p x y).[i] =
     fold_left (fun acc e => acc +: e_val e *: x.[e_col e])
       (in_row i (entries_of (Data.n d) (Data.A d))) y.[i]) /\
  (forall i, Data.m d <= i -> (accumByA d p x y).[i] = y.[i]).
Proof.
  intros [VC HC] Hm. pose proof (csc_n VC) as Hm0. unfold accumByA.
  destruct (_accumByAtrans_spec (Data.m d) (deref (Priv.Atx p)) (deref (Priv.Ati p))
              (deref (Priv.Atp p)) x y ltac:(lia)) as (L & G1 & G2).
  split; [exact L|]. split; [|exact G2].
  intros i Hi. rewrite G1 by lia.
  unfold At_of in HC. cbn [AMatrix.p AMatrix.i AMatrix.x] in HC.
  rewrite HC by lia. apply fold_left_swap_entries.
Qed.

(** [accumByAtrans] adds A'x to [y]: cell [j] of the result, for [j < n],
    is y[j] plus the products of the nonzeros of column [j] of A with the
    cells of [x] at their rows, added one after the other in storage order;
    nothing of [y] is cleared first, and the cells from [n] on are kept. *)
Theorem accumByAtrans_adds (d : Data.t F) (p : Priv.t F) (x y : list F) :
  0 <= Data.n d <= Z.of_nat (length y) ->
  accumByAtrans d p x y =
  map (fun j => fold_left (fun acc e => acc +: e_val e *: x.[e_row e])
                  (in_col j (entries_of (Data.n d) (Data.A d))) y.[j])
      (zrange 0 (Data.n d))
  ++ offset y (Data.n d).
Proof.
  intros Hn. destruct (accumByAtrans_cells d p x y Hn) as (L & G1 & G2).
  apply cells_closed_form; assumption.
Qed.

(** [accumByA] adds A x to [y] through the transpose cache: cell [i] of the
    result, for [i < m], is y[i] plus the products of the nonzeros of row
    [i] of A with the cells of [x] at their columns, in the storage order of
    A; the cells from [m] on are kept. *)
Theorem accumByA_adds (d : Data.t F) (p : Priv.t F) (x y : list F) :
  is_transpose_cache d p ->
  Data.m d <= Z.of_nat (length y) ->
  accumByA d p x y =
  map (fun i => fold_left (fun acc e => acc +: e_val e *: x.[e_col e])
                  (in_row i (entries_of (Data.n d) (Data.A d))) y.[i])
      (zrange 0 (Data.m d))
  ++ offset y (Data.m d).
Proof.
  intros C Hm. destruct (accumByA_cells d p x y C Hm) as (L & G1 & G2).
  apply cells_closed_form; try assumption.
  destruct C as [VC _]. pose proof (csc_n VC). lia.
Qed.

End VectorTheorems.

Lemma applyPreConditioner_correct_witness :
  fst (applyPreConditioner [0.5; 0.25]%float [9; 9; 7]%float [2; 4]%float 2) =
    map (fun i => fmul (get f0 [2; 4]%float i) (get f0 [0.5; 0.25]%float i)) (zrange 0 2)
      ++ offset [9; 9; 7]%float 2 /\
  snd (applyPreConditioner [0.5; 0.25]%float [9; 9; 7]%float [2; 4]%float 2) =
    innerProd (fst (applyPreConditioner [0.5; 0.25]%float [9; 9; 7]%float [2; 4]%float 2))
      [2; 4]%float 2.
Proof.
  apply (applyPreConditioner_correct [0.5; 0.25]%float [9; 9; 7]%float [2; 4]%float 2).
  simpl. lia.
Defined.

Lemma accumByAtrans_adds_witness :
  accumByAtrans d_blk p_blk [1; 2; 3; 4; 5]%float [9; 9; 9; 9; 9; 7]%float =
  map (fun j => fold_left
                  (fun acc e => fadd acc (fmul (e_val e) (get f0 [1; 2; 3; 4; 5]%float (e_row e))))
                  (in_col j (entries_of 5 A_blk)) (get f0 [9; 9; 9; 9; 9; 7]%float j))
      (zrange 0 5)
  ++ offset [9; 9; 9; 9; 9; 7]%float 5.
Proof.
  apply (accumByAtrans_adds d_blk p_blk [1; 2; 3; 4; 5]%float [9; 9; 9; 9; 9; 7]%float).
  simpl. lia.
Defined.

Lemma accumByA_adds_witness :
  accumByA d_blk p_blk [1; 2; 3; 4; 5]%float [9; 9; 9; 9; 9; 7]%float =
  map (fun i => fold_left
                  (fun acc e => fadd acc (fmul (e_val e) (get f0 [1; 2; 3; 4; 5]%float (e_col e))))
                  (in_row i (entries_of 5 A_blk)) (get f0 [9; 9; 9; 9; 9; 7]%float i))
      (zrange 0 5)
  ++ offset [9; 9; 9; 9; 9; 7]%float 5.
Proof.
  apply (accumByA_adds d_blk p_blk [1; 2; 3; 4; 5]%float [9; 9; 9; 9; 9; 7]%float cache_p_blk).
  simpl. lia.
Defined.

(** ** The locals of pcg *)

Section PcgShape.
Context {F : Type} {PF : PFloat F}.
Local Open Scope pf_scope.

Lemma length_A_times (d : Data.t F) x : 0 <= Data.m d ->
  Z.of_nat (length (A_times d x)) = Data.m d.
Proof. intros H. unfold A_times. rewrite length_map, length_zrange. lia. Qed.

Lemma length_operator (d : Data.t F) x : 0 <= Data.n d ->
  Z.of_nat (length (operator d x)) = Data.n d.
Proof. intros H. unfold operator. rewrite length_map, length_zrange. lia. Qed.

Lemma length_addScaledArray (a b : list F) n sc :
  0 <= n <= Z.of_nat (length a) -> length (addScaledArray a b n sc) = length a.
Proof. intros H. apply (addScaledArray_spec a b n sc H). Qed.

Lemma length_scaleArray (a : list F) b n :
  0 <= n <= Z.of_nat (length a) -> length (scaleArray a b n) = length a.
Proof. intros H. apply (scaleArray_spec a b n H). Qed.

Lemma length_applyPreConditioner (M z r : list F) n :
  0 <= n <= Z.of_nat (length z) -> length (fst (applyPreConditioner M z r n)) = length z.
Proof. intros H. apply (applyPreConditioner_spec M z r n H). Qed.

Lemma offset_addScaledArray (a b : list F) n sc :
  0 <= n <= Z.of_nat (length a) -> offset (addScaledArray a b n sc) n = offset a n.
Proof.
  intros H. destruct (addScaledArray_spec a b n sc H) as (L & _ & G).
  apply (offset_eq f0); [lia | exact L | exact G].
Qed.

(** One pass of the loop keeps the lengths of the locals and touches only
    the first [n] cells of the solution buffer. *)
Lemma pcg_body_shape (d : Data.t F) (pr : Priv.t F) tol (st : @cg_state F) :
  valid_csc (Data.m d) (Data.n d) (Data.A d) ->
  is_transpose_cache d pr ->
  cg_lengths d st ->
  Data.n d <= Z.of_nat (length (cg_b st)) ->
  let st' := snd (pcg_body d pr tol st) in
  cg_lengths d st' /\
  length (cg_b st') = length (cg_b st) /\
  offset (cg_b st') (Data.n d) = offset (cg_b st) (Data.n d).
Proof.
  intros V C (Lp & Lr & LAp & Lz & Ltmp) Lb. cbv zeta.
  pose proof (csc_m V) as Hm. pose proof (csc_n V) as Hn.
  unfold pcg_body.
  rewrite (matVec_operator d pr (cg_tmp st) (cg_p st) (cg_Ap st) V C Ltmp LAp).
  set (alpha := cg_ipzr st /: _).
  pose proof (length_A_times d (cg_p st) Hm) as LA.
  pose proof (length_operator d (cg_p st) Hn) as LO.
  assert (Lb' : length (addScaledArray (cg_b st) (cg_p st) (Data.n d) alpha) = length (cg_b st))
    by (apply length_addScaledArray; lia).
  assert (Ob' : offset (addScaledArray (cg_b st) (cg_p st) (Data.n d) alpha) (Data.n d) =
                offset (cg_b st) (Data.n d))
    by (apply offset_addScaledArray; lia).
  assert (Lr' : length (addScaledArray (cg_r st) (operator d (cg_p st)) (Data.n d) (-: alpha))
                = length (cg_r st))
    by (apply length_addScaledArray; lia).
  destruct (calcNorm _ _ <:? tol).
  - cbn [snd cg_b]. unfold cg_lengths. cbn [cg_p cg_r cg_Ap cg_z cg_tmp].
    repeat split; try assumption; lia.
  - destruct (applyPreConditioner _ _ _ _) as [z ipzr] eqn:E.
    assert (Lz' : length z = length (cg_z st)).
    { change z with (fst (z, ipzr)). rewrite <- E. apply length_applyPreConditioner. lia. }
    cbn [snd cg_b]. unfold cg_lengths. cbn [cg_p cg_r cg_Ap cg_z cg_tmp].
    rewrite length_addScaledArray by (rewrite length_scaleArray; lia).
    rewrite length_scaleArray by lia.
    repeat split; try assumption; lia.
Qed.

Lemma pcg_loop_shape (d : Data.t F) (pr : Priv.t F) tol k : forall i (st : @cg_state F),
  valid_csc (Data.m d) (Data.n d) (Data.A d) ->
  is_transpose_cache d pr ->
  cg_lengths d st ->
  Data.n d <= Z.of_nat (length (cg_b st)) ->
  let st' := snd (pcg_loop d pr tol k i st) in
  cg_lengths d st' /\
  length (cg_b st') = length (cg_b st) /\
  offset (cg_b st') (Data.n d) = offset (cg_b st) (Data.n d).
Proof.
  induction k as [|k IH]; intros i st V C L Lb; cbv zeta.
  - cbn [pcg_loop snd]. auto.
  - cbn [pcg_loop].
    pose proof (pcg_body_shape d pr tol st V C L Lb) as H. cbv zeta in H.
    destruct (pcg_body d pr tol st) as [[|] st1]; cbn [snd] in H |- *; [exact H|].
    destruct H as (L1 & Lb1 & O1).
    specialize (IH (i + 1) st1 V C L1 ltac:(lia)). cbv zeta in IH.
    destruct IH as (L2 & Lb2 & O2).
    split; [exact L2|]. split; congruence.
Qed.

(** The initialisation sets up locals of the right lengths and touches only
    the first [n] cells of [b]. *)
Lemma pcg_init_shape (d : Data.t F) (pr : Priv.t F) s (b : list F) :
  valid_csc (Data.m d) (Data.n d) (Data.A d) ->
  ready d pr ->
  warm_start_fits d s ->
  Data.n d <= Z.of_nat (length b) ->
  let st := pcg_init d pr s b in
  cg_lengths d st /\
  length (cg_b st) = length b /\
  offset (cg_b st) (Data.n d) = offset b (Data.n d).
Proof.
  intros V (Pp & Pr & PAp & Ptmp & Pz & PM & C) Hs Lb. cbv zeta.
  pose proof (csc_m V) as Hm. pose proof (csc_n V) as Hn.
  destruct Pp as (a1 & vp & Ep & Lp). destruct Pr as (a2 & vr & Er & Lr).
  destruct PAp as (a3 & vAp & EAp & LAp). destruct Ptmp as (a4 & vtmp & Etmp & Ltmp).
  destruct Pz as (a5 & vz & Ez & Lz). destruct PM as (a6 & vM & EM & LM).
  unfold pcg_init. rewrite Ep, Er, EAp, Etmp, Ez, EM. cbn [deref].
  destruct s as [s0|]; cbn [warm_start_fits] in Hs.
  - rewrite (matVec_operator d pr vtmp s0 vr V C Ltmp Lr).
    pose proof (length_A_times d s0 Hm) as LA.
    pose proof (length_operator d s0 Hn) as LO.
    set (r1 := scaleArray _ _ _).
    assert (Lr1 : Z.of_nat (length r1) = Data.n d).
    { unfold r1. rewrite length_scaleArray; rewrite length_addScaledArray; lia. }
    destruct (applyPreConditioner vM vz r1 (Data.n d)) as [z ipzr] eqn:E.
    assert (Lz' : length z = length vz).
    { change z with (fst (z, ipzr)). rewrite <- E. apply length_applyPreConditioner. lia. }
    cbn [cg_b]. unfold cg_lengths. cbn [cg_p cg_r cg_Ap cg_z cg_tmp].
    rewrite (length_memcpy vp z) by lia.
    rewrite (length_memcpy b s0) by lia.
    split; [repeat split; lia|]. split; [reflexivity|].
    unfold memcpy, offset. rewrite skipn_app, length_firstn.
    rewrite skipn_firstn_comm.
    replace (Z.to_nat (Data.n d) - Z.to_nat (Data.n d))%nat with O by lia.
    replace (Z.to_nat (Data.n d) - Nat.min (Z.to_nat (Data.n d)) (length s0))%nat with O by lia.
    reflexivity.
  - set (r1 := memcpy vr b (Data.n d)).
    assert (Lr1 : Z.of_nat (length r1) = Data.n d).
    { unfold r1. rewrite length_memcpy; lia. }
    destruct (applyPreConditioner vM vz r1 (Data.n d)) as [z ipzr] eqn:E.
    assert (Lz' : length z = length vz).
    { change z with (fst (z, ipzr)). rewrite <- E. apply length_applyPreConditioner. lia. }
    cbn [cg_b]. unfold cg_lengths. cbn [cg_p cg_r cg_Ap cg_z cg_tmp].
    rewrite (length_memcpy vp z) by lia.
    rewrite length_memset0 by lia.
    split; [repeat split; lia|]. split; [reflexivity|].
    unfold memset0, offset. rewrite skipn_app, repeat_length.
    rewrite skipn_all2 by (rewrite repeat_length; lia).
    replace (Z.to_nat (Data.n d) - Z.to_nat (Data.n d))%nat with O by lia.
    reflexivity.
Qed.

End PcgShape.

(** ** pcg and solveLinSys *)

Section SolveEdges.
Context {F : Type} {PF : PFloat F}.
Local Open Scope pf_scope.

Lemma pcg_loop_first (d : Data.t F) (pr : Priv.t F) tol k i (st : @cg_state F) :
  i + 1 <= fst (pcg_loop d pr tol (S k) i st).
Proof.
  destruct (pcg_loop d pr tol (S k) i st) as [its st'] eqn:E. cbn [fst].
  cbn [pcg_loop] in E. destruct (pcg_body d pr tol st) as [[|] st1].
  - inversion E. lia.
  - apply pcg_loop_count in E. lia.
Qed.

Lemma cg_b_pcg_init (d : Data.t F) (pr : Priv.t F) s (b : list F) :
  cg_b (pcg_init d pr s b) =
  match s with
  | None => memset0 f0 b (Data.n d)
  | Some s0 => memcpy b s0 (Data.n d)
  end.
Proof.
  unfold pcg_init. destruct s as [s0|].
  - destruct (matVec _ _ _ _ _) as [tmp r].
    destruct (applyPreConditioner _ _ _ _) as [z ipzr]. reflexivity.
  - destruct (applyPreConditioner _ _ _ _) as [z ipzr]. reflexivity.
Qed.

(** The convergence test of [pcg] comes after the update: with a positive
    budget [pcg] makes at least one pass, whatever the residual of the
    starting point is, and never returns 0.  With no budget it returns 0
    and leaves the starting point in the first [n] cells of [b]: the warm
    start, or zero. *)
Theorem pcg_first_pass (d : Data.t F) (pr : Priv.t F) (s : option (list F)) (b : list F)
    (max_its : idxint) (tol : F) :
  (1 <= max_its -> 1 <= fst (fst (pcg d pr s b max_its tol)) <= max_its) /\
  (max_its <= 0 ->
   fst (fst (pcg d pr s b max_its tol)) = 0 /\
   snd (pcg d pr s b max_its tol) =
     match s with
     | None => memset0 f0 b (Data.n d)
     | Some s0 => memcpy b s0 (Data.n d)
     end).
Proof.
  unfold pcg, pcg_run. split.
  - intros H.
    destruct (pcg_loop d pr tol (Z.to_nat max_its) 0 (pcg_init d pr s b)) as [its st] eqn:E.
    cbn [fst].
    pose proof (pcg_loop_count _ _ _ _ _ _ _ _ E) as (H1 & _).
    replace (Z.to_nat max_its) with (S (Z.to_nat (max_its - 1))) in E by lia.
    pose proof (pcg_loop_first d pr tol (Z.to_nat (max_its - 1)) 0 (pcg_init d pr s b)) as H2.
    rewrite E in H2. cbn [fst] in H2. lia.
  - intros H. replace (Z.to_nat max_its) with O by lia. cbn [pcg_loop fst snd].
    split; [reflexivity | apply cg_b_pcg_init].
Qed.

(** What a call of [solveLinSys] returns. *)
Lemma solveLinSys_result (POWF : F -> F -> F) (d : Data.t F) (p : Priv.t F) (b : list F)
    (s : option (list F)) (iter : Z) (elapsed : F) (w w' : World F) p' b' :
  solveLinSys POWF d p b s iter elapsed w = Ok (p', b') w' ->
  let run := pcg d p s (accumByAtrans d p (offset b (Data.n d)) b) (Data.n d)
               (cgTol POWF d b iter) in
  p' = snd (fst run) /\
  b' = at_offset
         (at_offset (snd run) (Data.n d) (fun y => scaleArray y (-: f1) (Data.m d)))
         (Data.n d)
         (fun y => accumByA d p'
            (at_offset (snd run) (Data.n d) (fun y => scaleArray y (-: f1) (Data.m d))) y).
Proof.
  unfold solveLinSys. cbv zeta.
  destruct (pcg d p s _ (Data.n d) (cgTol POWF d b iter)) as [[its p2] b2].
  cbn [fst snd]. intros H.
  apply bind_Ok in H. destruct H as (? & ? & _ & H).
  apply bind_Ok in H. destruct H as (? & ? & _ & H).
  apply bind_Ok in H. destruct H as (? & ? & _ & H).
  inversion H; subst. split; reflexivity.
Qed.

Lemma _accumByAtrans_empty n (Ax : list F) (Ai Ap : list idxint) (x y : list F) :
  (forall j, 0 <= j < n -> Ap.<[j + 1]> <= Ap.<[j]>) ->
  _accumByAtrans n Ax Ai Ap x y = y.
Proof.
  intros H. unfold _accumByAtrans.
  destruct (Z.le_gt_cases 0 n) as [Hn|Hn]; [|apply for_loop_nil; lia].
  apply (for_loop_inv (fun _ s => s = y)); [lia | reflexivity |].
  intros i s Hi ->. rewrite for_loop_nil by (apply H; lia). apply set_get_same.
Qed.

(** A matrix without rows stores no nonzero. *)
Lemma no_rows_no_entries n (A : AMatrix.t F) :
  valid_csc 0 n A ->
  forall j, 0 <= j < n -> (AMatrix.p A).<[j + 1]> <= (AMatrix.p A).<[j]>.
Proof.
  intros V j Hj.
  assert (Hnn : (AMatrix.p A).<[n]> <= 0).
  { destruct (Z.le_gt_cases (AMatrix.p A).<[n]> 0) as [H|H]; [exact H|].
    pose proof (csc_rows V (k:=0) ltac:(lia)). lia. }
  pose proof (csc_p_nonneg 0 n A j V ltac:(lia)) as H0.
  destruct (flat_map_zrange (AMatrix.p A) (j + 1) n ltac:(lia)) as [_ L].
  { intros; apply (csc_mono V); lia. }
  lia.
Qed.

(** With a matrix of no rows ([m = 0]) the fold of the second block into the
    right-hand side and the back-substitution do nothing: [solveLinSys]
    returns what [pcg] returns on [b] itself. *)
Theorem solveLinSys_no_rows (POWF : F -> F -> F) (d : Data.t F) (p : Priv.t F)
    (b : list F) (s : option (list F)) (iter : Z) (elapsed : F) (w w' : World F) p' b' :
  valid_csc (Data.m d) (Data.n d) (Data.A d) ->
  Data.m d = 0 ->
  solveLinSys POWF d p b s iter elapsed w = Ok (p', b') w' ->
  p' = snd (fst (pcg d p s b (Data.n d) (cgTol POWF d b iter))) /\
  b' = snd (pcg d p s b (Data.n d) (cgTol POWF d b iter)).
Proof.
  intros V Hm0 H. apply solveLinSys_result in H. cbv zeta in H.
  rewrite Hm0 in V.
  assert (E : accumByAtrans d p (offset b (Data.n d)) b = b).
  { unfold accumByAtrans. apply _accumByAtrans_empty. apply no_rows_no_entries. exact V. }
  rewrite E in H. destruct H as [-> ->]. split; [reflexivity|].
  rewrite Hm0. unfold at_offset at 1. unfold accumByA, _accumByAtrans.
  rewrite for_loop_nil by lia.
  unfold at_offset, scaleArray. rewrite for_loop_nil by lia.
  unfold offset. rewrite firstn_skipn. rewrite firstn_skipn. reflexivity.
Qed.

End SolveEdges.

Section SolveBlocks.
Context {F : Type} {PF : PFloat F}.
Local Open Scope pf_scope.

Lemma points_to_store_len {T} (q : ptr T) len c :
  points_to q len -> Z.of_nat (length c) = len -> points_to (store q c) len.
Proof.
  intros (a & c0 & -> & _) Hc. exists a, c. split; [reflexivity | exact Hc].
Qed.

(** The locals of the run of [pcg] inside [solveLinSys]. *)
Lemma pcg_run_shape (d : Data.t F) (pr : Priv.t F) s (b : list F) max_its tol :
  valid_csc (Data.m d) (Data.n d) (Data.A d) ->
  ready d pr ->
  warm_start_fits d s ->
  Data.n d <= Z.of_nat (length b) ->
  let st := snd (pcg_run d pr s b max_its tol) in
  cg_lengths d st /\
  length (cg_b st) = length b /\
  offset (cg_b st) (Data.n d) = offset b (Data.n d).
Proof.
  intros V R Hs Lb. cbv zeta. unfold pcg_run.
  destruct (pcg_init_shape d pr s b V R Hs Lb) as (L0 & Lb0 & O0).
  destruct R as (_ & _ & _ & _ & _ & _ & C).
  destruct (pcg_loop_shape d pr tol (Z.to_nat max_its) 0 (pcg_init d pr s b) V C L0
              ltac:(lia)) as (L1 & Lb1 & O1).
  split; [exact L1|]. split; congruence.
Qed.

Lemma pcg_value (d : Data.t F) (pr : Priv.t F) s (b : list F) max_its tol :
  snd (fst (pcg d pr s b max_its tol)) = cg_writeback pr (snd (pcg_run d pr s b max_its tol)) /\
  snd (pcg d pr s b max_its tol) = cg_b (snd (pcg_run d pr s b max_its tol)).
Proof. unfold pcg. destruct (pcg_run d pr s b max_its tol) as [its st]. split; reflexivity. Qed.

Lemma ready_writeback (d : Data.t F) (pr : Priv.t F) (st : @cg_state F) :
  ready d pr -> cg_lengths d st -> ready d (cg_writeback pr st).
Proof.
  intros (Pp & Pr & PAp & Ptmp & Pz & PM & C) (Lp & Lr & LAp & Lz & Ltmp).
  unfold ready, cg_writeback.
  cbn [Priv.p Priv.r Priv.Ap Priv.tmp Priv.z Priv.M].
  repeat (split; [apply points_to_store_len; assumption|]).
  split; [exact PM|]. exact C.
Qed.

(** [solveLinSys] hands the workspace back as it needs it for the next call:
    the vectors keep their lengths, the preconditioner and the transpose
    cache are untouched, the buffer keeps its length, and nothing is
    allocated or freed. *)
Theorem solveLinSys_keeps_ready (POWF : F -> F -> F) (d : Data.t F) (p : Priv.t F)
    (b : list F) (s : option (list F)) (iter : Z) (elapsed : F) (w w' : World F) p' b' :
  valid_csc (Data.m d) (Data.n d) (Data.A d) ->
  ready d p ->
  warm_start_fits d s ->
  Z.of_nat (length b) = Data.n d + Data.m d ->
  solveLinSys POWF d p b s iter elapsed w = Ok (p', b') w' ->
  ready d p' /\
  Priv.M p' = Priv.M p /\ At_of p' = At_of p /\
  length b' = length b /\
  live w' = live w /\ next w' = next w /\ oracle w' = oracle w.
Proof.
  intros V R Hs Lb H.
  pose proof (csc_m V) as Hm. pose proof (csc_n V) as Hn.
  assert (HW : live w' = live w /\ next w' = next w /\ oracle w' = oracle w).
  { destruct (solveLinSys_world POWF d p b s iter elapsed w) as (p1 & b1 & E).
    rewrite E in H. inversion H. cbn [live next oracle]. auto. }
  apply solveLinSys_result in H. cbv zeta in H. destruct H as [Ep Eb].
  set (b1 := accumByAtrans d p (offset b (Data.n d)) b) in *.
  assert (Lb1 : length b1 = length b).
  { apply (accumByAtrans_cells d p (offset b (Data.n d)) b). lia. }
  destruct (pcg_run_shape d p s b1 (Data.n d) (cgTol POWF d b iter) V R Hs ltac:(lia))
    as (L & Lbx & _).
  destruct (pcg_value d p s b1 (Data.n d) (cgTol POWF d b iter)) as [Ev Ebx].
  rewrite Ev in Ep. rewrite Ebx in Eb.
  set (st := snd (pcg_run d p s b1 (Data.n d) (cgTol POWF d b iter))) in *.
  assert (R' : ready d p') by (rewrite Ep; apply ready_writeback; assumption).
  split; [exact R'|]. split; [rewrite Ep; reflexivity|].
  split; [rewrite Ep; reflexivity|]. split; [|exact HW].
  destruct R' as (_ & _ & _ & _ & _ & _ & C').
  set (b2 := at_offset (cg_b st) (Data.n d) (fun y => scaleArray y (-: f1) (Data.m d))) in *.
  assert (Lb2 : length b2 = length b).
  { unfold b2, at_offset. rewrite length_app, length_firstn.
    rewrite length_scaleArray by (rewrite length_offset; lia).
    unfold offset. rewrite length_skipn. lia. }
  rewrite Eb. unfold at_offset. rewrite length_app, length_firstn.
  destruct (accumByA_cells d p' b2 (offset b2 (Data.n d)) C') as (LA & _).
  { rewrite length_offset; lia. }
  rewrite LA. unfold offset. rewrite length_skipn. lia.
Qed.

(** The two blocks that [solveLinSys] leaves in [b]: the first [n] cells hold
    what [pcg] returns for the right-hand side b1 + A'b2, and cell [n + i]
    holds (A x)[i] - b2[i], where x is the first block of the result: the
    sum starts from -b2[i] and adds the products of row [i] of A in storage
    order. *)
Theorem solveLinSys_blocks (POWF : F -> F -> F) (d : Data.t F) (p : Priv.t F)
    (b : list F) (s : option (list F)) (iter : Z) (elapsed : F) (w w' : World F) p' b' :
  valid_csc (Data.m d) (Data.n d) (Data.A d) ->
  ready d p ->
  warm_start_fits d s ->
  Z.of_nat (length b) = Data.n d + Data.m d ->
  solveLinSys POWF d p b s iter elapsed w = Ok (p', b') w' ->
  (forall j, 0 <= j < Data.n d ->
     b'.[j] = (snd (pcg d p s (accumByAtrans d p (offset b (Data.n d)) b) (Data.n d)
                      (cgTol POWF d b iter))).[j]) /\
  (forall i, 0 <= i < Data.m d ->
     b'.[Data.n d + i] =
     fold_left (fun acc e => acc +: e_val e *: b'.[e_col e])
       (in_row i (entries_of (Data.n d) (Data.A d)))
       (b.[Data.n d + i] *: -: f1)).
Proof.
  intros V R Hs Lb H.
  pose proof (csc_m V) as Hm. pose proof (csc_n V) as Hn.
  apply solveLinSys_result in H. cbv zeta in H. destruct H as [Ep Eb].
  set (b1 := accumByAtrans d p (offset b (Data.n d)) b) in *.
  destruct (accumByAtrans_cells d p (offset b (Data.n d)) b ltac:(lia)) as (Lb1 & _ & T1).
  fold b1 in Lb1, T1.
  destruct (pcg_run_shape d p s b1 (Data.n d) (cgTol POWF d b iter) V R Hs ltac:(lia))
    as (L & Lbx & Obx).
  destruct (pcg_value d p s b1 (Data.n d) (cgTol POWF d b iter)) as [Ev Ebx].
  rewrite Ev in Ep. rewrite Ebx in Eb. rewrite Ebx.
  set (st := snd (pcg_run d p s b1 (Data.n d) (cgTol POWF d b iter))) in *.
  assert (C' : is_transpose_cache d p').
  { rewrite Ep. apply (ready_writeback d p st R L). }
  set (y2 := scaleArray (offset (cg_b st) (Data.n d)) (-: f1) (Data.m d)) in *.
  assert (Ly0 : Z.of_nat (length (offset (cg_b st) (Data.n d))) = Data.m d)
    by (rewrite length_offset; lia).
  destruct (scaleArray_spec (offset (cg_b st) (Data.n d)) (-: f1) (Data.m d) ltac:(lia))
    as (Ly2 & Gy2 & _). fold y2 in Ly2, Gy2.
  set (b2 := at_offset (cg_b st) (Data.n d) (fun y => scaleArray y (-: f1) (Data.m d))) in *.
  assert (Eb2 : b2 = firstn (Z.to_nat (Data.n d)) (cg_b st) ++ y2) by reflexivity.
  assert (Lf : length (firstn (Z.to_nat (Data.n d)) (cg_b st)) = Z.to_nat (Data.n d))
    by (rewrite length_firstn; lia).
  assert (F2 : firstn (Z.to_nat (Data.n d)) b2 = firstn (Z.to_nat (Data.n d)) (cg_b st)).
  { rewrite Eb2. rewrite firstn_app, Lf, Nat.sub_diag. cbn [firstn].
    rewrite app_nil_r. rewrite firstn_all2 by lia. reflexivity. }
  assert (O2 : offset b2 (Data.n d) = y2).
  { rewrite Eb2. unfold offset. rewrite skipn_app, Lf, Nat.sub_diag. cbn [skipn].
    rewrite skipn_all2 by lia. reflexivity. }
  assert (Eb' : b' = firstn (Z.to_nat (Data.n d)) (cg_b st) ++ accumByA d p' b2 y2).
  { rewrite Eb. unfold at_offset at 1. rewrite F2, O2. reflexivity. }
  destruct (accumByA_cells d p' b2 y2 C' ltac:(lia)) as (LA & GA & _).
  assert (Glow : forall j, 0 <= j < Data.n d -> b'.[j] = (cg_b st).[j]).
  { intros j Hj. rewrite Eb'. unfold get. destruct (Z.ltb_spec j 0); [lia|].
    rewrite app_nth1 by lia. rewrite nth_firstn.
    destruct (Nat.ltb_spec (Z.to_nat j) (Z.to_nat (Data.n d))); [reflexivity | lia]. }
  assert (Glow2 : forall j, 0 <= j < Data.n d -> b2.[j] = (cg_b st).[j]).
  { intros j Hj. rewrite Eb2. unfold get. destruct (Z.ltb_spec j 0); [lia|].
    rewrite app_nth1 by lia. rewrite nth_firstn.
    destruct (Nat.ltb_spec (Z.to_nat j) (Z.to_nat (Data.n d))); [reflexivity | lia]. }
  split; [exact Glow|].
  intros i Hi.
  assert (E1 : b'.[Data.n d + i] = (accumByA d p' b2 y2).[i]).
  { rewrite Eb'. unfold get. destruct (Z.ltb_spec (Data.n d + i) 0); [lia|].
    destruct (Z.ltb_spec i 0); [lia|].
    rewrite app_nth2 by lia. rewrite Lf. f_equal. lia. }
  rewrite E1, GA by lia. rewrite Gy2 by lia.
  assert (Ob1 : offset b1 (Data.n d) = offset b (Data.n d))
    by (apply (offset_eq f0); [lia | exact Lb1 | exact T1]).
  rewrite Obx, Ob1. rewrite get_offset by lia.
  apply fold_left_ext_in. intros acc e He.
  unfold in_row in He. apply filter_In in He. destruct He as [He _].
  destruct (valid_csc_entries _ _ _ e V He) as [_ Hc].
  rewrite Glow2, Glow by lia. reflexivity.
Qed.

End SolveBlocks.

(** ** transpose *)

Section TransposeMore.
Context {F : Type} {PF : PFloat F}.
Local Open Scope pf_scope.

(** [transpose] frees the counters it allocates: it returns with the blocks
    that were live before the call, the pointers of the workspace and the
    two statistics as they were. *)
Theorem transpose_releases_scratch (d : Data.t F) (p : Priv.t F) (w : World F) :
  cache_allocated d p ->
  grants w ->
  fresh w ->
  exists p' w',
    transpose d p w = Ok p' w' /\
    live w' = live w /\
    addrs_of p' = addrs_of p /\
    totCgIts w' = totCgIts w /\ totalSolveTime w' = totalSolveTime w.
Proof.
  intros HC Hg Hf. destruct (transpose_run d p w HC Hg) as (o' & E).
  destruct (transpose_arrays _ _ _ _ _ _ _ _ _) as [[Ci Cp] Cx].
  eexists; eexists. split; [exact E|].
  cbn [live totCgIts totalSolveTime]. split; [|split; [|split; reflexivity]].
  - cbn [List.remove]. destruct (Nat.eq_dec (next w) (next w)) as [_|N]; [|contradiction].
    apply notin_remove. intros Hin. specialize (Hf _ Hin). lia.
  - unfold addrs_of.
    cbn [Priv.p Priv.r Priv.Ap Priv.tmp Priv.z Priv.M Priv.Ati Priv.Atp Priv.Atx].
    rewrite !addr_of_store. reflexivity.
Qed.

(** [transpose] does not test what [scs_calloc] returns: when the request
    for the counters is refused and A stores a nonzero, the first loop
    increments through NULL. *)
Theorem transpose_unchecked_calloc (d : Data.t F) (p : Priv.t F) (w : World F) o :
  0 < (AMatrix.p (Data.A d)).<[Data.n d]> ->
  oracle w = false :: o ->
  transpose d p w = Fault.
Proof.
  intros Hnz Ho. unfold transpose, bind, scs_calloc, alloc. rewrite Ho.
  unfold guard at 1. destruct (Z.ltb_spec 0 (AMatrix.p (Data.A d)).<[Data.n d]>); [|lia].
  reflexivity.
Qed.

(** The column indices of the stored nonzeros never decrease along the
    storage order. *)
Lemma entries_cols_sorted ncols (Ap Ai : list idxint) (Ax : list F) :
  forall lo, StronglySorted Z.le
    (map e_col (flat_map (col_entries Ap Ai Ax) (zrange lo ncols))).
Proof.
  intros lo. remember (Z.to_nat (ncols - lo)) as k eqn:Hk.
  revert lo Hk. induction k as [|k IH]; intros lo Hk.
  - rewrite zrange_nil by lia. constructor.
  - rewrite zrange_cons by lia. cbn [flat_map]. rewrite map_app.
    specialize (IH (lo + 1) ltac:(lia)).
    assert (Hlo : forall c, In c (map e_col (col_entries Ap Ai Ax lo)) -> c = lo).
    { intros c Hc. unfold col_entries in Hc. rewrite map_map in Hc.
      apply in_map_iff in Hc. destruct Hc as (q & <- & _). reflexivity. }
    assert (Hhi : forall c, In c (map e_col (flat_map (col_entries Ap Ai Ax)
                                     (zrange (lo + 1) ncols))) -> lo <= c).
    { intros c Hc. apply in_map_iff in Hc. destruct Hc as (e & <- & He).
      apply in_flat_map in He. destruct He as (j & Hj & He).
      apply In_zrange in Hj. unfold col_entries in He. apply in_map_iff in He.
      destruct He as (q & <- & _). unfold e_col. cbn [fst snd]. lia. }
    induction (map e_col (col_entries Ap Ai Ax lo)) as [|c l IHl]; [exact IH|].
    cbn [app]. constructor.
    + apply IHl. intros c' Hc'. apply Hlo. right. exact Hc'.
    + apply Forall_forall. intros c' Hc'. apply in_app_or in Hc'.
      rewrite (Hlo c (or_introl eq_refl)). destruct Hc' as [Hc'|Hc'].
      * rewrite (Hlo c' (or_intror Hc')). lia.
      * apply Hhi, Hc'.
Qed.

Lemma sorted_filter {A} (f : A -> Z) (g : A -> bool) (l : list A) :
  StronglySorted Z.le (map f l) -> StronglySorted Z.le (map f (filter g l)).
Proof.
  induction l as [|a l IH]; intros H; [constructor|].
  cbn [map] in H. inversion H as [|? ? H1 H2]; subst.
  cbn [filter]. destruct (g a); [|apply IH, H1].
  cbn [map]. constructor; [apply IH, H1|].
  rewrite Forall_forall in *. intros c Hc. apply H2.
  apply in_map_iff in Hc. destruct Hc as (e & <- & He). apply filter_In in He.
  apply in_map. apply He.
Qed.

(** [transpose] sorts: in every column of the transpose it builds, the row
    indices are in non-decreasing order, whatever the order of the row
    indices in the columns of A is. *)
Theorem transpose_sorts_columns (d : Data.t F) (p p' : Priv.t F) (w w' : World F) :
  valid_csc (Data.m d) (Data.n d) (Data.A d) ->
  cache_allocated d p ->
  transpose d p w = Ok p' w' ->
  forall i, 0 <= i < Data.m d ->
    StronglySorted Z.le
      (map e_row (col_entries (deref (Priv.Atp p')) (deref (Priv.Ati p'))
                    (deref (Priv.Atx p')) i)).
Proof.
  intros V HC H i Hi.
  destruct (transpose_Ok d p p' w w' V HC H) as [_ HT].
  unfold At_of in HT. cbn [AMatrix.p AMatrix.i AMatrix.x] in HT.
  rewrite HT by lia. rewrite map_map.
  change (fun x : entry => e_row (swap_entry x)) with (fun x : @entry F => e_col x).
  apply sorted_filter. apply entries_cols_sorted.
Qed.

End TransposeMore.

(** ** The life of a workspace *)

Section Life.
Context {F : Type} {PF : PFloat F}.
Local Open Scope pf_scope.

Lemma freePriv_returns (q : ptr (Priv.t F)) (w : World F) :
  exists w', freePriv q w = Ok tt w'.
Proof.
  unfold freePriv. destruct q as [|a [|s cells]]; try (eexists; reflexivity).
  revert w.
  do 9 (let w0 := fresh "w" in let E := fresh "E" in
        intros w0;
        match goal with |- exists _, bind (scs_free ?q) _ _ = _ =>
          destruct (scs_free_returns q w0) as (? & E);
          rewrite (bind_run _ _ _ _ _ E); clear E
        end;
        match goal with |- exists _, _ ?w1 = _ => revert w1 end).
  intros wl. apply scs_free_returns.
Qed.

Lemma addrs_of_writeback (p : Priv.t F) (st : @cg_state F) :
  addrs_of (cg_writeback p st) = addrs_of p.
Proof.
  unfold addrs_of, cg_writeback.
  cbn [Priv.p Priv.r Priv.Ap Priv.tmp Priv.z Priv.M Priv.Ati Priv.Atp Priv.Atx].
  rewrite !addr_of_store. reflexivity.
Qed.

(** A workspace leaves nothing behind: from an allocator whose live blocks
    are all below its next address, [initPriv], then [freePriv] on the
    handle returned, gives back the live blocks of before [initPriv]; and so
    it does with a call of [solveLinSys] in between. *)
Theorem freePriv_releases_initPriv (POWF : F -> F -> F) (d : Data.t F) (w w1 : World F)
    (a : nat) (s : Priv.t F) :
  fresh w ->
  initPriv d w = Ok (Ptr a [s]) w1 ->
  (exists w2, freePriv (Ptr a [s]) w1 = Ok tt w2 /\ live w2 = live w) /\
  (forall b ws iter elapsed s' b' w2,
     solveLinSys POWF d s b ws iter elapsed w1 = Ok (s', b') w2 ->
     exists w3, freePriv (Ptr a [s']) w2 = Ok tt w3 /\ live w3 = live w).
Proof.
  intros Hf H.
  destruct (initPriv_blocks d w w1 _ Hf H) as [[N _]|(a' & s0 & E & R)]; [discriminate|].
  inversion E; subst a' s0. clear E. split.
  - destruct (freePriv_returns (Ptr a [s]) w1) as (w2 & E2). exists w2.
    split; [exact E2|]. apply freePriv_live in E2. rewrite E2. exact R.
  - intros b ws iter elapsed s' b' w2 HS.
    assert (HW : live w2 = live w1).
    { destruct (solveLinSys_world POWF d s b ws iter elapsed w1) as (p1 & b1 & E1).
      rewrite E1 in HS. inversion HS. reflexivity. }
    apply solveLinSys_result in HS. cbv zeta in HS. destruct HS as [Ep _].
    destruct (pcg_value d s ws (accumByAtrans d s (offset b (Data.n d)) b) (Data.n d)
                (cgTol POWF d b iter)) as [Ev _].
    rewrite Ev in Ep.
    destruct (freePriv_returns (Ptr a [s']) w2) as (w3 & E3). exists w3.
    split; [exact E3|]. apply freePriv_live in E3. rewrite E3, HW, Ep.
    rewrite addrs_of_writeback. exact R.
Qed.

(** With every request granted, an allocation returns a block, and every
    request to come is granted still. *)
Lemma alloc_all_Ok {T} (fill : T) len (w w' : World F) q :
  grants_all w -> alloc fill len w = Ok q w' -> is_null q = false /\ grants_all w'.
Proof.
  unfold grants_all, alloc. intros G H.
  destruct (oracle w) as [|[|] o]; inversion H; subst; cbn [is_null oracle].
  - split; [reflexivity | constructor].
  - split; [reflexivity | inversion G; assumption].
  - inversion G. discriminate.
Qed.

(** On a valid matrix, with every request granted, [initPriv] returns a
    handle on a complete workspace: the six vectors allocated with [n] cells
    ([tmp]: [m] cells), the cache holding the transpose of A, and M the
    preconditioner. *)
Theorem initPriv_ready (d : Data.t F) (w : World F) :
  valid_csc (Data.m d) (Data.n d) (Data.A d) ->
  grants_all w ->
  exists a s w',
    initPriv d w = Ok (Ptr a [s]) w' /\
    ready d s /\
    forall j, 0 <= j < Data.n d ->
      (deref (Priv.M s)).[j] =
      f1 /: (Data.RHO_X d +: col_sumsq (entries_of (Data.n d) (Data.A d)) j).
Proof.
  intros V G. destruct (initPriv_returns d w V G) as (a & s & w' & E).
  exists a, s, w'. split; [exact E|].
  pose proof (csc_n V) as Hn.
  destruct (initPriv_handle d w w' a s V E) as (Pp & Pr & PAp & Ptmp & C & HM).
  assert (Z : is_null (Priv.z s) = false /\ is_null (Priv.M s) = false /\
              points_to (Priv.z s) (Data.n d)).
  { unfold initPriv in E.
    apply bind_Ok in E. destruct E as (p & w0 & E0 & E).
    apply bind_Ok in E. destruct E as (? & w0' & G0 & E).
    apply bind_Ok in E. destruct E as (p_p & w1 & E1 & E).
    apply bind_Ok in E. destruct E as (p_r & w2 & E2 & E).
    apply bind_Ok in E. destruct E as (p_Ap & w3 & E3 & E).
    apply bind_Ok in E. destruct E as (p_tmp & w4 & E4 & E).
    apply bind_Ok in E. destruct E as (p_z & w5 & E5 & E).
    apply bind_Ok in E. destruct E as (p_M & w6 & E6 & E).
    apply bind_Ok in E. destruct E as (p_Ati & w7 & E7 & E).
    apply bind_Ok in E. destruct E as (p_Atp & w8 & E8 & E).
    apply bind_Ok in E. destruct E as (p_Atx & w9 & E9 & E).
    apply bind_Ok in E. destruct E as (s1 & w10 & ET & E).
    apply bind_Ok in E. destruct E as (s2 & w11 & EP & E).
    apply bind_Ok in E. destruct E as (? & w12 & T1 & E).
    apply bind_Ok in E. destruct E as (? & w13 & T2 & E).
    apply guard_Ok in G0. destruct G0 as [-> _].
    destruct (alloc_all_Ok _ _ _ _ _ G E0) as [_ A0].
    unfold scs_malloc in E1, E2, E3, E4, E5, E6.
    destruct (alloc_all_Ok _ _ _ _ _ A0 E1) as [_ A1].
    destruct (alloc_all_Ok _ _ _ _ _ A1 E2) as [_ A2].
    destruct (alloc_all_Ok _ _ _ _ _ A2 E3) as [_ A3].
    destruct (alloc_all_Ok _ _ _ _ _ A3 E4) as [_ A4].
    destruct (alloc_all_Ok _ _ _ _ _ A4 E5) as [Nz A5].
    destruct (alloc_all_Ok _ _ _ _ _ A5 E6) as [NM _].
    pose proof (alloc_points_to _ _ _ _ _ Hn E5 Nz) as Pz.
    apply getPreconditioner_shape in EP.
    apply transpose_shape in ET; [|exact (csc_m V)].
    destruct (transpose_arrays _ _ _ _ _ _ _ _ _) as [[Ci Cp] Cx].
    cbn [Priv.p Priv.r Priv.Ap Priv.tmp Priv.z Priv.M Priv.Ati Priv.Atp Priv.Atx] in ET.
    subst s1. cbn [Priv.p Priv.r Priv.Ap Priv.tmp Priv.z Priv.M Priv.Ati Priv.Atp Priv.Atx] in EP.
    match type of E with (if ?c then _ else _) _ = _ => destruct c end.
    { apply bind_Ok in E. destruct E as (? & ? & _ & E). inversion E. }
    destruct p as [|ap cells]; [inversion E|]. cbn [store] in E.
    inversion E; subst. cbn [Priv.z Priv.M]. rewrite is_null_store. auto. }
  destruct Z as (Nz & NM & Pz). destruct (HM NM) as [PM HF].
  split; [|exact HF]. unfold ready.
  split; [exact Pp|]. split; [exact Pr|]. split; [exact PAp|]. split; [exact Ptmp|].
  split; [exact Pz|]. split; [exact PM | exact C].
Qed.

(** [getLinSysSummary] does not test what [scs_malloc] returns: a refused
    request makes [sprintf] write through NULL.  When the request is
    granted, the block of the string is live on return (it is the caller's
    to free), it holds the two averages over [info->iter + 1], and both
    statistics are zero. *)
Theorem getLinSysSummary_string (p : Priv.t F) (info_iter : idxint) (w : World F) :
  (forall o, oracle w = false :: o -> getLinSysSummary p info_iter w = Fault) /\
  (grants w ->
   exists a w',
     getLinSysSummary p info_iter w =
       Ok (Ptr a [ of_idxint (totCgIts w) /: of_idxint (info_iter + 1);
                   totalSolveTime w /: of_idxint (info_iter + 1) /: of_idxint 1000 ]) w' /\
     live w' = a :: live w /\
     totCgIts w' = 0 /\ totalSolveTime w' = f0).
Proof.
  split.
  - intros o Ho. unfold getLinSysSummary, bind, scs_malloc, alloc. rewrite Ho. reflexivity.
  - intros Hg. unfold getLinSysSummary, bind, scs_malloc.
    destruct (alloc_grants (indet w) 128 w Hg) as (o' & Ea). rewrite Ea.
    cbn. eexists; eexists. split; [reflexivity|]. repeat split.
Qed.

End Life.

(** ** The operator in exact arithmetic *)

(** A list of nonzeros is its columns, one after the other. *)
Lemma cols_permutation {F} {PF : PFloat F} (es : list (@entry F)) n :
  0 <= n ->
  (forall e, In e es -> 0 <= e_col e < n) ->
  Permutation (flat_map (fun j => in_col j es) (zrange 0 n)) es.
Proof.
  intros Hn Hr.
  assert (G : forall k, 0 <= k ->
    Permutation (flat_map (fun j => in_col j es) (zrange 0 k))
                (filter (fun e => (0 <=? e_col e) && (e_col e <? k)) es)).
  { intros k Hk. pattern k. apply range_ind; [| |lia].
    - rewrite zrange_nil by lia. simpl.
      rewrite filter_none; auto. intros e _.
      destruct (Z.leb_spec 0 (e_col e)), (Z.ltb_spec (e_col e) 0); simpl; auto; lia.
    - intros i Hi IH. cbv beta in IH |- *.
      rewrite zrange_snoc, flat_map_app by lia. simpl. rewrite app_nil_r.
      eapply perm_trans; [apply Permutation_app_tail, IH|].
      apply filter_split; intros e.
      + destruct (Z.leb_spec 0 (e_col e)), (Z.ltb_spec (e_col e) i),
          (Z.ltb_spec (e_col e) (i + 1)), (Z.eqb_spec (e_col e) i); simpl; auto; lia.
      + destruct (Z.leb_spec 0 (e_col e)), (Z.ltb_spec (e_col e) i),
          (Z.eqb_spec (e_col e) i); simpl; auto; lia. }
  eapply perm_trans; [apply G, Hn|].
  rewrite filter_all; auto. intros e He. specialize (Hr e He).
  destruct (Z.leb_spec 0 (e_col e)), (Z.ltb_spec (e_col e) n); simpl; auto; lia.
Qed.

Local Open Scope R_scope.

Lemma fold_left_Rsum {A} (g : A -> R) (l : list A) (a : R) :
  fold_left (fun acc e => acc + g e) l a = a + Rsum (map g l).
Proof.
  unfold Rsum. revert a. induction l as [|e l IH]; intros a; cbn [fold_left map fold_right].
  - lra.
  - rewrite IH. lra.
Qed.

Lemma Rsum_app (l1 l2 : list R) : Rsum (l1 ++ l2) = Rsum l1 + Rsum l2.
Proof.
  unfold Rsum. induction l1 as [|a l1 IH]; cbn [app fold_right]; [lra|].
  rewrite IH. lra.
Qed.

Lemma Rsum_perm (l1 l2 : list R) : Permutation l1 l2 -> Rsum l1 = Rsum l2.
Proof.
  unfold Rsum. induction 1; cbn [fold_right] in *; lra.
Qed.

Lemma Rsum_flat_map {A B} (g : B -> R) (f : A -> list B) (l : list A) :
  Rsum (map g (flat_map f l)) = Rsum (map (fun i => Rsum (map g (f i))) l).
Proof.
  induction l as [|a l IH]; cbn [flat_map map]; [reflexivity|].
  rewrite map_app, Rsum_app, IH. reflexivity.
Qed.

Lemma Rsum_scal {A} (c : R) (g : A -> R) (l : list A) :
  c * Rsum (map g l) = Rsum (map (fun e => c * g e) l).
Proof.
  unfold Rsum. induction l as [|a l IH]; cbn [map fold_right]; [lra|].
  rewrite <- IH. lra.
Qed.

Lemma Rsum_plus {A} (f g : A -> R) (l : list A) :
  Rsum (map (fun e => f e + g e) l) = Rsum (map f l) + Rsum (map g l).
Proof.
  unfold Rsum. induction l as [|a l IH]; cbn [map fold_right]; [lra|].
  rewrite IH. lra.
Qed.

Lemma Rsum_ext_in {A} (f g : A -> R) (l : list A) :
  (forall e, In e l -> f e = g e) -> Rsum (map f l) = Rsum (map g l).
Proof.
  intros H. f_equal. apply map_ext_in. exact H.
Qed.

Lemma Rsum_squares_nonneg {A} (f : A -> R) (l : list A) : 0 <= Rsum (map (fun e => f e * f e) l).
Proof.
  unfold Rsum. induction l as [|a l IH]; cbn [map fold_right]; [lra|].
  pose proof (Rle_0_sqr (f a)) as H. unfold Rsqr in H. lra.
Qed.

Lemma innerProd_sum (x y : list R) n :
  innerProd x y n = Rsum (map (fun i => get 0 x i * get 0 y i) (zrange 0 n)).
Proof.
  unfold innerProd. rewrite for_loop_fold.
  rewrite (fold_left_Rsum (fun i => get 0 x i * get 0 y i)). cbn [f0 exactR]. lra.
Qed.

Lemma calcNormSq_sum (v : list R) n :
  calcNormSq v n = Rsum (map (fun i => get 0 v i * get 0 v i) (zrange 0 n)).
Proof.
  unfold calcNormSq. rewrite for_loop_fold.
  rewrite (fold_left_Rsum (fun i => get 0 v i * get 0 v i)). cbn [f0 exactR]. lra.
Qed.

Lemma calcNormSq_nonneg (v : list R) n : 0 <= calcNormSq v n.
Proof. rewrite calcNormSq_sum. apply (Rsum_squares_nonneg (fun i => get 0 v i)). Qed.

Lemma row_dot_sum (es : list (@entry R)) (x : list R) i :
  row_dot es x i = Rsum (map (fun e => e_val e * get 0 x (e_col e)) (in_row i es)).
Proof.
  unfold row_dot. rewrite (fold_left_Rsum (fun e => e_val e * get 0 x (e_col e))).
  cbn [f0 exactR]. lra.
Qed.

Lemma col_dot_sum (es : list (@entry R)) (t : list R) j :
  col_dot es t j = Rsum (map (fun e => e_val e * get 0 t (e_row e)) (in_col j es)).
Proof.
  unfold col_dot. rewrite (fold_left_Rsum (fun e => e_val e * get 0 t (e_row e))).
  cbn [f0 exactR]. lra.
Qed.

(** In exact arithmetic <y, (rho I + A'A) x> = rho <y, x> + <A y, A x>. *)
Lemma operator_bilinear (d : Data.t R) (x y : list R) :
  valid_csc (Data.m d) (Data.n d) (Data.A d) ->
  innerProd y (operator d x) (Data.n d) =
  Data.RHO_X d * innerProd y x (Data.n d) +
  innerProd (A_times d y) (A_times d x) (Data.m d).
Proof.
  intros V. pose proof (csc_m V) as Hm. pose proof (csc_n V) as Hn.
  set (es := entries_of (Data.n d) (Data.A d)).
  set (t := A_times d x).
  set (g := fun e : @entry R => get 0 y (e_col e) * (e_val e * get 0 t (e_row e))).
  assert (Hes : forall e, In e es -> (0 <= e_row e < Data.m d)%Z /\ (0 <= e_col e < Data.n d)%Z)
    by (intros e He; apply (valid_csc_entries _ _ _ e V He)).
  rewrite !innerProd_sum.
  (* the left-hand side, column by column *)
  rewrite (Rsum_ext_in _ (fun j => Rsum (map g (in_col j es)) +
                                   Data.RHO_X d * (get 0 y j * get 0 x j))).
  2:{ intros j Hj. apply In_zrange in Hj. unfold operator.
      rewrite get_map_zrange by lia. cbn [fadd fmul exactR].
      unfold At_times. rewrite get_map_zrange by lia. fold es. fold t.
      rewrite col_dot_sum. rewrite Rmult_plus_distr_l. rewrite Rsum_scal.
      f_equal; [|cbn [f0 exactR]; lra]. apply Rsum_ext_in. intros e He. unfold in_col in He.
      apply filter_In in He. destruct He as [_ He]. apply Z.eqb_eq in He.
      unfold g. rewrite He. reflexivity. }
  rewrite Rsum_plus. rewrite <- (Rsum_flat_map g (fun j => in_col j es)).
  rewrite (Rsum_perm _ (map g es)).
  2:{ apply Permutation_map. apply cols_permutation; [lia|]. intros e He. apply Hes, He. }
  rewrite <- Rsum_scal.
  (* the right-hand side, row by row *)
  rewrite (Rsum_ext_in (fun i => get 0 (A_times d y) i * get 0 t i)
             (fun i => Rsum (map g (in_row i es)))).
  2:{ intros i Hi. apply In_zrange in Hi.
      assert (Et : get 0 (A_times d y) i = row_dot es y i).
      { unfold A_times. rewrite get_map_zrange by lia. reflexivity. }
      rewrite Et. rewrite row_dot_sum. rewrite Rmult_comm. rewrite Rsum_scal.
      apply Rsum_ext_in. intros e He. unfold in_row in He.
      apply filter_In in He. destruct He as [_ He]. apply Z.eqb_eq in He.
      unfold g. rewrite He. lra. }
  rewrite <- (Rsum_flat_map g (fun i => in_row i es)).
  rewrite (Rsum_perm (map g (flat_map (fun i => in_row i es) (zrange 0 (Data.m d))))
             (map g es)).
  2:{ apply Permutation_map. apply rows_permutation; [lia|]. intros e He. apply Hes, He. }
  lra.
Qed.

Lemma innerProd_self (x : list R) n : innerProd x x n = calcNormSq x n.
Proof. rewrite innerProd_sum, calcNormSq_sum. reflexivity. Qed.

Lemma innerProd_comm (x y : list R) n : innerProd x y n = innerProd y x n.
Proof.
  rewrite !innerProd_sum. apply Rsum_ext_in. intros i _. lra.
Qed.

(** In exact arithmetic <x, (rho I + A'A) x> = rho |x|^2 + |A x|^2. *)
Lemma operator_energy (d : Data.t R) (x : list R) :
  valid_csc (Data.m d) (Data.n d) (Data.A d) ->
  innerProd x (operator d x) (Data.n d) =
  Data.RHO_X d * calcNormSq x (Data.n d) + calcNormSq (A_times d x) (Data.m d).
Proof.
  intros V. rewrite (operator_bilinear d x x V), !innerProd_self. reflexivity.
Qed.

(** In exact arithmetic the operator that [matVec] applies is positive
    definite when rho > 0: <x, matVec x> = rho |x|^2 + |A x|^2, which is
    positive for every x that is not zero.  The denominator <p, Ap> of the
    step length of [pcg] is such a product. *)
Theorem matVec_positive_definite (d : Data.t R) (p : Priv.t R) (tmp x y : list R) :
  valid_csc (Data.m d) (Data.n d) (Data.A d) ->
  is_transpose_cache d p ->
  Z.of_nat (length tmp) = Data.m d ->
  Z.of_nat (length y) = Data.n d ->
  innerProd x (snd (matVec d p tmp x y)) (Data.n d) =
    Data.RHO_X d * calcNormSq x (Data.n d) +
    calcNormSq (fst (matVec d p tmp x y)) (Data.m d) /\
  (0 < Data.RHO_X d -> 0 < calcNormSq x (Data.n d) ->
   0 < innerProd x (snd (matVec d p tmp x y)) (Data.n d)).
Proof.
  intros V C Ltmp Ly. rewrite (matVec_operator d p tmp x y V C Ltmp Ly). cbn [fst snd].
  pose proof (operator_energy d x V) as E. split; [exact E|].
  intros Hr Hx. rewrite E.
  pose proof (calcNormSq_nonneg (A_times d x) (Data.m d)).
  assert (0 < Data.RHO_X d * calcNormSq x (Data.n d)) by (apply Rmult_lt_0_compat; assumption).
  lra.
Qed.

Local Close Scope R_scope.

(** ** pcg in exact arithmetic: the residual it tests is the true residual *)

Local Open Scope R_scope.

Lemma Rsum_linear {A} (f g h : A -> R) (a : R) (l : list A) :
  (forall e, In e l -> f e = g e + a * h e) ->
  Rsum (map f l) = Rsum (map g l) + a * Rsum (map h l).
Proof.
  intros H. rewrite (Rsum_ext_in f (fun e => g e + a * h e) l H).
  rewrite Rsum_plus, <- Rsum_scal. reflexivity.
Qed.

(** The operator is linear in the first [n] cells of its argument. *)
Lemma operator_linear (d : Data.t R) (x p x' : list R) (a : R) :
  valid_csc (Data.m d) (Data.n d) (Data.A d) ->
  (forall c, (0 <= c < Data.n d)%Z -> get 0 x' c = get 0 x c + a * get 0 p c) ->
  forall j, (0 <= j < Data.n d)%Z ->
    get 0 (operator d x') j = get 0 (operator d x) j + a * get 0 (operator d p) j.
Proof.
  intros V Hx j Hj. pose proof (csc_m V) as Hm.
  set (es := entries_of (Data.n d) (Data.A d)).
  assert (Hes : forall e, In e es -> (0 <= e_row e < Data.m d)%Z /\ (0 <= e_col e < Data.n d)%Z)
    by (intros e He; apply (valid_csc_entries _ _ _ e V He)).
  assert (HA : forall i, (0 <= i < Data.m d)%Z ->
            get 0 (A_times d x') i = get 0 (A_times d x) i + a * get 0 (A_times d p) i).
  { intros i Hi. unfold A_times. rewrite !get_map_zrange by lia. fold es.
    rewrite !row_dot_sum. apply Rsum_linear. intros e He.
    unfold in_row in He. apply filter_In in He. destruct He as [He _].
    rewrite Hx by (apply Hes, He). lra. }
  unfold operator. rewrite !get_map_zrange by lia. cbn [fadd fmul f0 exactR].
  unfold At_times. rewrite !get_map_zrange by lia. fold es.
  rewrite !col_dot_sum.
  rewrite (Rsum_linear (fun e => e_val e * get 0 (A_times d x') (e_row e))
             (fun e => e_val e * get 0 (A_times d x) (e_row e))
             (fun e => e_val e * get 0 (A_times d p) (e_row e)) a).
  2:{ intros e He. unfold in_col in He. apply filter_In in He. destruct He as [He _].
      rewrite HA by (apply Hes, He). lra. }
  rewrite Hx by lia. lra.
Qed.

(** The invariant of the loop of [pcg]: [r] is b - (rho I + A'A) x on the
    first [n] cells. *)
Lemma pcg_body_residual (d : Data.t R) (pr : Priv.t R) tol (st : @cg_state R) (b0 : list R) :
  valid_csc (Data.m d) (Data.n d) (Data.A d) ->
  is_transpose_cache d pr ->
  cg_lengths d st ->
  (Data.n d <= Z.of_nat (length (cg_b st)))%Z ->
  (forall j, (0 <= j < Data.n d)%Z ->
     get 0 (cg_r st) j = get 0 b0 j - get 0 (operator d (cg_b st)) j) ->
  let st' := snd (pcg_body d pr tol st) in
  forall j, (0 <= j < Data.n d)%Z ->
    get 0 (cg_r st') j = get 0 b0 j - get 0 (operator d (cg_b st')) j.
Proof.
  intros V C (Lp & Lr & LAp & Lz & Ltmp) Lb Inv. cbv zeta.
  pose proof (csc_n V) as Hn.
  unfold pcg_body.
  rewrite (matVec_operator d pr (cg_tmp st) (cg_p st) (cg_Ap st) V C Ltmp LAp).
  set (alpha := fdiv (cg_ipzr st) _).
  destruct (addScaledArray_spec (cg_b st) (cg_p st) (Data.n d) alpha ltac:(lia))
    as (_ & Gb & _).
  destruct (addScaledArray_spec (cg_r st) (operator d (cg_p st)) (Data.n d) (fopp alpha)
              ltac:(lia)) as (_ & Gr & _).
  cbn [fadd fmul fopp f0 exactR] in Gb, Gr.
  assert (G : forall j, (0 <= j < Data.n d)%Z ->
    get 0 (addScaledArray (cg_r st) (operator d (cg_p st)) (Data.n d) (fopp alpha)) j =
    get 0 b0 j -
    get 0 (operator d (addScaledArray (cg_b st) (cg_p st) (Data.n d) alpha)) j).
  { intros j Hj. rewrite Gr by lia. rewrite Inv by lia.
    rewrite (operator_linear d (cg_b st) (cg_p st) _ alpha V Gb j Hj). lra. }
  destruct (fltb (calcNorm _ _) tol).
  - cbn [snd cg_r cg_b]. exact G.
  - destruct (applyPreConditioner _ _ _ _) as [z ipzr]. cbn [snd cg_r cg_b]. exact G.
Qed.

Lemma pcg_loop_residual (d : Data.t R) (pr : Priv.t R) tol (b0 : list R) k :
  forall i (st : @cg_state R),
  valid_csc (Data.m d) (Data.n d) (Data.A d) ->
  is_transpose_cache d pr ->
  cg_lengths d st ->
  (Data.n d <= Z.of_nat (length (cg_b st)))%Z ->
  (forall j, (0 <= j < Data.n d)%Z ->
     get 0 (cg_r st) j = get 0 b0 j - get 0 (operator d (cg_b st)) j) ->
  let st' := snd (pcg_loop d pr tol k i st) in
  forall j, (0 <= j < Data.n d)%Z ->
    get 0 (cg_r st') j = get 0 b0 j - get 0 (operator d (cg_b st')) j.
Proof.
  induction k as [|k IH]; intros i st V C L Lb Inv; cbv zeta.
  - cbn [pcg_loop snd]. exact Inv.
  - cbn [pcg_loop].
    pose proof (pcg_body_shape d pr tol st V C L Lb) as H. cbv zeta in H.
    pose proof (pcg_body_residual d pr tol st b0 V C L Lb Inv) as H'. cbv zeta in H'.
    destruct (pcg_body d pr tol st) as [[|] st1]; cbn [snd] in H, H' |- *; [exact H'|].
    destruct H as (L1 & Lb1 & _).
    apply (IH (i + 1)%Z st1 V C L1 ltac:(lia) H').
Qed.

Lemma pcg_init_residual (d : Data.t R) (pr : Priv.t R) s (b : list R) :
  valid_csc (Data.m d) (Data.n d) (Data.A d) ->
  ready d pr ->
  warm_start_fits d s ->
  (Data.n d <= Z.of_nat (length b))%Z ->
  let st := pcg_init d pr s b in
  forall j, (0 <= j < Data.n d)%Z ->
    get 0 (cg_r st) j = get 0 b j - get 0 (operator d (cg_b st)) j.
Proof.
  intros V (Pp & Pr & PAp & Ptmp & Pz & PM & C) Hs Lb. cbv zeta.
  pose proof (csc_m V) as Hm. pose proof (csc_n V) as Hn.
  destruct Pp as (a1 & vp & Ep & Lp). destruct Pr as (a2 & vr & Er & Lr).
  destruct PAp as (a3 & vAp & EAp & LAp). destruct Ptmp as (a4 & vtmp & Etmp & Ltmp).
  destruct Pz as (a5 & vz & Ez & Lz). destruct PM as (a6 & vM & EM & LM).
  unfold pcg_init. rewrite Ep, Er, EAp, Etmp, Ez, EM. cbn [deref].
  destruct s as [s0|]; cbn [warm_start_fits] in Hs.
  - rewrite (matVec_operator d pr vtmp s0 vr V C Ltmp Lr).
    pose proof (length_operator d s0 Hn) as LO.
    destruct (applyPreConditioner _ _ _ _) as [z ipzr]. cbn [cg_r cg_b].
    intros j Hj.
    assert (B1 : (0 <= Data.n d <= Z.of_nat (length (operator d s0)))%Z) by lia.
    destruct (addScaledArray_spec (operator d s0) b (Data.n d) (fopp f1) B1)
      as (L1 & G1 & _).
    assert (B2 : (0 <= Data.n d <=
                  Z.of_nat (length (addScaledArray (operator d s0) b (Data.n d) (fopp f1))))%Z)
      by (rewrite L1; lia).
    destruct (scaleArray_spec (addScaledArray (operator d s0) b (Data.n d) (fopp f1))
                (fopp f1) (Data.n d) B2) as (_ & G2 & _).
    cbn [fadd fmul fopp f0 f1 exactR] in G1, G2.
    rewrite G2, G1 by lia.
    rewrite (operator_linear d s0 s0 (memcpy b s0 (Data.n d)) 0 V) by
      (try lia; intros c Hc; rewrite get_memcpy_lt by lia; lra).
    lra.
  - destruct (applyPreConditioner _ _ _ _) as [z ipzr]. cbn [cg_r cg_b].
    intros j Hj. rewrite get_memcpy_lt by lia.
    rewrite (operator_linear d (memset0 f0 b (Data.n d)) (memset0 f0 b (Data.n d))
               (memset0 f0 b (Data.n d)) (-1) V) by
      (try lia; intros c Hc; rewrite get_memset0 by lia; cbn [f0 exactR]; lra).
    lra.
Qed.

(** In exact arithmetic, when [pcg] returns before its budget is used up,
    the vector it leaves in [b] solves the system to the tolerance: the norm
    of b - (rho I + A'A) x is below [tol]. *)
Theorem pcg_early_return_solves (d : Data.t R) (pr : Priv.t R) (s : option (list R))
    (b : list R) (max_its : idxint) (tol : R) :
  valid_csc (Data.m d) (Data.n d) (Data.A d) ->
  ready d pr ->
  warm_start_fits d s ->
  (Data.n d <= Z.of_nat (length b))%Z ->
  (fst (fst (pcg d pr s b max_its tol)) < max_its)%Z ->
  calcNorm
    (map (fun j => get 0 b j - get 0 (operator d (snd (pcg d pr s b max_its tol))) j)
       (zrange 0 (Data.n d)))
    (Data.n d) < tol.
Proof.
  intros V R Hs Lb Hits.
  destruct (pcg_value d pr s b max_its tol) as [_ Ex]. rewrite Ex.
  unfold pcg in Hits. unfold pcg_run in *.
  destruct (pcg_init_shape d pr s b V R Hs Lb) as (L0 & Lb0 & _).
  pose proof (pcg_init_residual d pr s b V R Hs Lb) as I0. cbv zeta in I0.
  destruct R as (_ & _ & _ & _ & _ & _ & C).
  pose proof (pcg_loop_residual d pr tol b (Z.to_nat max_its) 0%Z (pcg_init d pr s b)
                V C L0 ltac:(lia) I0) as I1. cbv zeta in I1.
  destruct (pcg_loop d pr tol (Z.to_nat max_its) 0 (pcg_init d pr s b)) as [its st] eqn:E.
  cbn [fst snd] in *.
  destruct (pcg_loop_count _ _ _ _ _ _ _ _ E) as (_ & Hstop & _).
  specialize (Hstop ltac:(lia)).
  cbn [fltb exactR] in Hstop. unfold Rltb in Hstop.
  destruct (Rlt_dec (calcNorm (cg_r st) (Data.n d)) tol) as [Hlt|]; [|discriminate].
  replace (calcNorm _ (Data.n d)) with (calcNorm (cg_r st) (Data.n d)); [exact Hlt|].
  unfold calcNorm, calcNormSq. f_equal. apply for_loop_ext.
  intros i acc Hi. rewrite get_map_zrange by lia. rewrite I1 by lia. reflexivity.
Qed.

Local Close Scope R_scope.

Lemma valid_d_one : valid_csc (Data.m d_one) (Data.n d_one) (Data.A d_one).
Proof. apply valid_cscb_sound. reflexivity. Qed.

Lemma ready_p_one : ready d_one p_one.
Proof.
  unfold ready, p_one. cbn [Priv.p Priv.r Priv.Ap Priv.tmp Priv.z Priv.M].
  repeat (split; [eexists; eexists; split; reflexivity|]).
  split.
  - apply valid_cscb_sound. reflexivity.
  - intros i Hi. change (Data.m d_one) with 1 in Hi. assert (i = 0) as -> by lia.
    reflexivity.
Qed.

Local Open Scope R_scope.

Lemma pcg_one_run : Z.lt (fst (fst (pcg d_one p_one None [5] 2 1))) 2.
Proof.
  cbv - [Rplus Rmult Rdiv Rinv Ropp R_sqrt.sqrt Rlt_dec IZR Z.lt].
  match goal with |- context [Rlt_dec (sqrt ?e) 1] =>
    replace e with 0 by (field_simplify_eq; lra)
  end.
  rewrite sqrt_0. destruct (Rlt_dec 0 1) as [_|N]; [cbn; lia | exfalso; lra].
Qed.

Lemma pcg_early_return_solves_witness :
  calcNorm
    (map (fun j => get 0 [5] j - get 0 (operator d_one (snd (pcg d_one p_one None [5] 2 1))) j)
       (zrange 0 1)) 1 < 1.
Proof.
  apply (pcg_early_return_solves d_one p_one None [5] 2 1 valid_d_one ready_p_one I).
  - simpl. lia.
  - exact pcg_one_run.
Defined.

Lemma matVec_positive_definite_witness :
  innerProd [3] (snd (matVec d_one p_one [0] [3] [0])) 1 =
    1 * calcNormSq [3] 1 + calcNormSq (fst (matVec d_one p_one [0] [3] [0])) 1 /\
  (0 < 1 -> 0 < calcNormSq [3] 1 ->
   0 < innerProd [3] (snd (matVec d_one p_one [0] [3] [0])) 1).
Proof.
  apply (matVec_positive_definite d_one p_one [0] [3] [0] valid_d_one).
  - apply ready_p_one.
  - reflexivity.
  - reflexivity.
Defined.

Lemma preconditioner_positive_exact_witness :
  0 < 1 + col_sumsq (entries_of 1 (Data.A d_one)) 0 /\
  0 < get 0 (getPreconditioner_arrays d_one [0]) 0.
Proof.
  apply (preconditioner_positive_exact d_one [0] valid_d_one eq_refl).
  - simpl. lra.
  - simpl. lia.
Defined.
Local Close Scope R_scope.

Section Budget.
Context {F : Type} {PF : PFloat F}.
Local Open Scope pf_scope.

Lemma pcg_loop_slack (d : Data.t F) (pr : Priv.t F) tol k : forall k' i (st : @cg_state F),
  (k <= k')%nat ->
  fst (pcg_loop d pr tol k i st) < i + Z.of_nat k ->
  pcg_loop d pr tol k' i st = pcg_loop d pr tol k i st.
Proof.
  induction k as [|k IH]; intros k' i st Hk H.
  - cbn [pcg_loop fst] in H. lia.
  - destruct k' as [|k']; [lia|]. cbn [pcg_loop] in H |- *.
    destruct (pcg_body d pr tol st) as [[|] st1]; [reflexivity|].
    apply IH; lia.
Qed.

(** The budget matters only when it is used up: when [pcg] returns before
    its budget, it returns the same count, workspace and solution with every
    larger budget. *)
Theorem pcg_budget_slack (d : Data.t F) (pr : Priv.t F) (s : option (list F)) (b : list F)
    (max_its max_its' : idxint) (tol : F) :
  max_its <= max_its' ->
  fst (fst (pcg d pr s b max_its tol)) < max_its ->
  pcg d pr s b max_its' tol = pcg d pr s b max_its tol.
Proof.
  intros Hk H. unfold pcg, pcg_run in *.
  assert (H0 : 0 <= max_its).
  { destruct (Z.le_gt_cases 0 max_its) as [|Hneg]; [assumption|].
    replace (Z.to_nat max_its) with O in H by lia. cbn [pcg_loop fst] in H. lia. }
  rewrite (pcg_loop_slack d pr tol (Z.to_nat max_its) (Z.to_nat max_its') 0
             (pcg_init d pr s b)); [reflexivity | lia |].
  destruct (pcg_loop d pr tol (Z.to_nat max_its) 0 (pcg_init d pr s b)) as [its st].
  cbn [fst] in *. lia.
Qed.

(** The tolerance that [solveLinSys] hands to [pcg] is the floor
    [CG_BEST_TOL] or a number above it, for every index, exponent, [POWF]
    and right-hand side: it is never below the floor and, in binary64,
    never NaN. *)
Theorem cgTol_floor (POWF : F -> F -> F) (d : Data.t F) (b : list F) (iter : idxint) :
  cgTol POWF d b iter = CG_BEST_TOL \/
  (CG_BEST_TOL <:? cgTol POWF d b iter) = true.
Proof.
  unfold cgTol, MAX.
  match goal with |- context [if fltb CG_BEST_TOL ?c then _ else _] =>
    destruct (fltb CG_BEST_TOL c) eqn:E end.
  - right. exact E.
  - left. reflexivity.
Qed.

End Budget.

Lemma valid_d_norows : valid_csc (Data.m d_norows) (Data.n d_norows) (Data.A d_norows).
Proof. apply valid_cscb_sound. vm_compute. reflexivity. Qed.

Lemma valid_d_unsorted :
  valid_csc (Data.m d_unsorted) (Data.n d_unsorted) (Data.A d_unsorted).
Proof. apply valid_cscb_sound. vm_compute. reflexivity. Qed.

Lemma cache_allocated_unsorted : cache_allocated d_unsorted p_cache_only.
Proof. repeat split; eexists; eexists; split; reflexivity. Qed.

Lemma ready_p_blk : ready d_blk p_blk.
Proof.
  unfold ready.
  repeat (split; [eexists; eexists; split; vm_compute; reflexivity|]).
  exact cache_p_blk.
Qed.

Lemma fresh_w_fresh : fresh w_fresh.
Proof. intros a []. Qed.

Lemma pcg_budget_slack_witness :
  pcg d_id p_id None [2; 2]%float 5 1e-7%float = pcg d_id p_id None [2; 2]%float 2 1e-7%float.
Proof.
  apply (pcg_budget_slack d_id p_id None [2; 2]%float 2 5 1e-7%float).
  - lia.
  - vm_compute. reflexivity.
Defined.

Lemma solveLinSys_no_rows_witness :
  fst (value_of (p_norows, []) run_norows) =
    snd (fst (pcg d_norows p_norows None [2; 4]%float 2
                (cgTol pow_rate0 d_norows [2; 4]%float 0))) /\
  snd (value_of (p_norows, []) run_norows) =
    snd (pcg d_norows p_norows None [2; 4]%float 2 (cgTol pow_rate0 d_norows [2; 4]%float 0)).
Proof.
  apply (solveLinSys_no_rows pow_rate0 d_norows p_norows [2; 4]%float None 0 1%float
           w_norows (world_of w_norows run_norows)
           (fst (value_of (p_norows, []) run_norows))
           (snd (value_of (p_norows, []) run_norows)) valid_d_norows eq_refl).
  vm_compute. reflexivity.
Defined.

Lemma solveLinSys_keeps_ready_witness :
  ready d_blk (fst (value_of (p_blk, []) after_first)) /\
  Priv.M (fst (value_of (p_blk, []) after_first)) = Priv.M p_blk /\
  At_of (fst (value_of (p_blk, []) after_first)) = At_of p_blk /\
  length (snd (value_of (p_blk, []) after_first)) = length b_first /\
  live (world_of w_blk after_first) = live w_blk /\
  next (world_of w_blk after_first) = next w_blk /\
  oracle (world_of w_blk after_first) = oracle w_blk.
Proof.
  apply (solveLinSys_keeps_ready pow_rate0 d_blk p_blk b_first None 0 1.5%float w_blk
           (world_of w_blk after_first)
           (fst (value_of (p_blk, []) after_first))
           (snd (value_of (p_blk, []) after_first)) valid_d_blk ready_p_blk I eq_refl).
  vm_compute. reflexivity.
Defined.

Lemma solveLinSys_blocks_witness :
  (forall j, 0 <= j < 5 ->
     get f0 (snd (value_of (p_blk, []) after_first)) j =
     get f0 (snd (pcg d_blk p_blk None (accumByAtrans d_blk p_blk (offset b_first 5) b_first) 5
                    (cgTol pow_rate0 d_blk b_first 0))) j) /\
  (forall i, 0 <= i < 5 ->
     get f0 (snd (value_of (p_blk, []) after_first)) (5 + i) =
     fold_left (fun acc e => fadd acc (fmul (e_val e)
                  (get f0 (snd (value_of (p_blk, []) after_first)) (e_col e))))
       (in_row i (entries_of 5 A_blk))
       (fmul (get f0 b_first (5 + i)) (fopp f1))).
Proof.
  apply (solveLinSys_blocks pow_rate0 d_blk p_blk b_first None 0 1.5%float w_blk
           (world_of w_blk after_first)
           (fst (value_of (p_blk, []) after_first))
           (snd (value_of (p_blk, []) after_first)) valid_d_blk ready_p_blk I eq_refl).
  vm_compute. reflexivity.
Defined.

Lemma transpose_releases_scratch_witness :
  exists p' w',
    transpose d_unsorted p_cache_only w_fresh = Ok p' w' /\
    live w' = live w_fresh /\
    addrs_of p' = addrs_of p_cache_only /\
    totCgIts w' = totCgIts w_fresh /\ totalSolveTime w' = totalSolveTime w_fresh.
Proof.
  apply (transpose_releases_scratch d_unsorted p_cache_only w_fresh
           cache_allocated_unsorted I fresh_w_fresh).
Defined.

Lemma transpose_unchecked_calloc_witness :
  transpose d_unsorted p_cache_only w_refuse_Priv = Fault.
Proof.
  apply (transpose_unchecked_calloc d_unsorted p_cache_only w_refuse_Priv []).
  - reflexivity.
  - reflexivity.
Defined.

Lemma transpose_sorts_columns_witness :
  StronglySorted Z.le
    (map e_row (col_entries (deref (Priv.Atp (value_of p_cache_only run_transpose)))
                  (deref (Priv.Ati (value_of p_cache_only run_transpose)))
                  (deref (Priv.Atx (value_of p_cache_only run_transpose))) 0)).
Proof.
  apply (transpose_sorts_columns d_unsorted p_cache_only (value_of p_cache_only run_transpose)
           w_fresh (world_of w_fresh run_transpose) valid_d_unsorted cache_allocated_unsorted).
  - vm_compute. reflexivity.
  - simpl. lia.
Defined.

Lemma freePriv_releases_initPriv_witness :
  (exists w2, freePriv (Ptr 0 [p_blk]) w_blk = Ok tt w2 /\ live w2 = live w_fresh) /\
  (forall b ws iter elapsed s' b' w2,
     solveLinSys pow_rate0 d_blk p_blk b ws iter elapsed w_blk = Ok (s', b') w2 ->
     exists w3, freePriv (Ptr 0 [s']) w2 = Ok tt w3 /\ live w3 = live w_fresh).
Proof.
  apply (freePriv_releases_initPriv pow_rate0 d_blk w_fresh w_blk 0 p_blk fresh_w_fresh).
  vm_compute. reflexivity.
Defined.

Lemma initPriv_ready_witness :
  exists a s w',
    initPriv d_blk w_fresh = Ok (Ptr a [s]) w' /\
    ready d_blk s /\
    forall j, 0 <= j < 5 ->
      get f0 (deref (Priv.M s)) j =
      fdiv f1 (fadd (Data.RHO_X d_blk) (col_sumsq (entries_of 5 A_blk) j)).
Proof.
  apply (initPriv_ready d_blk w_fresh valid_d_blk).
  unfold grants_all. simpl. constructor.
Defined.

Lemma initPriv_failure_releases_witness :
  live (world_of w_refuse_tmp (initPriv d_id w_refuse_tmp)) = live w_refuse_tmp.
Proof.
  apply (initPriv_failure_releases d_id w_refuse_tmp
           (world_of w_refuse_tmp (initPriv d_id w_refuse_tmp))).
  - intros a [].
  - vm_compute. reflexivity.
Defined.

(** ** Zero and NaN in binary64 *)

Lemma nan_add_l x y : is_NaN x -> is_NaN (x + y)%float.
Proof. unfold is_NaN. intros H. rewrite add_spec, H. reflexivity. Qed.

Lemma nan_add_r x y : is_NaN y -> is_NaN (x + y)%float.
Proof.
  unfold is_NaN. intros H. rewrite add_spec, H.
  destruct (Prim2SF x) as [| | |]; reflexivity.
Qed.

Lemma nan_mul_l x y : is_NaN x -> is_NaN (x * y)%float.
Proof. unfold is_NaN. intros H. rewrite mul_spec, H. reflexivity. Qed.

Lemma nan_opp x : is_NaN x -> is_NaN (- x)%float.
Proof. unfold is_NaN. intros H. rewrite opp_spec, H. reflexivity. Qed.

Lemma nan_sqrt x : is_NaN x -> is_NaN (PrimFloat.sqrt x).
Proof. unfold is_NaN. intros H. rewrite sqrt_spec, H. reflexivity. Qed.

Lemma nan_ltb x y : is_NaN x -> (x <? y)%float = false.
Proof. unfold is_NaN. intros H. rewrite ltb_spec, H. reflexivity. Qed.

Lemma zero_is_zero : is_zero 0%float.
Proof. exists false. reflexivity. Qed.

Lemma zero_add x y : is_zero x -> is_zero y -> is_zero (x + y)%float.
Proof.
  intros [sx Hx] [sy Hy]. unfold is_zero. rewrite add_spec, Hx, Hy.
  destruct sx, sy; eexists; reflexivity.
Qed.

Lemma zero_mul_l x a : is_zero x -> PrimFloat.is_finite a = true -> is_zero (x * a)%float.
Proof.
  intros [sx Hx] Ha. unfold is_zero. rewrite mul_spec, Hx.
  destruct (is_finite_cases a Ha) as (s & [E | (m & e & E)]); rewrite E;
    eexists; reflexivity.
Qed.

Lemma zero_mul_r a x : PrimFloat.is_finite a = true -> is_zero x -> is_zero (a * x)%float.
Proof.
  intros Ha [sx Hx]. unfold is_zero. rewrite mul_spec, Hx.
  destruct (is_finite_cases a Ha) as (s & [E | (m & e & E)]); rewrite E;
    eexists; reflexivity.
Qed.

Lemma zero_mul x y : is_zero x -> is_zero y -> is_zero (x * y)%float.
Proof.
  intros [sx Hx] [sy Hy]. unfold is_zero. rewrite mul_spec, Hx, Hy.
  eexists; reflexivity.
Qed.

Lemma zero_div_zero x y : is_zero x -> is_zero y -> is_NaN (x / y)%float.
Proof.
  intros [sx Hx] [sy Hy]. unfold is_NaN. rewrite div_spec, Hx, Hy. reflexivity.
Qed.

(** A sum of zeros is a zero, and a sum that has reached NaN stays NaN. *)
Lemma fold_zero64 {A} (g : A -> float) (l : list A) (acc : float) :
  is_zero acc -> (forall e, In e l -> is_zero (g e)) ->
  is_zero (fold_left (fun a e => (a + g e)%float) l acc).
Proof.
  revert acc. induction l as [|e l IH]; intros acc Ha Hg; cbn [fold_left]; [exact Ha|].
  apply IH.
  - apply zero_add; [exact Ha | apply Hg; left; reflexivity].
  - intros e' He'. apply Hg. right. exact He'.
Qed.

Lemma fold_nan64 {A} (g : A -> float) (l : list A) (acc : float) :
  is_NaN acc -> is_NaN (fold_left (fun a e => (a + g e)%float) l acc).
Proof.
  revert acc. induction l as [|e l IH]; intros acc Ha; cbn [fold_left]; [exact Ha|].
  apply IH. apply nan_add_l, Ha.
Qed.

Lemma get_default {T} (d : T) (a : list T) j :
  j < 0 \/ Z.of_nat (length a) <= j -> get d a j = d.
Proof.
  intros H. unfold get. destruct (Z.ltb_spec j 0); [reflexivity|].
  apply nth_overflow. lia.
Qed.

(** ** pcg from a residual that is exactly zero *)

Section ZeroResidual.
Variable d : Data.t float.
Variable pr : Priv.t float.
Hypothesis V : valid_csc (Data.m d) (Data.n d) (Data.A d).
Hypothesis C : is_transpose_cache d pr.
Hypothesis Hn1 : 1 <= Data.n d.
Hypothesis Hfin :
  Forall (fun a => PrimFloat.is_finite a = true) (Data.RHO_X d :: AMatrix.x (Data.A d)).

Lemma entry_finite (e : @entry float) :
  In e (entries_of (Data.n d) (Data.A d)) -> PrimFloat.is_finite (e_val e) = true.
Proof.
  intros He. inversion Hfin as [|? ? _ HA]; subst.
  rewrite Forall_forall in HA. apply HA.
  apply (In_entries_val (Data.n d) (AMatrix.p (Data.A d)) (AMatrix.i (Data.A d))
           (AMatrix.x (Data.A d)) e (csc_n V)); try exact He.
  - intros j Hj. apply (csc_mono V). exact Hj.
  - exact (csc_p0 V).
  - exact (csc_len_x V).
Qed.

Lemma get_map_zero (f : Z -> float) n :
  (forall j, 0 <= j < n -> is_zero (f j)) ->
  forall j, is_zero (get f0 (map f (zrange 0 n)) j).
Proof.
  intros H j. destruct (Z.le_gt_cases 0 n) as [Hn|Hn].
  - destruct (Z.lt_ge_cases j 0) as [Hj|Hj];
      [rewrite get_default by lia; apply zero_is_zero|].
    destruct (Z.lt_ge_cases j n) as [Hlt|Hge].
    + rewrite get_map_zrange by lia. apply H. lia.
    + rewrite get_default by (rewrite length_map, length_zrange; lia). apply zero_is_zero.
  - rewrite zrange_nil by lia. cbn [map]. rewrite get_default by (cbn [length]; lia).
    apply zero_is_zero.
Qed.

Lemma A_times_zero (x : list float) :
  (forall c, is_zero (get f0 x c)) -> forall i, is_zero (get f0 (A_times d x) i).
Proof.
  intros Hx. unfold A_times. apply get_map_zero. intros i Hi. unfold row_dot.
  apply (fold_zero64 (fun e => fmul (e_val e) (get f0 x (e_col e)))); [apply zero_is_zero|].
  intros e He. apply zero_mul_r; [|apply Hx].
  apply entry_finite. unfold in_row in He. apply filter_In in He. apply He.
Qed.

Lemma operator_zero64 (x : list float) :
  (forall c, is_zero (get f0 x c)) -> forall j, is_zero (get f0 (operator d x) j).
Proof.
  intros Hx. unfold operator. apply get_map_zero. intros j Hj.
  apply zero_add.
  - unfold At_times. apply get_map_zero. intros j' Hj'. unfold col_dot.
    apply (fold_zero64 (fun e => fmul (e_val e) (get f0 (A_times d x) (e_row e))));
      [apply zero_is_zero|].
    intros e He. apply zero_mul_r; [|apply A_times_zero, Hx].
    apply entry_finite. unfold in_col in He. apply filter_In in He. apply He.
  - apply zero_mul_r; [|apply Hx]. inversion Hfin; assumption.
Qed.

Lemma calcNorm_nan (r : list float) :
  is_NaN (get f0 r 0) -> is_NaN (calcNorm r (Data.n d)).
Proof.
  intros H. unfold calcNorm. apply nan_sqrt. unfold calcNormSq.
  rewrite for_loop_first by lia. rewrite for_loop_fold.
  apply (fold_nan64 (fun i => fmul (get f0 r i) (get f0 r i))).
  apply nan_add_r, nan_mul_l, H.
Qed.

(** A pass whose step length is NaN poisons the solution and the residual
    and does not stop. *)
Lemma pcg_body_nan tol (st : @cg_state float) :
  cg_lengths d st ->
  Data.n d <= Z.of_nat (length (cg_b st)) ->
  (forall j, 0 <= j < Data.n d ->
     is_NaN (fmul (fdiv (cg_ipzr st) (innerProd (cg_p st) (operator d (cg_p st)) (Data.n d)))
                  (get f0 (cg_p st) j)) \/ is_NaN (get f0 (cg_b st) j)) ->
  (forall j, 0 <= j < Data.n d ->
     is_NaN (fmul (fopp (fdiv (cg_ipzr st)
                           (innerProd (cg_p st) (operator d (cg_p st)) (Data.n d))))
                  (get f0 (operator d (cg_p st)) j)) \/ is_NaN (get f0 (cg_r st) j)) ->
  fst (pcg_body d pr tol st) = false /\ poisoned d (snd (pcg_body d pr tol st)).
Proof.
  intros (Lp & Lr & LAp & Lz & Ltmp) Lb Hb Hr.
  pose proof (csc_n V) as Hn.
  unfold pcg_body.
  rewrite (matVec_operator d pr (cg_tmp st) (cg_p st) (cg_Ap st) V C Ltmp LAp).
  set (alpha := fdiv (cg_ipzr st) _) in *.
  destruct (addScaledArray_spec (cg_b st) (cg_p st) (Data.n d) alpha ltac:(lia))
    as (_ & Gb & _).
  destruct (addScaledArray_spec (cg_r st) (operator d (cg_p st)) (Data.n d) (fopp alpha)
              ltac:(lia)) as (_ & Gr & _).
  assert (Nb : forall j, 0 <= j < Data.n d ->
            is_NaN (get f0 (addScaledArray (cg_b st) (cg_p st) (Data.n d) alpha) j)).
  { intros j Hj. rewrite Gb by lia. destruct (Hb j Hj) as [H|H];
      [apply nan_add_r, H | apply nan_add_l, H]. }
  assert (Nr : forall j, 0 <= j < Data.n d ->
            is_NaN (get f0 (addScaledArray (cg_r st) (operator d (cg_p st)) (Data.n d)
                              (fopp alpha)) j)).
  { intros j Hj. rewrite Gr by lia. destruct (Hr j Hj) as [H|H];
      [apply nan_add_r, H | apply nan_add_l, H]. }
  assert (E : fltb (calcNorm (addScaledArray (cg_r st) (operator d (cg_p st)) (Data.n d)
                               (fopp alpha)) (Data.n d)) tol = false).
  { apply nan_ltb. apply calcNorm_nan. apply Nr. lia. }
  rewrite E. destruct (applyPreConditioner _ _ _ _) as [z ipzr]. cbn [fst snd].
  split; [reflexivity|]. intros j Hj. cbn [cg_b cg_r]. split; [apply Nb | apply Nr]; exact Hj.
Qed.

Lemma pcg_loop_poisoned tol k : forall i (st : @cg_state float),
  cg_lengths d st ->
  Data.n d <= Z.of_nat (length (cg_b st)) ->
  poisoned d st ->
  fst (pcg_loop d pr tol k i st) = i + Z.of_nat k /\
  poisoned d (snd (pcg_loop d pr tol k i st)).
Proof.
  induction k as [|k IH]; intros i st L Lb P.
  - cbn [pcg_loop fst snd]. split; [lia | exact P].
  - cbn [pcg_loop].
    pose proof (pcg_body_shape d pr tol st V C L Lb) as S. cbv zeta in S.
    destruct (pcg_body_nan tol st L Lb) as [E P1].
    { intros j Hj. right. apply P, Hj. }
    { intros j Hj. right. apply P, Hj. }
    destruct (pcg_body d pr tol st) as [stop st1]. cbn [fst snd] in *. subst stop.
    destruct S as (L1 & Lb1 & _).
    destruct (IH (i + 1) st1 L1 ltac:(lia) P1) as [E2 P2].
    split; [rewrite E2; lia | exact P2].
Qed.

End ZeroResidual.

Lemma pcg_init_fields {F} {PF : PFloat F} (d : Data.t F) (pr : Priv.t F) s (b : list F) :
  let st := pcg_init d pr s b in
  cg_p st = memcpy (deref (Priv.p pr))
              (fst (applyPreConditioner (deref (Priv.M pr)) (deref (Priv.z pr)) (cg_r st)
                      (Data.n d))) (Data.n d) /\
  cg_ipzr st = snd (applyPreConditioner (deref (Priv.M pr)) (deref (Priv.z pr)) (cg_r st)
                      (Data.n d)).
Proof.
  cbv zeta. unfold pcg_init. destruct s as [s0|].
  - destruct (matVec _ _ _ _ _) as [tmp r].
    destruct (applyPreConditioner _ _ _ _) as [z ipzr] eqn:E. cbn [cg_p cg_r cg_ipzr].
    rewrite E. split; reflexivity.
  - destruct (applyPreConditioner _ _ _ _) as [z ipzr] eqn:E. cbn [cg_p cg_r cg_ipzr].
    rewrite E. split; reflexivity.
Qed.

(** In binary64, when the residual of the starting point is exactly zero
    (a warm start that solves the system, or a zero right-hand side with no
    warm start), the first step length is 0/0: [pcg] never passes its
    convergence test, uses the whole budget and returns NaN in each of the
    first [n] cells of [b]. *)
Theorem pcg_zero_residual_nan (d : Data.t float) (pr : Priv.t float)
    (s : option (list float)) (b : list float) (max_its : idxint) (tol : float) :
  valid_csc (Data.m d) (Data.n d) (Data.A d) ->
  ready d pr ->
  warm_start_fits d s ->
  Data.n d <= Z.of_nat (length b) ->
  1 <= Data.n d ->
  1 <= max_its ->
  Forall (fun a => PrimFloat.is_finite a = true) (Data.RHO_X d :: AMatrix.x (Data.A d)) ->
  (forall j, 0 <= j < Data.n d ->
     PrimFloat.is_finite (get f0 (deref (Priv.M pr)) j) = true) ->
  (forall j, 0 <= j < Data.n d -> is_zero (get f0 (cg_r (pcg_init d pr s b)) j)) ->
  fst (fst (pcg d pr s b max_its tol)) = max_its /\
  forall j, 0 <= j < Data.n d -> is_NaN (get f0 (snd (pcg d pr s b max_its tol)) j).
Proof.
  intros V R Hs Lb Hn1 Hk Hfin HM Hr.
  destruct (pcg_init_shape d pr s b V R Hs Lb) as (L0 & Lb0 & _).
  destruct (pcg_init_fields d pr s b) as [Ep Ei].
  destruct R as (Pp & _ & _ & _ & Pz & PM & C).
  destruct Pp as (a1 & vp & Ep' & Lp). destruct Pz as (a5 & vz & Ez & Lz).
  destruct PM as (a6 & vM & EM & LM).
  rewrite Ep', Ez, EM in Ep. rewrite Ez, EM in Ei. rewrite EM in HM.
  cbn [deref] in Ep, Ei, HM.
  set (st0 := pcg_init d pr s b) in *.
  destruct L0 as (Lp0 & Lr0 & LAp0 & Lz0 & Ltmp0).
  destruct (applyPreConditioner_spec vM vz (cg_r st0) (Data.n d) ltac:(lia))
    as (LZ & GZ & _ & GI).
  set (z := fst (applyPreConditioner vM vz (cg_r st0) (Data.n d))) in *.
  assert (Zz : forall j, 0 <= j < Data.n d -> is_zero (get f0 z j)).
  { intros j Hj. rewrite GZ by lia. apply zero_mul_l; [apply Hr | apply HM]; exact Hj. }
  assert (Zp : forall j, is_zero (get f0 (cg_p st0) j)).
  { intros j. rewrite Ep.
    destruct (Z.lt_ge_cases j 0) as [Hj|Hj];
      [rewrite get_default by lia; apply zero_is_zero|].
    destruct (Z.lt_ge_cases j (Data.n d)) as [Hlt|Hge].
    - rewrite get_memcpy_lt by lia. apply Zz. lia.
    - rewrite get_memcpy_ge by lia. rewrite get_default by lia. apply zero_is_zero. }
  assert (Zi : is_zero (cg_ipzr st0)).
  { rewrite Ei, GI. unfold innerProd. rewrite for_loop_fold.
    apply (fold_zero64 (fun i => fmul (get f0 z i) (get f0 (cg_r st0) i)));
      [apply zero_is_zero|].
    intros i Hi. apply In_zrange in Hi. apply zero_mul; [apply Zz | apply Hr]; lia. }
  pose proof (operator_zero64 d V Hfin (cg_p st0) Zp) as ZAp.
  assert (Na : is_NaN (fdiv (cg_ipzr st0)
                         (innerProd (cg_p st0) (operator d (cg_p st0)) (Data.n d)))).
  { apply zero_div_zero; [exact Zi|]. unfold innerProd. rewrite for_loop_fold.
    apply (fold_zero64 (fun i => fmul (get f0 (cg_p st0) i)
                                   (get f0 (operator d (cg_p st0)) i)));
      [apply zero_is_zero|].
    intros i _. apply zero_mul; [apply Zp | apply ZAp]. }
  assert (L0 : cg_lengths d st0) by (unfold cg_lengths; auto).
  destruct (pcg_body_nan d pr V C Hn1 tol st0 L0 ltac:(lia)) as [E1 P1].
  { intros j Hj. left. apply nan_mul_l, Na. }
  { intros j Hj. left. apply nan_mul_l, nan_opp, Na. }
  pose proof (pcg_body_shape d pr tol st0 V C L0 ltac:(lia)) as S1. cbv zeta in S1.
  destruct (pcg_value d pr s b max_its tol) as [_ Ex]. rewrite Ex.
  unfold pcg, pcg_run. fold st0.
  replace (Z.to_nat max_its) with (S (Z.to_nat (max_its - 1))) by lia.
  cbn [pcg_loop].
  destruct (pcg_body d pr tol st0) as [stop st1]. cbn [fst snd] in *. subst stop.
  destruct S1 as (L1 & Lb1 & _).
  destruct (pcg_loop_poisoned d pr V C Hn1 tol (Z.to_nat (max_its - 1)) 1 st1 L1
              ltac:(lia) P1) as [E2 P2].
  destruct (pcg_loop d pr tol (Z.to_nat (max_its - 1)) (0 + 1) st1) as [its st2] eqn:E.
  change (0 + 1) with 1 in E. rewrite E in E2, P2. cbn [fst snd] in *.
  split; [lia|]. intros j Hj. apply P2, Hj.
Qed.

Lemma cache_p_id : is_transpose_cache d_id p_id.
Proof.
  split.
  - apply valid_cscb_sound. vm_compute. reflexivity.
  - intros i Hi. change (Data.m d_id) with 2 in Hi.
    assert (H : i = 0 \/ i = 1) by lia. destruct H as [->| ->]; vm_compute; reflexivity.
Qed.

Lemma ready_p_id : ready d_id p_id.
Proof.
  unfold ready.
  repeat (split; [eexists; eexists; split; vm_compute; reflexivity|]).
  exact cache_p_id.
Qed.

Lemma pcg_zero_residual_nan_witness :
  fst (fst (pcg d_id p_id (Some [1; 1]%float) [2; 2]%float 2 1e-7%float)) = 2 /\
  forall j, 0 <= j < 2 ->
    is_NaN (get f0 (snd (pcg d_id p_id (Some [1; 1]%float) [2; 2]%float 2 1e-7%float)) j).
Proof.
  apply (pcg_zero_residual_nan d_id p_id (Some [1; 1]%float) [2; 2]%float 2 1e-7%float
           valid_d_id ready_p_id eq_refl).
  - simpl. lia.
  - simpl. lia.
  - lia.
  - repeat constructor.
  - intros j Hj. change (Data.n d_id) with 2 in Hj.
    assert (H : j = 0 \/ j = 1) by lia. destruct H as [->| ->]; vm_compute; reflexivity.
  - intros j Hj. change (Data.n d_id) with 2 in Hj.
    assert (H : j = 0 \/ j = 1) by lia.
    destruct H as [->| ->]; exists true; vm_compute; reflexivity.
Defined.

Lemma pcg_first_pass_witness :
  1 <= fst (fst (pcg d_id p_id (Some [1; 1]%float) [2; 2]%float 2 1e-7%float)) <= 2 /\
  fst (fst (pcg d_id p_id (Some [1; 1]%float) [2; 2]%float 0 1e-7%float)) = 0 /\
  snd (pcg d_id p_id (Some [1; 1]%float) [2; 2]%float 0 1e-7%float) =
    memcpy [2; 2]%float [1; 1]%float 2.
Proof.
  split.
  - apply (proj1 (pcg_first_pass d_id p_id (Some [1; 1]%float) [2; 2]%float 2 1e-7%float)). lia.
  - apply (proj2 (pcg_first_pass d_id p_id (Some [1; 1]%float) [2; 2]%float 0 1e-7%float)). lia.
Defined.

Lemma getLinSysSummary_string_witness :
  getLinSysSummary p_blk 1 w_refuse_Priv = Fault /\
  exists a w',
    getLinSysSummary p_blk 1 (world_of w_blk after_second) =
      Ok (Ptr a [ fdiv (of_idxint (totCgIts (world_of w_blk after_second))) (of_idxint (1 + 1));
                  fdiv (fdiv (totalSolveTime (world_of w_blk after_second)) (of_idxint (1 + 1)))
                       (of_idxint 1000) ]) w' /\
    live w' = a :: live (world_of w_blk after_second) /\
    totCgIts w' = 0 /\ totalSolveTime w' = f0.
Proof.
  split.
  - apply (proj1 (getLinSysSummary_string p_blk 1 w_refuse_Priv) []). reflexivity.
  - apply (proj2 (getLinSysSummary_string p_blk 1 (world_of w_blk after_second))).
    vm_compute. exact I.
Defined.

(** ** More on matVec, transpose, pcg and the statistics *)

Local Open Scope R_scope.

(** In exact arithmetic the operator that [matVec] applies is symmetric:
    <y, matVec(x)> = <x, matVec(y)>. *)
Theorem matVec_symmetric (d : Data.t R) (p : Priv.t R) (tmp out x y : list R) :
  valid_csc (Data.m d) (Data.n d) (Data.A d) ->
  is_transpose_cache d p ->
  Z.of_nat (length tmp) = Data.m d ->
  Z.of_nat (length out) = Data.n d ->
  innerProd y (snd (matVec d p tmp x out)) (Data.n d) =
  innerProd x (snd (matVec d p tmp y out)) (Data.n d).
Proof.
  intros V C Ltmp Lout. rewrite !(matVec_operator d p tmp _ out V C Ltmp Lout). cbn [snd].
  rewrite !operator_bilinear by exact V.
  rewrite (innerProd_comm y x). rewrite (innerProd_comm (A_times d y)). reflexivity.
Qed.

(** In exact arithmetic the operator that [matVec] applies is linear:
    matVec(x + a q) = matVec(x) + a matVec(q), cell by cell, where x + a q is
    what [addScaledArray] computes. *)
Theorem matVec_linear (d : Data.t R) (p : Priv.t R) (tmp out x q : list R) (a : R) :
  valid_csc (Data.m d) (Data.n d) (Data.A d) ->
  is_transpose_cache d p ->
  Z.of_nat (length tmp) = Data.m d ->
  Z.of_nat (length out) = Data.n d ->
  (Data.n d <= Z.of_nat (length x))%Z ->
  forall j, (0 <= j < Data.n d)%Z ->
    get 0 (snd (matVec d p tmp (addScaledArray x q (Data.n d) a) out)) j =
    get 0 (snd (matVec d p tmp x out)) j + a * get 0 (snd (matVec d p tmp q out)) j.
Proof.
  intros V C Ltmp Lout Lx j Hj.
  rewrite !(matVec_operator d p tmp _ out V C Ltmp Lout). cbn [snd].
  pose proof (csc_n V) as Hn.
  destruct (addScaledArray_spec x q (Data.n d) a ltac:(lia)) as (_ & G & _).
  cbn [fadd fmul f0 exactR] in G.
  apply (operator_linear d x q _ a V G j Hj).
Qed.

Local Close Scope R_scope.

Section More.
Context {F : Type} {PF : PFloat F}.
Local Open Scope pf_scope.

(** The column pointers that [transpose] builds count the rows of A: column
    [i] of the transpose has as many cells as row [i] of A stores nonzeros. *)
Theorem transpose_row_pointers (d : Data.t F) (p p' : Priv.t F) (w w' : World F) :
  valid_csc (Data.m d) (Data.n d) (Data.A d) ->
  cache_allocated d p ->
  transpose d p w = Ok p' w' ->
  forall i, 0 <= i < Data.m d ->
    (deref (Priv.Atp p')).<[i + 1]> - (deref (Priv.Atp p')).<[i]> =
    Z.of_nat (length (in_row i (entries_of (Data.n d) (Data.A d)))).
Proof.
  intros V HC H i Hi.
  destruct (transpose_Ok d p p' w w' V HC H) as [VT HT].
  specialize (HT i Hi). apply (f_equal (@length _)) in HT.
  unfold col_entries in HT. rewrite !length_map, length_zrange in HT.
  pose proof (csc_mono VT (j:=i) Hi) as Hmono.
  unfold At_of in HT, Hmono. cbn [AMatrix.p] in HT, Hmono. lia.
Qed.

(** [pcg] writes the first [n] cells of [b] only and hands the workspace
    back complete: [b] keeps its length and its cells from [n] on, the work
    vectors keep their lengths, M and the transpose cache are untouched. *)
Theorem pcg_frame (d : Data.t F) (pr : Priv.t F) (s : option (list F)) (b : list F)
    (max_its : idxint) (tol : F) :
  valid_csc (Data.m d) (Data.n d) (Data.A d) ->
  ready d pr ->
  warm_start_fits d s ->
  Data.n d <= Z.of_nat (length b) ->
  length (snd (pcg d pr s b max_its tol)) = length b /\
  offset (snd (pcg d pr s b max_its tol)) (Data.n d) = offset b (Data.n d) /\
  ready d (snd (fst (pcg d pr s b max_its tol))) /\
  Priv.M (snd (fst (pcg d pr s b max_its tol))) = Priv.M pr /\
  At_of (snd (fst (pcg d pr s b max_its tol))) = At_of pr.
Proof.
  intros V R Hs Lb.
  destruct (pcg_run_shape d pr s b max_its tol V R Hs Lb) as (L & Lbx & Obx).
  destruct (pcg_value d pr s b max_its tol) as [-> ->].
  split; [exact Lbx|]. split; [exact Obx|].
  split; [apply ready_writeback; assumption|]. split; reflexivity.
Qed.

Lemma pcg_count_bounds (d : Data.t F) (pr : Priv.t F) s (b : list F) max_its tol :
  0 <= max_its ->
  0 <= fst (fst (pcg d pr s b max_its tol)) <= max_its /\
  (1 <= max_its -> 1 <= fst (fst (pcg d pr s b max_its tol))).
Proof.
  intros H0. unfold pcg, pcg_run.
  destruct (pcg_loop d pr tol (Z.to_nat max_its) 0 (pcg_init d pr s b)) as [its st] eqn:E.
  cbn [fst].
  destruct (pcg_loop_count _ _ _ _ _ _ _ _ E) as (H1 & _). split; [lia|].
  intros H. replace (Z.to_nat max_its) with (S (Z.to_nat (max_its - 1))) in E by lia.
  pose proof (pcg_loop_first d pr tol (Z.to_nat (max_its - 1)) 0 (pcg_init d pr s b)) as H2.
  rewrite E in H2. cbn [fst] in H2. lia.
Qed.

(** What a call of [solveLinSys] does to the statistics: the elapsed time is
    always added to [totalSolveTime]; the iterations of [pcg] are added to
    [totCgIts] only when the outer-iteration index is not negative, and then
    between 0 and n of them (at least 1 when n >= 1); a call with a negative
    index leaves [totCgIts] alone. *)
Theorem solveLinSys_counts (POWF : F -> F -> F) (d : Data.t F) (p : Priv.t F) (b : list F)
    (s : option (list F)) (iter : Z) (elapsed : F) (w w' : World F) p' b' :
  0 <= Data.n d ->
  solveLinSys POWF d p b s iter elapsed w = Ok (p', b') w' ->
  totalSolveTime w' = totalSolveTime w +: elapsed /\
  (iter < 0 -> totCgIts w' = totCgIts w) /\
  (0 <= iter ->
   totCgIts w <= totCgIts w' <= totCgIts w + Data.n d /\
   (1 <= Data.n d -> totCgIts w + 1 <= totCgIts w')).
Proof.
  intros Hn H.
  destruct (solveLinSys_world POWF d p b s iter elapsed w) as (p1 & b1 & E).
  rewrite E in H. inversion H; subst. cbn [totalSolveTime totCgIts].
  split; [reflexivity|]. split.
  - intros Hi. destruct (Z.leb_spec 0 iter); [lia | reflexivity].
  - intros Hi. destruct (Z.leb_spec 0 iter); [|lia].
    unfold cgIts.
    destruct (pcg_count_bounds d p s (accumByAtrans d p (offset b (Data.n d)) b) (Data.n d)
                (cgTol POWF d b iter) Hn) as [B1 B2].
    split; [lia|]. intros H1. specialize (B2 H1). lia.
Qed.

End More.

Lemma cache_p_one : is_transpose_cache d_one p_one.
Proof. apply ready_p_one. Qed.

Local Open Scope R_scope.

Lemma matVec_symmetric_witness :
  innerProd [4] (snd (matVec d_one p_one [0] [3] [0])) 1 =
  innerProd [3] (snd (matVec d_one p_one [0] [4] [0])) 1.
Proof.
  apply (matVec_symmetric d_one p_one [0] [0] [3] [4] valid_d_one cache_p_one eq_refl eq_refl).
Defined.

Lemma matVec_linear_witness :
  get 0 (snd (matVec d_one p_one [0] (addScaledArray [3] [4] 1 2) [0])) 0 =
  get 0 (snd (matVec d_one p_one [0] [3] [0])) 0 +
  2 * get 0 (snd (matVec d_one p_one [0] [4] [0])) 0.
Proof.
  apply (matVec_linear d_one p_one [0] [0] [3] [4] 2 valid_d_one cache_p_one eq_refl eq_refl).
  - simpl. lia.
  - simpl. lia.
Defined.

Local Close Scope R_scope.

Lemma transpose_row_pointers_witness :
  get 0 (deref (Priv.Atp (value_of p_cache_only run_transpose))) (0 + 1) -
  get 0 (deref (Priv.Atp (value_of p_cache_only run_transpose))) 0 =
  Z.of_nat (length (in_row 0 (entries_of 2 A_unsorted))).
Proof.
  apply (transpose_row_pointers d_unsorted p_cache_only (value_of p_cache_only run_transpose)
           w_fresh (world_of w_fresh run_transpose) valid_d_unsorted cache_allocated_unsorted).
  - vm_compute. reflexivity.
  - simpl. lia.
Defined.

Lemma pcg_frame_witness :
  length (snd (pcg d_blk p_blk None b_first 5 1e-7%float)) = length b_first /\
  offset (snd (pcg d_blk p_blk None b_first 5 1e-7%float)) 5 = offset b_first 5 /\
  ready d_blk (snd (fst (pcg d_blk p_blk None b_first 5 1e-7%float))) /\
  Priv.M (snd (fst (pcg d_blk p_blk None b_first 5 1e-7%float))) = Priv.M p_blk /\
  At_of (snd (fst (pcg d_blk p_blk None b_first 5 1e-7%float))) = At_of p_blk.
Proof.
  apply (pcg_frame d_blk p_blk None b_first 5 1e-7%float valid_d_blk ready_p_blk I).
  simpl. lia.
Defined.

Lemma solveLinSys_counts_witness :
  totalSolveTime (world_of w_blk after_first) = fadd (totalSolveTime w_blk) 1.5%float /\
  (0 < 0 -> totCgIts (world_of w_blk after_first) = totCgIts w_blk) /\
  (0 <= 0 ->
   totCgIts w_blk <= totCgIts (world_of w_blk after_first) <= totCgIts w_blk + 5 /\
   (1 <= 5 -> totCgIts w_blk + 1 <= totCgIts (world_of w_blk after_first))).
Proof.
  apply (solveLinSys_counts pow_rate0 d_blk p_blk b_first None 0 1.5%float w_blk
           (world_of w_blk after_first)
           (fst (value_of (p_blk, []) after_first))
           (snd (value_of (p_blk, []) after_first))).
  - simpl. lia.
  - vm_compute. reflexivity.
Defined.

(** ** pcg in exact arithmetic: conjugate directions and orthogonal residuals *)

Local Open Scope R_scope.















(** The algebra of the preconditioned conjugate gradient recurrences, for a
    symmetric positive definite operator [K] and a positive diagonal [M]:
    [r], [p], [z] and [gamma] are the residuals, directions, preconditioned
    residuals and the scalars <z, r> before each of [N] passes none of
    which meets a zero residual. *)
Section ConjugateGradient.
Variable n : Z.
Variable K : list R -> list R.
Variable M : list R.
Local Abbreviation ip u v := (innerProd u v n) (only parsing).

Hypothesis Ksym : forall u v, ip u (K v) = ip v (K u).
Hypothesis Kpd : forall u, 0 < ip u u -> 0 < ip u (K u).

Variables r p z : nat -> list R.
Variable gamma : nat -> R.
Variable N : nat.

Hypothesis Hz : forall i, (i <= N)%nat -> forall l, (0 <= l < n)%Z ->
  get 0 (z i) l = get 0 (r i) l * get 0 M l.
Hypothesis Hg : forall i, (i <= N)%nat -> gamma i = ip (z i) (r i).
Hypothesis Hp0 : forall l, (0 <= l < n)%Z -> get 0 (p 0%nat) l = get 0 (z 0%nat) l.
Hypothesis Hr : forall i, (i < N)%nat -> forall l, (0 <= l < n)%Z ->
  get 0 (r (S i)) l =
  get 0 (r i) l + - (gamma i / ip (p i) (K (p i))) * get 0 (K (p i)) l.
Hypothesis Hp : forall i, (i < N)%nat -> forall l, (0 <= l < n)%Z ->
  get 0 (p (S i)) l = get 0 (p i) l * (gamma (S i) / gamma i) + 1 * get 0 (z (S i)) l.
Hypothesis Hpos : forall i, (i <= N)%nat -> 0 < gamma i.





End ConjugateGradient.

(** [N + 1] nonzero vectors of length [n] that are pairwise orthogonal for
    a positive diagonal weight: then [N < n]. *)
Section OrthogonalFamily.
Variable n : Z.
Variable M : list R.
Variables r z : nat -> list R.
Variable gamma : nat -> R.
Variable N : nat.
Local Abbreviation ip u v := (innerProd u v n) (only parsing).

Hypothesis Mpos : forall l, (0 <= l < n)%Z -> 0 < get 0 M l.
Hypothesis Hz : forall i, (i <= N)%nat -> forall l, (0 <= l < n)%Z ->
  get 0 (z i) l = get 0 (r i) l * get 0 M l.
Hypothesis Hg : forall i, (i <= N)%nat -> gamma i = ip (r i) (z i).
Hypothesis Hpos : forall i, (i <= N)%nat -> 0 < gamma i.
Hypothesis Horth : forall i j, (i <= N)%nat -> (j <= N)%nat -> i <> j -> ip (r i) (z j) = 0.

Let idx : list nat := seq 0 (S N).
Let P (l l' : Z) : R := Rsum (map (fun i => get 0 (r i) l * get 0 (r i) l' / gamma i) idx).






End OrthogonalFamily.

Local Close Scope R_scope.

(** ** pcg in exact arithmetic: convergence within n passes *)

Section PcgPasses.
Context {F : Type} {PF : PFloat F}.
Local Open Scope pf_scope.






End PcgPasses.

Local Open Scope R_scope.

















Local Close Scope R_scope.
